(** * sbtc-print: the mesh builder, the prompt parser and the print-job
      lifecycle of [src/index.ts], embedded and verified.

    Conventions of the embedding.
    - A JavaScript [number] is a value of [number] below: a finite value kept
      as an exact rational, or one of [NaN], [Infinity], [-Infinity]; [-0] is
      identified with [0].
    - The operators of the language, written infix, are those of [Double]:
      the exact result rounded to the nearest binary64 value, ties to even,
      and to an infinity beyond the range, as IEEE-754 prescribes.  They are
      the arithmetic of [parseInt], [parsePrompt], the preview and the mesh
      builder.
    - The operations of [JS], written by name, compute on finite values
      exactly.  The G-code generator of the print server is kept on them: its
      layer height 0.2 is the rational 1/5.
    - [Math.cos], [Math.sin] and [Math.pow] are supplied by the runtime
      (ECMA-262 leaves their results implementation-approximated) and are
      variables of the sections that use them.
    - A [for (let i = 0; i < n; i++)] loop that only pushes to [triangles]
      is the concatenation of its bodies over [seq 0 n].
    - The key-value namespace [PRINT_QUEUE] is a finite map of job documents
      (keys [job:<id>]) together with the document stored under [queue];
      every [put] records the [expirationTtl] option it was called with. *)

From Stdlib Require Import ZArith QArith Qround Qpower String Ascii List Lia.
From Stdlib Require Qcanon Floats.
From stdpp Require Import base option list gmap strings.
Import ListNotations.

Local Open Scope Z_scope.

(** ** JavaScript numbers *)

Module JS.

Inductive number : Type :=
| Fin (q : Q)
| NaN
| Infinity
| NegInfinity.

Definition num (z : Z) : number := Fin (inject_Z z).
Definition of_nat (n : nat) : number := num (Z.of_nat n).

(** [ToBoolean] on a number: [0] and [NaN] are falsy. *)
Definition truthy (x : number) : bool :=
match x with
| Fin q => negb (Qeq_bool q 0)
| NaN => false
| Infinity | NegInfinity => true
end.

(** Sign of a value that is not [NaN]. *)
Definition sgn (x : number) : Z :=
match x with
| Fin q => Z.sgn (Qnum q)
| NaN => 0
| Infinity => 1
| NegInfinity => -1
end.

Definition inf_of_sign (s : Z) : number :=
match s with
| Z0 => NaN
| Zpos _ => Infinity
| Zneg _ => NegInfinity
end.

Definition neg (x : number) : number :=
match x with
| Fin q => Fin (Qred (- q))
| NaN => NaN
| Infinity => NegInfinity
| NegInfinity => Infinity
end.

Definition add (x y : number) : number :=
match x, y with
| NaN, _ | _, NaN => NaN
| Fin a, Fin b => Fin (Qred (a + b))
| Infinity, NegInfinity | NegInfinity, Infinity => NaN
| Infinity, _ | _, Infinity => Infinity
| NegInfinity, _ | _, NegInfinity => NegInfinity
end.

Definition mul (x y : number) : number :=
match x, y with
| NaN, _ | _, NaN => NaN
| Fin a, Fin b => Fin (Qred (a * b))
| _, _ => inf_of_sign (sgn x * sgn y)
end.

Definition div (x y : number) : number :=
match x, y with
| NaN, _ | _, NaN => NaN
| Fin a, Fin b =>
    if Qeq_bool b 0 then inf_of_sign (sgn x) else Fin (Qred (a / b))
| Fin _, _ => Fin 0
| _, Fin b => if Qeq_bool b 0 then x else inf_of_sign (sgn x * sgn y)
| _, _ => NaN
end.

(** [Math.PI] is the double nearest to pi, an exact rational. *)
Definition Math_PI : number := Fin (884279719003555 # 281474976710656).

(** [Math.round]: the nearest integer, ties towards [+Infinity]. *)
Definition Math_round (x : number) : number :=
match x with
| Fin q => Fin (inject_Z (Qfloor (q + (1 # 2))))
| _ => x
end.

Definition Math_max (x y : number) : number :=
match x, y with
| NaN, _ | _, NaN => NaN
| Infinity, _ | _, Infinity => Infinity
| NegInfinity, z | z, NegInfinity => z
| Fin a, Fin b => if Qle_bool a b then Fin b else Fin a
end.

(** The order [<=] of JavaScript; [NaN] compares with nothing. *)
Definition leb (x y : number) : bool :=
match x, y with
| NaN, _ | _, NaN => false
| NegInfinity, _ | _, Infinity => true
| Fin a, Fin b => Qle_bool a b
| _, _ => false
end.

(** [x || d] where [x] may be [undefined]. *)
Definition or_default (x : option number) (d : number) : number :=
match x with
| Some v => if truthy v then v else d
| None => d
end.

End JS.

Import JS.

(** ** Doubles: rounding to binary64 *)

Module Double.
Local Open Scope Q_scope.

(** The exponent of a positive rational: [2 ^ e <= a < 2 ^ (e + 1)]. *)
Definition ilog2 (a : Q) : Z :=
let e := (Z.log2 (Qnum a) - Z.log2 (Zpos (Qden a)))%Z in
if Qle_bool (2 ^ e) a then e else (e - 1)%Z.

(** The nearest integer, a tie going to the even one. *)
Definition round_even (x : Q) : Z :=
let f := Qfloor x in
match Qcompare (x - inject_Z f) (1 # 2) with
| Lt => f
| Gt => (f + 1)%Z
| Eq => if Z.even f then f else (f + 1)%Z
end.

(** The exponent of the last of the 53 bits of a double near [a]; below
    [2 ^ -1022] the doubles are the multiples of [2 ^ -1074]. *)
Definition quantum (a : Q) : Z := (Z.max (ilog2 a) (-1022) - 52)%Z.

(** The multiple of [2 ^ quantum a] nearest to a positive [a]. *)
Definition nearest (a : Q) : Q :=
let c := quantum a in
inject_Z (round_even (a / 2 ^ c)) * 2 ^ c.

(** The first power of two that is no double any more. *)
Definition limit : Q := 2 ^ 1024.

(** The Number value for a rational: the nearest double, or an infinity
    when that is [2 ^ 1024] or beyond. *)
Definition round (q : Q) : number :=
match Qnum q with
| Z0 => Fin 0
| Zpos _ =>
    let r := nearest q in
    if Qle_bool limit r then Infinity else Fin (Qred r)
| Zneg _ =>
    let r := nearest (- q) in
    if Qle_bool limit r then NegInfinity else Fin (Qred (- r))
end.

Definition of_number (x : number) : number :=
match x with
| Fin q => round q
| _ => x
end.

(** The operators [*], [/] and [+] of the language on doubles: the exact
    result, rounded. *)
Definition mul (x y : number) : number := of_number (JS.mul x y).
Definition div (x y : number) : number := of_number (JS.div x y).
Definition add (x y : number) : number := of_number (JS.add x y).

End Double.

(** The infix operators are those of the language: every result is rounded
    to a double.  (Negation is exact.) *)
Declare Scope num_scope.
Delimit Scope num_scope with num.
Bind Scope num_scope with number.
Notation "x + y" := (Double.add x y) : num_scope.
Notation "x * y" := (Double.mul x y) : num_scope.
Notation "x / y" := (Double.div x y) : num_scope.
Notation "- x" := (neg x) : num_scope.
Notation "x || d" := (or_default x d) : num_scope.


(** ** The machine's binary64, to compare [Double] with *)

Module Binary64.
Local Open Scope Q_scope.

(** The float [m * 2 ^ e], for [m] below [2 ^ 53] in absolute value. *)
Definition make (m e : Z) : PrimFloat.float :=
let f :=
  PrimFloat.ldshiftexp (PrimFloat.of_uint63 (Uint63.of_Z (Z.abs m)))
    (Uint63.of_Z (e + FloatOps.shift)) in
if (m <? 0)%Z then PrimFloat.opp f else f.

(** The value of a float. *)
Definition value (f : PrimFloat.float) : number :=
match FloatOps.Prim2SF f with
| SpecFloat.S754_zero _ => Fin 0
| SpecFloat.S754_infinity s => if s then NegInfinity else Infinity
| SpecFloat.S754_nan => NaN
| SpecFloat.S754_finite s m e =>
    Fin (Qred ((if s then -1 else 1) * inject_Z (Zpos m) * 2 ^ e))
end.

Definition same (x y : number) : bool :=
match x, y with
| Fin p, Fin q => Qeq_bool p q
| Infinity, Infinity | NegInfinity, NegInfinity | NaN, NaN => true
| _, _ => false
end.

(** 0, 1, 1.5, 4.333333333333333, 0.1, [Math.PI], the largest double, the
    smallest one, the smallest normal one, -7.25, 1000, a large and a small
    one. *)
Definition samples : list (Z * Z) :=
[ (0, 0); (1, 0); (3, -1); (4878899596318037, -50); (3602879701896397, -55);
  (884279719003555, -48); (9007199254740991, 971); (1, -1074);
  (4503599627370496, -1074); (-29, -2); (1000, 0); (7, 600);
  (-5, -600) ]%Z.

(** [op] and the machine's [fop] give the same value on every pair of
    samples. *)
Definition agree (op : number -> number -> number)
    (fop : PrimFloat.float -> PrimFloat.float -> PrimFloat.float) : bool :=
forallb
  (fun ab : (Z * Z) * (Z * Z) =>
     let '((m, e), (n, d)) := ab in
     let a := make m e in
     let b := make n d in
     same (op (value a) (value b)) (value (fop a b)))
  (list_prod samples samples).

End Binary64.

(** ** The data model of [index.ts] *)

Inductive ShapeType : Type :=
| cube | cylinder | sphere | cone | torus | text | custom.

#[global] Instance ShapeType_eq_dec : EqDecision ShapeType.
Proof. solve_decision. Defined.

Record Dimensions : Type := mkDimensions {
  width : option number;
  height : option number;
  depth : option number;
  radius : option number;
  text_ : option string
}.

Inductive Units : Type := mm.

Record ShapeConfig : Type := mkShape {
  type : ShapeType;
  dimensions : Dimensions;
  units : Units
}.

Definition no_dimensions : Dimensions := mkDimensions None None None None None.

(** The five primitives the mesh builder has a branch for. *)
Definition supported (t : ShapeType) : bool :=
  match t with
  | cube | cylinder | sphere | cone | torus => true
  | text | custom => false
  end.

(** ** The mesh builder: [generateSTL] *)

Definition vec : Type := (number * number * number)%type.

Definition vx (v : vec) : number := fst (fst v).
Definition vy (v : vec) : number := snd (fst v).
Definition vz (v : vec) : number := snd v.

(** One call [addTriangle(v1, v2, v3, normal)]. *)
Record facet : Type := mkFacet {
  f_v1 : vec;
  f_v2 : vec;
  f_v3 : vec;
  f_normal : vec
}.

Definition addTriangle (v1 v2 v3 normal : vec) : facet :=
  mkFacet v1 v2 v3 normal.

Definition newline : string := String (ascii_of_nat 10) EmptyString.

Fixpoint join (sep : string) (l : list string) : string :=
  match l with
  | [] => EmptyString
  | [s] => s
  | s :: rest => (s ++ sep ++ join sep rest)%string
  end.

Section MeshBuilder.

(** The runtime's [Math.cos], [Math.sin] and number-to-string conversion. *)
Variable Math_cos Math_sin : number -> number.
Variable Number_toString : number -> string.

Local Open Scope num_scope.

(** The twelve calls of the cube branch, given its constants [w], [h], [d]
    (the half extents). *)
Definition cube_mesh (w h d : number) : list facet :=
  let o := num 0 in
  let l := num 1 in
  [ (* bottom *)
    addTriangle (-w, -h, -d) (w, -h, -d) (w, -h, d) (o, -l, o);
    addTriangle (-w, -h, -d) (w, -h, d) (-w, -h, d) (o, -l, o);
    (* top *)
    addTriangle (-w, h, -d) (w, h, d) (w, h, -d) (o, l, o);
    addTriangle (-w, h, -d) (-w, h, d) (w, h, d) (o, l, o);
    (* front *)
    addTriangle (-w, -h, d) (w, -h, d) (w, h, d) (o, o, l);
    addTriangle (-w, -h, d) (w, h, d) (-w, h, d) (o, o, l);
    (* back *)
    addTriangle (-w, -h, -d) (w, h, -d) (w, -h, -d) (o, o, -l);
    addTriangle (-w, -h, -d) (-w, h, -d) (w, h, -d) (o, o, -l);
    (* right *)
    addTriangle (w, -h, -d) (w, h, -d) (w, h, d) (l, o, o);
    addTriangle (w, -h, -d) (w, h, d) (w, -h, d) (l, o, o);
    (* left *)
    addTriangle (-w, -h, -d) (-w, h, d) (-w, h, -d) (-l, o, o);
    addTriangle (-w, -h, -d) (-w, -h, d) (-w, h, d) (-l, o, o) ].

Definition cube_facets (dims : Dimensions) : list facet :=
  let w := (width dims || num 50) / num 2 in
  let h := (height dims || num 50) / num 2 in
  let d := (depth dims || num 50) / num 2 in
  cube_mesh w h d.

(** The angle [(i / n) * Math.PI * 2]. *)
Definition turn (i n : nat) : number :=
  (of_nat i / of_nat n) * Math_PI * num 2.

Definition cylinder_segments : nat := 24.

Definition cylinder_step (r h : number) (i : nat) : list facet :=
  let a1 := turn i cylinder_segments in
  let a2 := turn (i + 1) cylinder_segments in
  let x1 := Math_cos a1 * r in
  let z1 := Math_sin a1 * r in
  let x2 := Math_cos a2 * r in
  let z2 := Math_sin a2 * r in
  [ (* side *)
    addTriangle (x1, -h, z1) (x2, -h, z2) (x2, h, z2)
                (Math_cos a1, num 0, Math_sin a1);
    addTriangle (x1, -h, z1) (x2, h, z2) (x1, h, z1)
                (Math_cos a1, num 0, Math_sin a1);
    (* top *)
    addTriangle (num 0, h, num 0) (x1, h, z1) (x2, h, z2)
                (num 0, num 1, num 0);
    (* bottom *)
    addTriangle (num 0, -h, num 0) (x2, -h, z2) (x1, -h, z1)
                (num 0, - num 1, num 0) ].

Definition cylinder_mesh (r h : number) : list facet :=
  flat_map (cylinder_step r h) (seq 0 cylinder_segments).

Definition cylinder_facets (dims : Dimensions) : list facet :=
  let r := radius dims || num 25 in
  let h := (height dims || num 50) / num 2 in
  cylinder_mesh r h.

Definition sphere_segments : nat := 16.
Definition sphere_rings : nat := 12.

(** The angle [(i / n) * Math.PI] of a latitude ring. *)
Definition half_turn (i n : nat) : number :=
  (of_nat i / of_nat n) * Math_PI.

Definition sphere_point (r phi theta : number) : vec :=
  (Math_sin phi * Math_cos theta * r,
   Math_cos phi * r,
   Math_sin phi * Math_sin theta * r).

Definition sphere_cell (r : number) (i j : nat) : list facet :=
  let phi1 := half_turn i sphere_rings in
  let phi2 := half_turn (i + 1) sphere_rings in
  let theta1 := turn j sphere_segments in
  let theta2 := turn (j + 1) sphere_segments in
  let p1 := sphere_point r phi1 theta1 in
  let p2 := sphere_point r phi1 theta2 in
  let p3 := sphere_point r phi2 theta2 in
  let p4 := sphere_point r phi2 theta1 in
  let n1 := (vx p1 / r, vy p1 / r, vz p1 / r) in
  (if (0 <? i)%nat then [addTriangle p1 p2 p3 n1] else [])
  ++ (if (i <? sphere_rings - 1)%nat then [addTriangle p1 p3 p4 n1] else []).

Definition sphere_ring (r : number) (i : nat) : list facet :=
  flat_map (sphere_cell r i) (seq 0 sphere_segments).

Definition sphere_mesh (r : number) : list facet :=
  flat_map (sphere_ring r) (seq 0 sphere_rings).

Definition sphere_facets (dims : Dimensions) : list facet :=
  let r := radius dims || num 25 in
  sphere_mesh r.

Definition cone_segments : nat := 24.

Definition cone_step (r h : number) (i : nat) : list facet :=
  let a1 := turn i cone_segments in
  let a2 := turn (i + 1) cone_segments in
  let x1 := Math_cos a1 * r in
  let z1 := Math_sin a1 * r in
  let x2 := Math_cos a2 * r in
  let z2 := Math_sin a2 * r in
  [ (* side *)
    addTriangle (x1, num 0, z1) (x2, num 0, z2) (num 0, h, num 0)
                (Math_cos a1, Fin (1 # 2), Math_sin a1);
    (* bottom *)
    addTriangle (num 0, num 0, num 0) (x2, num 0, z2) (x1, num 0, z1)
                (num 0, - num 1, num 0) ].

Definition cone_mesh (r h : number) : list facet :=
  flat_map (cone_step r h) (seq 0 cone_segments).

Definition cone_facets (dims : Dimensions) : list facet :=
  let r := radius dims || num 25 in
  let h := height dims || num 50 in
  cone_mesh r h.

Definition torus_segments : nat := 24.
Definition torus_rings : nat := 16.

(** [getPoint(u, v)] of the torus branch, closed over [R] and [r]. *)
Definition getPoint (R r u v : number) : vec :=
  ((R + r * Math_cos v) * Math_cos u,
   r * Math_sin v,
   (R + r * Math_cos v) * Math_sin u).

Definition torus_cell (R r : number) (i j : nat) : list facet :=
  let u1 := turn i torus_rings in
  let u2 := turn (i + 1) torus_rings in
  let v1 := turn j torus_segments in
  let v2 := turn (j + 1) torus_segments in
  let p1 := getPoint R r u1 v1 in
  let p2 := getPoint R r u2 v1 in
  let p3 := getPoint R r u2 v2 in
  let p4 := getPoint R r u1 v2 in
  [ addTriangle p1 p2 p3 (Math_cos u1, num 0, Math_sin u1);
    addTriangle p1 p3 p4 (Math_cos u1, num 0, Math_sin u1) ].

Definition torus_ring (R r : number) (i : nat) : list facet :=
  flat_map (torus_cell R r i) (seq 0 torus_segments).

Definition torus_mesh (R r : number) : list facet :=
  flat_map (torus_ring R r) (seq 0 torus_rings).

Definition torus_facets (dims : Dimensions) : list facet :=
  let R := radius dims || num 30 in
  let r := (width dims || num 10) / num 2 in
  torus_mesh R r.

(** The calls to [addTriangle] made by [generateSTL], in order.  The chain
    of [if / else if] has no final [else]: the kinds [text] and [custom]
    reach the [return] with [triangles] still empty. *)
Definition triangles (shape : ShapeConfig) : list facet :=
  match type shape with
  | cube => cube_facets (dimensions shape)
  | cylinder => cylinder_facets (dimensions shape)
  | sphere => sphere_facets (dimensions shape)
  | cone => cone_facets (dimensions shape)
  | torus => torus_facets (dimensions shape)
  | text | custom => []
  end.

Definition show_vec (v : vec) : string :=
  (Number_toString (vx v) ++ " " ++ Number_toString (vy v) ++ " "
     ++ Number_toString (vz v))%string.

(** The seven strings one [addTriangle] pushes. *)
Definition facet_lines (f : facet) : list string :=
  [ ("  facet normal " ++ show_vec (f_normal f))%string;
    "    outer loop"%string;
    ("      vertex " ++ show_vec (f_v1 f))%string;
    ("      vertex " ++ show_vec (f_v2 f))%string;
    ("      vertex " ++ show_vec (f_v3 f))%string;
    "    endloop"%string;
    "  endfacet"%string ].

Definition generateSTL (shape : ShapeConfig) : string :=
  ("solid model" ++ newline
     ++ join newline (flat_map facet_lines (triangles shape))
     ++ newline ++ "endsolid model")%string.

End MeshBuilder.

(** ** Strings and the regular expressions of [parsePrompt]

    Prompts are strings of code units below 256: [toLowerCase] maps the
    capital letters of that range and [\s] is its white space.  The
    properties proved of [parsePrompt] hold for every lower-cased text. *)

Definition lower_ascii (c : ascii) : ascii :=
  let n := nat_of_ascii c in
  if (((65 <=? n) && (n <=? 90))
      || ((192 <=? n) && (n <=? 222) && negb (n =? 215)))%nat
  then ascii_of_nat (n + 32) else c.

Fixpoint toLowerCase (s : string) : string :=
  match s with
  | EmptyString => EmptyString
  | String c rest => String (lower_ascii c) (toLowerCase rest)
  end.

(** [s.includes(sub)]. *)
Fixpoint includes (s sub : string) : bool :=
  if String.prefix sub s then true
  else match s with
       | EmptyString => false
       | String _ rest => includes rest sub
       end.

Definition is_digit (c : ascii) : bool :=
  let n := nat_of_ascii c in ((48 <=? n) && (n <=? 57))%nat.

Definition is_space (c : ascii) : bool :=
  let n := nat_of_ascii c in
  (((9 <=? n) && (n <=? 13)) || (n =? 32) || (n =? 160))%nat.

(** The fragment of regular expressions the three patterns use.  Repetition
    is only ever applied to a character class. *)
Inductive regex : Type :=
| Str (s : string)
| Plus (p : ascii -> bool)
| Star (p : ascii -> bool)
| Seq (r1 r2 : regex)
| Alt (r1 r2 : regex)
| Opt (r : regex)
| Group (n : nat) (r : regex).

Module Regex.

Definition captures : Type := gmap nat string.

Section Backtracking.
Context {A : Type}.

(** Greedy [p*]: the longest run first, then shorter ones. *)
Fixpoint star (p : ascii -> bool) (s : string)
    (k : string -> option A) : option A :=
  match s with
  | String c rest =>
      if p c then
        match star p rest k with
        | Some r => Some r
        | None => k s
        end
      else k s
  | EmptyString => k s
  end.

Definition plus (p : ascii -> bool) (s : string)
    (k : string -> option A) : option A :=
  match s with
  | String c rest => if p c then star p rest k else None
  | EmptyString => None
  end.

Fixpoint literal (lit s : string) : option string :=
  match lit, s with
  | EmptyString, _ => Some s
  | String a lit', String b s' =>
      if Ascii.eqb a b then literal lit' s' else None
  | String _ _, EmptyString => None
  end.

(** What was consumed between the input [s] and its suffix [s']. *)
Definition consumed (s s' : string) : string :=
  substring 0 (String.length s - String.length s') s.

(** The backtracking matcher, in continuation-passing style: [k] is the
    rest of the pattern; [None] makes the caller try its next choice. *)
Fixpoint exec (r : regex) (s : string) (caps : captures)
    (k : string -> captures -> option A) : option A :=
  match r with
  | Str lit =>
      match literal lit s with
      | Some s' => k s' caps
      | None => None
      end
  | Plus p => plus p s (fun s' => k s' caps)
  | Star p => star p s (fun s' => k s' caps)
  | Seq r1 r2 => exec r1 s caps (fun s1 c1 => exec r2 s1 c1 k)
  | Alt r1 r2 =>
      match exec r1 s caps k with
      | Some x => Some x
      | None => exec r2 s caps k
      end
  | Opt r1 =>
      match exec r1 s caps k with
      | Some x => Some x
      | None => k s caps
      end
  | Group n r1 =>
      exec r1 s caps (fun s' c' => k s' (<[n := consumed s s']> c'))
  end.
End Backtracking.

(** [s.match(r)] without the [g] flag: the leftmost match. *)
Fixpoint search (r : regex) (s : string) : option captures :=
  match exec r s ∅ (fun _ c => Some c) with
  | Some c => Some c
  | None =>
      match s with
      | String _ rest => search r rest
      | EmptyString => None
      end
  end.

End Regex.

Notation "r1 ⋅ r2" := (Seq r1 r2) (at level 41, right associativity).

(** The optional unit, [mm] or [millimeter]. *)
Definition re_unit : regex := Opt (Alt (Str "mm") (Str "millimeter")).

(** The separator: white space, [x] or [by], white space. *)
Definition re_by : regex :=
  Alt (Star is_space ⋅ Str "x" ⋅ Star is_space)
      (Star is_space ⋅ Str "by" ⋅ Star is_space).

Definition re_dim : regex :=
  Group 1 (Plus is_digit) ⋅ Star is_space ⋅ re_unit ⋅ re_by
    ⋅ Group 2 (Plus is_digit)
    ⋅ Opt (Star is_space ⋅ re_unit ⋅ re_by ⋅ Group 3 (Plus is_digit)).

Definition re_radius : regex :=
  Group 1 (Plus is_digit) ⋅ Star is_space ⋅ re_unit ⋅ Star is_space
    ⋅ Str "radius".

Definition re_size : regex :=
  Group 1 (Plus is_digit) ⋅ Star is_space ⋅ Alt (Str "mm") (Str "millimeter").

Definition digit_value (c : ascii) : Z := Z.of_nat (nat_of_ascii c) - 48.

Fixpoint digits (acc : option Z) (s : string) : option Z :=
  match s with
  | String c rest =>
      if is_digit c
      then digits (Some (10 * default 0 acc + digit_value c)) rest
      else acc
  | EmptyString => acc
  end.

(** [parseInt] on a capture: the double nearest to the integer its leading
    decimal digits write, [NaN] without any (and on [undefined]).  (Beyond 20
    significant digits ECMA-262 lets an implementation round a nearby integer
    instead; the result is a double as well.) *)
Definition parseInt (s : option string) : number :=
  match s ≫= digits None with
  | Some z => Double.round (inject_Z z)
  | None => NaN
  end.

(** ** [parsePrompt] *)

(** [x || d] on two numbers. *)
Definition or_num (x d : number) : number := if truthy x then x else d.

Definition any_includes (s : string) (keys : list string) : bool :=
  existsb (includes s) keys.

Section ParsePrompt.
Local Open Scope num_scope.

(** The four mutable locals [width], [height], [depth], [radius]. *)
Record sizes : Type := mkSizes {
  s_width : number; s_height : number; s_depth : number; s_radius : number
}.

Definition extract_sizes (lower : string) : sizes :=
  match Regex.search re_dim lower with
  | Some dimMatch =>
      let width := parseInt (dimMatch !! 1%nat) in
      let height := parseInt (dimMatch !! 2%nat) in
      let depth :=
        match dimMatch !! 3%nat with
        | Some g => if (g =? "")%string then width else parseInt (Some g)
        | None => width
        end in
      mkSizes width height depth (num 25)
  | None =>
      match Regex.search re_radius lower with
      | Some radiusMatch =>
          let radius := parseInt (radiusMatch !! 1%nat) in
          let side := radius * num 2 in
          mkSizes side side side radius
      | None =>
          match Regex.search re_size lower with
          | Some sizeMatch =>
              let side := parseInt (sizeMatch !! 1%nat) in
              mkSizes side side side (side / num 2)
          | None => mkSizes (num 50) (num 50) (num 50) (num 25)
          end
      end
  end.

Definition only_radius (r : number) : Dimensions :=
  mkDimensions None None None (Some r) None.
Definition radius_height (r h : number) : Dimensions :=
  mkDimensions None (Some h) None (Some r) None.
Definition radius_width (r w : number) : Dimensions :=
  mkDimensions (Some w) None None (Some r) None.
Definition box (w h d : number) : Dimensions :=
  mkDimensions (Some w) (Some h) (Some d) None None.

(** [parsePrompt] after [prompt.toLowerCase()]. *)
Definition parseLower (lower : string) : ShapeConfig :=
  let '(mkSizes width height depth radius) := extract_sizes lower in
  if any_includes lower ["sphere"; "ball"; "orb"]%string then
    mkShape sphere (only_radius radius) mm
  else if any_includes lower ["cylinder"; "tube"; "pipe"; "rod"]%string then
    mkShape cylinder
      (radius_height (or_num radius (width / num 2)) height) mm
  else if any_includes lower ["cone"; "pyramid"]%string then
    mkShape cone (radius_height (or_num radius (width / num 2)) height) mm
  else if any_includes lower ["donut"; "torus"; "ring"]%string then
    mkShape torus (radius_width (or_num radius (num 30)) (num 10)) mm
  else if any_includes lower ["cube"; "box"; "block"; "square"]%string then
    mkShape cube (box width height depth) mm
  else
    mkShape cube (box width height depth) mm.

Definition parsePrompt (prompt : string) : ShapeConfig :=
  parseLower (toLowerCase prompt).

End ParsePrompt.

(** ** [POST /api/preview]: volume and print-time estimate *)

Section Preview.
Local Open Scope num_scope.

(** The runtime's [Math.pow]. *)
Variable Math_pow : number -> number -> number.

(** The [switch] on [shape.type]; it has no [default] case, so
    [volumeCm3] keeps its initial [0] for the other kinds. *)
Definition volumeCm3 (shape : ShapeConfig) : number :=
  let dims := dimensions shape in
  match type shape with
  | cube =>
      ((width dims || num 50) * (height dims || num 50)
         * (depth dims || num 50)) / num 1000
  | cylinder =>
      (Math_PI * Math_pow (radius dims || num 25) (num 2)
         * (height dims || num 50)) / num 1000
  | sphere =>
      ((num 4 / num 3) * Math_PI * Math_pow (radius dims || num 25) (num 3))
        / num 1000
  | cone =>
      ((num 1 / num 3) * Math_PI * Math_pow (radius dims || num 25) (num 2)
         * (height dims || num 50)) / num 1000
  | torus =>
      (num 2 * Math_PI * Math_PI * (radius dims || num 30)
         * Math_pow ((width dims || num 10) / num 2) (num 2)) / num 1000
  | text | custom => num 0
  end.

(** [Math.max(5, Math.round(volumeCm3 * 1.5))]. *)
Definition estimatedMinutes (volume : number) : number :=
  Math_max (num 5) (Math_round (volume * Fin (3 # 2))).

Record PreviewBody : Type := mkPreview {
  pv_shape : ShapeConfig;
  pv_volumeCm3 : number;
  pv_estimatedMinutes : number
}.

Definition post_preview (prompt : string) : PreviewBody :=
  let shape := parsePrompt prompt in
  let volume := volumeCm3 shape in
  mkPreview shape volume (estimatedMinutes volume).

End Preview.

(** ** The job store and the order handlers *)

Inductive JobStatus : Type :=
| pending_payment | paid | printing | completed | failed.

#[global] Instance JobStatus_eq_dec : EqDecision JobStatus.
Proof. solve_decision. Defined.

Record PrintJob : Type := mkJob {
  id : string;
  prompt : string;
  shape : ShapeConfig;
  stlData : string;
  status : JobStatus;
  paymentTxId : option string;
  createdAt : string;
  paidAt : option string;
  printedAt : option string
}.

(** A stored document with the options its [put] was given. *)
Record stored (V : Type) : Type := mkStored {
  value : V;
  expirationTtl : option Z
}.
Arguments mkStored {V} _ _.
Arguments value {V} _.
Arguments expirationTtl {V} _.

(** The namespace [PRINT_QUEUE]: the documents [job:<id>] by id, and the
    document [queue].  The text written by [JSON.stringify] and read back by
    [JSON.parse] is identified with the value it encodes. *)
Record KV : Type := mkKV {
  jobs : gmap string (stored PrintJob);
  queue_doc : option (stored (list string))
}.

Definition empty_kv : KV := mkKV ∅ None.

Definition get_job (kv : KV) (orderId : string) : option PrintJob :=
  value <$> jobs kv !! orderId.

Definition put_job (kv : KV) (orderId : string) (job : PrintJob)
    (ttl : option Z) : KV :=
  mkKV (<[orderId := mkStored job ttl]> (jobs kv)) (queue_doc kv).

(** [JSON.parse(await get('queue') || '[]')]. *)
Definition get_queue (kv : KV) : list string :=
  match queue_doc kv with
  | Some doc => value doc
  | None => []
  end.

Definition put_queue (kv : KV) (queue : list string) : KV :=
  mkKV (jobs kv) (Some (mkStored queue None)).

Inductive Body : Type :=
| ErrorBody (error : string)
| PaymentBody (orderId amount payTo : string)
| ConfirmBody (success : bool) (st : JobStatus) (position : nat)
| SuccessBody (success : bool).

Record Response : Type := mkResponse {
  code : nat;
  body : Body
}.

Definition not_found : Response := mkResponse 404 (ErrorBody "Order not found").

(** A response that reports a failure to the caller. *)
Definition is_error (r : Response) : bool :=
  match body r with
  | ErrorBody _ => true
  | _ => false
  end.

Definition set_paid (job : PrintJob) (txId now : string) : PrintJob :=
  mkJob (id job) (prompt job) (shape job) (stlData job) paid
        (Some txId) (createdAt job) (Some now) (printedAt job).

Definition set_printing (job : PrintJob) : PrintJob :=
  mkJob (id job) (prompt job) (shape job) (stlData job) printing
        (paymentTxId job) (createdAt job) (paidAt job) (printedAt job).

Definition set_completed (job : PrintJob) (now : string) : PrintJob :=
  mkJob (id job) (prompt job) (shape job) (stlData job) completed
        (paymentTxId job) (createdAt job) (paidAt job) (Some now).

(** [queue.filter(id => id !== orderId)]. *)
Definition remove_id (orderId : string) (queue : list string) : list string :=
  filter (fun i => i <> orderId) queue.

Section Handlers.

Variable Math_cos Math_sin : number -> number.
Variable Number_toString : number -> string.
(** The bindings [SBTC_PRICE_SATS] and [PAYMENT_ADDRESS] of [Env]. *)
Variable SBTC_PRICE_SATS PAYMENT_ADDRESS : string.

(** [POST /api/order].  [orderId] is the value of
    [crypto.randomUUID().slice(0, 8)] and [now] that of
    [new Date().toISOString()].  (The body also carries the constants
    [tokenType], [network] and the time [expiresAt].) *)
Definition post_order (kv : KV) (prompt orderId now : string)
    : KV * Response :=
  let shape := parsePrompt prompt in
  let stl := generateSTL Math_cos Math_sin Number_toString shape in
  let job :=
    mkJob orderId prompt shape stl pending_payment None now None None in
  (put_job kv orderId job (Some (86400 * 7)),
   mkResponse 402 (PaymentBody orderId SBTC_PRICE_SATS PAYMENT_ADDRESS)).

(** [POST /api/order/:id/confirm]. *)
Definition post_confirm (kv : KV) (orderId txId now : string)
    : KV * Response :=
  match get_job kv orderId with
  | None => (kv, not_found)
  | Some job =>
      let job := set_paid job txId now in
      let kv := put_job kv orderId job None in
      let queue := get_queue kv ++ [orderId] in
      let kv := put_queue kv queue in
      (kv, mkResponse 200 (ConfirmBody true paid (length queue)))
  end.

(** [POST /api/order/:id/printing]. *)
Definition post_printing (kv : KV) (orderId : string) : KV * Response :=
  match get_job kv orderId with
  | None => (kv, not_found)
  | Some job =>
      (put_job kv orderId (set_printing job) None,
       mkResponse 200 (SuccessBody true))
  end.

(** [POST /api/order/:id/complete]. *)
Definition post_complete (kv : KV) (orderId now : string)
    : KV * Response :=
  match get_job kv orderId with
  | None => (kv, not_found)
  | Some job =>
      let kv := put_job kv orderId (set_completed job now) None in
      let newQueue := remove_id orderId (get_queue kv) in
      (put_queue kv newQueue, mkResponse 200 (SuccessBody true))
  end.

(** [GET /api/queue]: the queued jobs whose document exists and is [paid]. *)
Definition api_queue (kv : KV) : list PrintJob :=
  omap (fun i =>
          match get_job kv i with
          | Some job => if decide (status job = paid) then Some job else None
          | None => None
          end) (get_queue kv).

(** The requests that change the store. *)
Inductive Request : Type :=
| CreateOrder (prompt orderId now : string)
| ConfirmPayment (orderId txId now : string)
| BeginPrinting (orderId : string)
| Complete (orderId now : string).

Definition handle (kv : KV) (r : Request) : KV * Response :=
  match r with
  | CreateOrder prompt orderId now => post_order kv prompt orderId now
  | ConfirmPayment orderId txId now => post_confirm kv orderId txId now
  | BeginPrinting orderId => post_printing kv orderId
  | Complete orderId now => post_complete kv orderId now
  end.

Definition step (kv : KV) (r : Request) : KV := fst (handle kv r).

(** The store after serving the requests in order. *)
Definition run (kv : KV) (rs : list Request) : KV := foldl step kv rs.

(** The status a job must have for a request to be a transition of the
    lifecycle table; an order is created under an id not yet stored. *)
Definition allowed (kv : KV) (r : Request) : Prop :=
  match r with
  | CreateOrder _ orderId _ => get_job kv orderId = None
  | ConfirmPayment orderId _ _ =>
      status <$> get_job kv orderId = Some pending_payment
  | BeginPrinting orderId => status <$> get_job kv orderId = Some paid
  | Complete orderId _ => status <$> get_job kv orderId = Some printing
  end.

(** Only the creation is constrained: the id is fresh. *)
Definition fresh (kv : KV) (r : Request) : Prop :=
  match r with
  | CreateOrder _ orderId _ => get_job kv orderId = None
  | _ => True
  end.

(** [P] holds of every request of [rs] in the store it is served in. *)
Fixpoint each (P : KV -> Request -> Prop) (kv : KV) (rs : list Request)
    : Prop :=
  match rs with
  | [] => True
  | r :: rest => P kv r /\ each P (step kv r) rest
  end.

Definition in_flight (s : JobStatus) : Prop := s = paid \/ s = printing.

Definition status_of (kv : KV) (orderId : string) : option JobStatus :=
  status <$> get_job kv orderId.

End Handlers.

(** ** Vocabulary of the specification *)

(** The error kinds the specification names. *)
Inductive ErrorKind : Type :=
| InvalidDimension | UnsupportedShapeKind | InvalidTransition | NotFound.

(** How a call ends: with the value returned or with an error. *)
Inductive outcome (A : Type) : Type :=
| Returns (a : A)
| Raises (e : ErrorKind).
Arguments Returns {A} _.
Arguments Raises {A} _.

(** The mesh builder as an operation that may fail.  [generateSTL] has no
    [throw] and validates nothing: every call reaches its [return]. *)
Definition build (Math_cos Math_sin : number -> number)
    (Number_toString : number -> string) (shape : ShapeConfig)
    : outcome string :=
  Returns (generateSTL Math_cos Math_sin Number_toString shape).

Inductive DimKey : Type := Width | Height | Depth | Radius.

Definition dim (k : DimKey) (dims : Dimensions) : option number :=
  match k with
  | Width => width dims
  | Height => height dims
  | Depth => depth dims
  | Radius => radius dims
  end.

(** The dimensions the specification lists for each kind. *)
Definition required (t : ShapeType) : list DimKey :=
  match t with
  | cube => [Width; Height; Depth]
  | cylinder => [Radius; Height]
  | sphere => [Radius]
  | cone => [Radius; Height]
  | torus => [Radius; Width]
  | text | custom => []
  end.

Definition positive_finite (x : number) : bool :=
  match x with
  | Fin q => negb (Qle_bool q 0)
  | _ => false
  end.

(** A required dimension is supplied and is not a positive finite number. *)
Definition explicitly_invalid (s : ShapeConfig) : bool :=
  existsb (fun k => match dim k (dimensions s) with
                    | Some v => negb (positive_finite v)
                    | None => false
                    end) (required (type s)).

(** A supported kind, every supplied required dimension positive and finite. *)
Definition valid (s : ShapeConfig) : bool :=
  supported (type s) && negb (explicitly_invalid s).

(** The defaults as the specification states them. *)
Definition spec_default (k : DimKey) : number :=
  match k with
  | Radius => num 25
  | Width | Height | Depth => num 50
  end.

(** The literal to the right of [||] where the branch of kind [t] reads the
    dimension [k]; [None] where the branch does not read [k]. *)
Definition fallback (t : ShapeType) (k : DimKey) : option number :=
  match t, k with
  | cube, (Width | Height | Depth) => Some (num 50)
  | (cylinder | cone), Radius => Some (num 25)
  | (cylinder | cone), Height => Some (num 50)
  | sphere, Radius => Some (num 25)
  | torus, Radius => Some (num 30)
  | torus, Width => Some (num 10)
  | _, _ => None
  end.

(** The value the branch of kind [t] works with for the dimension [k]. *)
Definition used (t : ShapeType) (k : DimKey) (dims : Dimensions) : number :=
  or_default (dim k dims) (default NaN (fallback t k)).

(** The mesh of kind [t] in terms of the values worked with. *)
Definition mesh_with (Math_cos Math_sin : number -> number) (t : ShapeType)
    (get : DimKey -> number) : list facet :=
  match t with
  | cube =>
      cube_mesh (get Width / num 2) (get Height / num 2) (get Depth / num 2)
  | cylinder => cylinder_mesh Math_cos Math_sin (get Radius) (get Height / num 2)
  | sphere => sphere_mesh Math_cos Math_sin (get Radius)
  | cone => cone_mesh Math_cos Math_sin (get Radius) (get Height)
  | torus => torus_mesh Math_cos Math_sin (get Radius) (get Width / num 2)
  | text | custom => []
  end.

(** The number of triangles of each kind. *)
Definition facet_count (t : ShapeType) : nat :=
  match t with
  | cube => 12
  | cylinder => 96
  | sphere => 352
  | cone => 48
  | torus => 768
  | text | custom => 0
  end.

(** Triangles of one cell of latitude ring [i] of the sphere. *)
Definition cell_triangles (i : nat) : nat :=
  ((if (0 <? i)%nat then 1 else 0)
   + (if (i <? sphere_rings - 1)%nat then 1 else 0))%nat.

(** The estimate as the specification writes it, [max(5, round(p))], for a
    finite product [p] of the volume and 1.5. *)
Definition spec_minutes (p : Q) : Z := Z.max 5 (Qfloor (p + (1 # 2))).

(** The words [parsePrompt] looks for, in the order it looks for them. *)
Definition shape_keywords : list string :=
  ["sphere"; "ball"; "orb"; "cylinder"; "tube"; "pipe"; "rod"; "cone";
   "pyramid"; "donut"; "torus"; "ring"; "cube"; "box"; "block"; "square"]%string.

(** A shape keyword occurs or one of the three patterns matches. *)
Definition recognized (lower : string) : bool :=
  any_includes lower shape_keywords
  || bool_decide (is_Some (Regex.search re_dim lower))
  || bool_decide (is_Some (Regex.search re_radius lower))
  || bool_decide (is_Some (Regex.search re_size lower)).

Definition default_cube : ShapeConfig :=
  mkShape cube (box (num 50) (num 50) (num 50)) mm.

(** The cylinder of the specification's error scenario: radius [-5]. *)
Definition negative_cylinder : ShapeConfig :=
  mkShape cylinder (only_radius (num (-5))) mm.

(** The queue invariant of the specification. *)
Definition queue_invariant (kv : KV) : Prop :=
  forall orderId : string,
    orderId ∈ get_queue kv <->
    exists s, status_of kv orderId = Some s /\ in_flight s.

(** One half of it: whatever is queued is a stored job, paid or printing. *)
Definition queued_in_flight (kv : KV) : Prop :=
  forall orderId : string,
    orderId ∈ get_queue kv ->
    exists s, status_of kv orderId = Some s /\ in_flight s.

(** The document of the job ["ab12cd34"] once paid with transaction ["tx1"],
    and a store that holds it, queued. *)
Definition paid_job : PrintJob :=
  mkJob "ab12cd34" "cube 50mm" default_cube "solid model" paid
        (Some "tx1"%string) "2026-01-01T00:00:00.000Z"
        (Some "2026-01-01T00:05:00.000Z"%string) None.

Definition paid_kv : KV :=
  mkKV {[ "ab12cd34"%string := mkStored paid_job None ]}
       (Some (mkStored ["ab12cd34"%string] None)).

(** The requests of one order from creation to completion. *)
Definition one_order : list Request :=
  [ CreateOrder "cube 50mm" "ab12cd34" "2026-01-01T00:00:00.000Z";
    ConfirmPayment "ab12cd34" "tx1" "2026-01-01T00:05:00.000Z";
    BeginPrinting "ab12cd34";
    Complete "ab12cd34" "2026-01-01T01:00:00.000Z" ].

(** The time to live of a stored job document. *)
Definition job_ttl (kv : KV) (orderId : string) : option (option Z) :=
  expirationTtl <$> jobs kv !! orderId.

Definition seven_days : Z := 604800.

(** ** The read handlers of [index.ts] *)

(** The body of [GET /api/order/:id]. *)
Record OrderView : Type := mkOrderView {
  ov_id : string;
  ov_status : JobStatus;
  ov_shape : ShapeConfig;
  ov_createdAt : string;
  ov_paidAt : option string;
  ov_printedAt : option string
}.

(** [GET /api/order/:id]: the view of the job, or the 404 response. *)
Definition get_order (kv : KV) (orderId : string) : Response + OrderView :=
  match get_job kv orderId with
  | None => inl not_found
  | Some job =>
      inr (mkOrderView (id job) (status job) (shape job) (createdAt job)
             (paidAt job) (printedAt job))
  end.

(** The response of [GET /api/order/:id/stl]: the body and its two headers. *)
Record StlResponse : Type := mkStlResponse {
  stl_body : string;
  content_type : string;
  content_disposition : string
}.

Definition get_stl (kv : KV) (orderId : string) : Response + StlResponse :=
  match get_job kv orderId with
  | None => inl not_found
  | Some job =>
      inr (mkStlResponse (stlData job) "application/sla"
             ("attachment; filename=" ++ String (ascii_of_nat 34) orderId
                ++ ".stl" ++ String (ascii_of_nat 34) EmptyString)%string)
  end.

(** One entry of the [jobs] array of [GET /api/queue]. *)
Record QueueItem : Type := mkQueueItem {
  qi_id : string;
  qi_shape : ShapeConfig;
  qi_status : JobStatus;
  qi_paidAt : option string
}.

Definition queue_item (job : PrintJob) : QueueItem :=
  mkQueueItem (id job) (shape job) (status job) (paidAt job).

(** The [jobs] array [GET /api/queue] answers with. *)
Definition get_api_queue (kv : KV) : list QueueItem :=
  map queue_item (api_queue kv).

(** Every job document is stored under its own id. *)
Definition keyed_by_id (kv : KV) : Prop :=
  forall (k : string) (job : PrintJob), get_job kv k = Some job -> id job = k.

(** The fields no handler but the creation writes. *)
Definition same_order (a b : PrintJob) : Prop :=
  id a = id b /\ prompt a = prompt b /\ shape a = shape b
  /\ stlData a = stlData b /\ createdAt a = createdAt b.

(** The id a request is about. *)
Definition request_id (r : Request) : string :=
  match r with
  | CreateOrder _ orderId _ => orderId
  | ConfirmPayment orderId _ _ => orderId
  | BeginPrinting orderId => orderId
  | Complete orderId _ => orderId
  end.

Definition is_create (r : Request) : bool :=
  match r with
  | CreateOrder _ _ _ => true
  | _ => false
  end.

(** ** More of the arithmetic of numbers, for [print-server/server.ts] *)

Definition sub (x y : number) : number := add x (neg y).

(** [x < y]; [NaN] compares with nothing. *)
Definition ltb (x y : number) : bool :=
  match x, y with
  | NaN, _ | _, NaN => false
  | Fin a, Fin b => negb (Qle_bool b a)
  | Infinity, _ | _, NegInfinity => false
  | _, _ => true
  end.

(** [Math.ceil]. *)
Definition Math_ceil (x : number) : number :=
  match x with
  | Fin q => Fin (inject_Z (Qceiling q))
  | _ => x
  end.

Definition Math_min (x y : number) : number :=
  match x, y with
  | NaN, _ | _, NaN => NaN
  | NegInfinity, _ | _, NegInfinity => NegInfinity
  | Infinity, z | z, Infinity => z
  | Fin a, Fin b => if Qle_bool a b then Fin a else Fin b
  end.

(** [x * y] where [x] may be [undefined]: [undefined * y] is [NaN]. *)
Definition mul_undefined (x : option number) (y : number) : number :=
  match x with
  | Some v => mul v y
  | None => NaN
  end.

(** A string used as a condition: the empty string is falsy. *)
Definition truthy_string (s : string) : bool :=
  negb (String.eqb s EmptyString).

(** ** [stlToGcode] *)

(** One [G1] line of a layer: the target, the extruder position where the
    line has one, and the feed rate as written. *)
Record move : Type := mkMove {
  m_x : number;
  m_y : number;
  m_e : option number;
  m_f : string
}.

(** What one pass of the layer loop appends: the layer number of its
    comment, the height of its [Z] line and its five moves. *)
Record layer_block : Type := mkLayerBlock {
  l_number : number;
  l_z : number;
  l_moves : list move
}.

Definition layerHeight : number := Fin (1 # 5).
Definition centerX : number := num 125.
Definition centerY : number := num 125.

(** [shape.dimensions.width || shape.dimensions.radius * 2 || 50]. *)
Definition gcode_size (dims : Dimensions) : number :=
  or_num (or_default (width dims) (mul_undefined (radius dims) (num 2)))
         (num 50).

(** [shape.dimensions.height || size]. *)
Definition gcode_height (dims : Dimensions) : number :=
  or_default (height dims) (gcode_size dims).

(** [Math.ceil(height / layerHeight)]. *)
Definition gcode_layers (dims : Dimensions) : number :=
  Math_ceil (div (gcode_height dims) layerHeight).

(** The body of the layer loop for the counter [layer]. *)
Definition layer_pass (offset : number) (layer : nat) : layer_block :=
  let z := mul (add (of_nat layer) (num 1)) layerHeight in
  let e := fun k => Some (add (mul (of_nat layer) (num 4)) (num k)) in
  mkLayerBlock (add (of_nat layer) (num 1)) z
    [ mkMove (sub centerX offset) (sub centerY offset) None "6000";
      mkMove (add centerX offset) (sub centerY offset) (e 1) "1500";
      mkMove (add centerX offset) (add centerY offset) (e 2) "1500";
      mkMove (sub centerX offset) (add centerY offset) (e 3) "1500";
      mkMove (sub centerX offset) (sub centerY offset) (e 4) "1500" ].

(** [for (let layer = start; layer < bound; layer++)], cut off after [fuel]
    passes. *)
Fixpoint layer_loop (fuel : nat) (offset bound : number) (layer : nat)
    : list layer_block :=
  match fuel with
  | O => []
  | S fuel' =>
      if ltb (of_nat layer) bound
      then layer_pass offset layer :: layer_loop fuel' offset bound (S layer)
      else []
  end.

(** The passes of the loop of [stlToGcode]: its bound [Math.min(layers, 50)]
    lets it run 50 times at most, so 51 passes of fuel are never used up. *)
Definition gcode_blocks (dims : Dimensions) : list layer_block :=
  layer_loop 51 (div (gcode_size dims) (num 2))
    (Math_min (gcode_layers dims) (num 50)) 0.

(** The name of a kind, as [shape.type] holds it. *)
Definition type_name (t : ShapeType) : string :=
  match t with
  | cube => "cube"
  | cylinder => "cylinder"
  | sphere => "sphere"
  | cone => "cone"
  | torus => "torus"
  | text => "text"
  | custom => "custom"
  end.

(** Lines, each ended by a line feed. *)
Definition unlines (ls : list string) : string :=
  fold_right (fun l acc => (l ++ newline ++ acc)%string) EmptyString ls.

Section Gcode.

(** [Number.prototype.toFixed] and the default conversion to a string. *)
Variable toFixed : number -> nat -> string.
Variable Number_toString : number -> string.

Definition gcode_header (kind now : string) : list string :=
  [ "";
    "; Jack's Magical Object Creator";
    "; Shape: " ++ kind;
    "; Generated: " ++ now;
    "";
    "; Start Gcode for Creality K1C";
    "G28 ; Home all axes";
    "G1 Z5 F3000 ; Lift Z";
    "M104 S200 ; Set hotend temp";
    "M140 S60 ; Set bed temp";
    "M109 S200 ; Wait for hotend";
    "M190 S60 ; Wait for bed";
    "G92 E0 ; Reset extruder";
    "G1 Z0.3 F3000 ; Move to start height";
    "G1 E5 F200 ; Prime extruder";
    "";
    "; Print shape (simplified)" ]%string.

Definition gcode_footer : list string :=
  [ "";
    "; End Gcode";
    "G1 E-2 F2400 ; Retract";
    "G1 Z50 F3000 ; Raise Z";
    "M104 S0 ; Turn off hotend";
    "M140 S0 ; Turn off bed";
    "G28 X Y ; Home X and Y";
    "M84 ; Disable motors" ]%string.

Definition move_line (m : move) : string :=
  ("G1 X" ++ toFixed (m_x m) 1 ++ " Y" ++ toFixed (m_y m) 1
     ++ match m_e m with
        | Some e => " E" ++ toFixed e 2
        | None => ""
        end
     ++ " F" ++ m_f m)%string.

(** The lines one pass appends. *)
Definition block_lines (b : layer_block) : list string :=
  [ ""; "; Layer " ++ Number_toString (l_number b);
    "G1 Z" ++ toFixed (l_z b) 2 ++ " F1000" ]%string
  ++ map move_line (l_moves b).

(** [stlToGcode(stlContent, shape)]; [now] is [new Date().toISOString()].
    The text of the mesh is never read. *)
Definition stlToGcode (stlContent : string) (shape : ShapeConfig)
    (now : string) : string :=
  unlines (gcode_header (type_name (type shape)) now
           ++ flat_map block_lines (gcode_blocks (dimensions shape))
           ++ gcode_footer).

End Gcode.

(** ** The print server: [print-server/server.ts]

    The server reaches the cloud and the printer through [fetch].  What a
    request gives is an input of the model: a request to the cloud is served,
    is never sent, or is served and its reply lost (the last two throw); a
    request to the printer replies with the field the caller reads, or
    throws. *)

Inductive Delivery : Type := Served | NotSent | ReplyLost.

Inductive reply (A : Type) : Type :=
| Replied (a : A)
| Threw (message : string).
Arguments Replied {A} _.
Arguments Threw {A} _.

(** One tick's worth of the network. *)
Record Net : Type := mkNet {
  queue_call : Delivery;       (* GET /api/queue *)
  stl_call : Delivery;         (* GET /api/order/:id/stl *)
  mark_call : Delivery;        (* POST /api/order/:id/printing *)
  printer_info : reply (option string);   (* result.state of /printer/info *)
  print_stats : reply (option string);    (* result.status.print_stats.state *)
  upload : string -> string -> reply (option string);
                               (* file name, content: result.item.path *)
  start : string -> reply (option string) (* file name: result *)
}.

Record PrinterStatus : Type := mkPrinterStatus {
  ps_ready : bool;
  ps_printing : bool;
  ps_error : option string
}.

(** [status.result?.status?.print_stats?.state || "unknown"]. *)
Definition printState (stats : option string) : string :=
  match stats with
  | Some s => if truthy_string s then s else "unknown"
  | None => "unknown"
  end.

Definition getPrinterStatus (net : Net) : PrinterStatus :=
  match printer_info net with
  | Threw message => mkPrinterStatus false false (Some message)
  | Replied state =>
      match print_stats net with
      | Threw message => mkPrinterStatus false false (Some message)
      | Replied stats =>
          mkPrinterStatus
            (bool_decide (state = Some "ready"%string))
            (String.eqb (printState stats) "printing")
            None
      end
  end.

(** [`jack_${jobId}.gcode`]. *)
Definition gcode_filename (jobId : string) : string :=
  ("jack_" ++ jobId ++ ".gcode")%string.

Definition uploadGcode (net : Net) (jobId gcodeContent : string) : bool :=
  match upload net (gcode_filename jobId) gcodeContent with
  | Replied (Some path) => String.eqb path (gcode_filename jobId)
  | _ => false
  end.

Definition startPrint (net : Net) (jobId : string) : bool :=
  match start net (gcode_filename jobId) with
  | Replied (Some result) => String.eqb result "ok"
  | _ => false
  end.

(** The text of the reply to [GET /api/order/:id/stl]. *)
Definition stl_text (kv : KV) (orderId : string) : string :=
  match get_stl kv orderId with
  | inr r => stl_body r
  | inl _ =>
      ("{" ++ String (ascii_of_nat 34) "error" ++ String (ascii_of_nat 34) ":"
         ++ String (ascii_of_nat 34) "Order not found"
         ++ String (ascii_of_nat 34) "}")%string
  end.

Section PrintServer.

Variable toFixed : number -> nat -> string.
Variable Number_toString : number -> string.

(** [processJob(job)] against the store [kv] of the cloud: the store
    afterwards and the value returned. *)
Definition processJob (net : Net) (kv : KV) (job : QueueItem) (now : string)
    : KV * bool :=
  match stl_call net with
  | Served =>
      let stlContent := stl_text kv (qi_id job) in
      let gcode :=
        stlToGcode toFixed Number_toString stlContent (qi_shape job) now in
      if uploadGcode net (qi_id job) gcode then
        match mark_call net with
        | Served =>
            (fst (post_printing kv (qi_id job)), startPrint net (qi_id job))
        | ReplyLost => (fst (post_printing kv (qi_id job)), false)
        | NotSent => (kv, false)
        end
      else (kv, false)
  | NotSent | ReplyLost => (kv, false)
  end.

(** How a tick of [pollQueue] ends. *)
Inductive Outcome : Type :=
| PollFailed
| NothingListed
| PrinterUnreachable (message : string)
| PrinterBusy
| PrinterNotReady
| Processed (orderId : string) (success : bool).

Definition pollQueue (net : Net) (kv : KV) (now : string) : KV * Outcome :=
  match queue_call net with
  | Served =>
      match get_api_queue kv with
      | [] => (kv, NothingListed)
      | job :: _ =>
          let status := getPrinterStatus net in
          match ps_error status with
          | Some message =>
              if truthy_string message then (kv, PrinterUnreachable message)
              else (kv, PrinterNotReady)
          | None =>
              if ps_printing status then (kv, PrinterBusy)
              else if negb (ps_ready status) then (kv, PrinterNotReady)
              else
                let r := processJob net kv job now in
                (fst r, Processed (qi_id job) (snd r))
          end
      end
  | NotSent | ReplyLost => (kv, PollFailed)
  end.

(** The store after the ticks [ticks], each with its network and clock. *)
Definition poll_all (kv : KV) (ticks : list (Net * string)) : KV :=
  foldl (fun kv t => fst (pollQueue (fst t) kv (snd t))) kv ticks.

End PrintServer.

(** ** Vocabulary of the further properties *)

(** [text.split("\n")]. *)
Fixpoint split_lines (s : string) : list string :=
  match s with
  | EmptyString => [EmptyString]
  | String c rest =>
      if Ascii.eqb c (ascii_of_nat 10) then EmptyString :: split_lines rest
      else match split_lines rest with
           | l :: ls => String c l :: ls
           | [] => [String c EmptyString]
           end
  end.

Fixpoint no_newline (s : string) : bool :=
  match s with
  | EmptyString => true
  | String c rest => negb (Ascii.eqb c (ascii_of_nat 10)) && no_newline rest
  end.

Fixpoint has_digit (s : string) : bool :=
  match s with
  | EmptyString => false
  | String c rest => is_digit c || has_digit rest
  end.

Fixpoint all_digits (s : string) : bool :=
  match s with
  | EmptyString => true
  | String c rest => is_digit c && all_digits rest
  end.

(** A non-empty string of decimal digits. *)
Definition digit_string (s : string) : bool :=
  negb (String.eqb s EmptyString) && all_digits s.

(** Every group of [r] is a run of digits. *)
Fixpoint digit_groups (r : regex) : Prop :=
  match r with
  | Str _ | Plus _ | Star _ => True
  | Seq r1 r2 | Alt r1 r2 => digit_groups r1 /\ digit_groups r2
  | Opt r1 => digit_groups r1
  | Group _ r1 => r1 = Plus is_digit
  end.

(** Every match of [r] goes through the group [n]. *)
Fixpoint binds (n : nat) (r : regex) : bool :=
  match r with
  | Str _ | Plus _ | Star _ => false
  | Seq r1 r2 => binds n r1 || binds n r2
  | Alt r1 r2 => binds n r1 && binds n r2
  | Opt _ => false
  | Group m r1 => Nat.eqb m n || binds n r1
  end.

(** Every group that took part in the match holds a non-empty run of
    digits. *)
Definition digit_captures (c : Regex.captures) : Prop :=
  forall (n : nat) (g : string), c !! n = Some g -> digit_string g = true.

(** Every match of [r] starts with a digit. *)
Definition starts_with_digit (r : regex) : Prop :=
  exists n rest, r = Seq (Group n (Plus is_digit)) rest.

(** [0 <= x]: a number that is not negative, [Infinity] included. *)
Definition nonnegative (x : number) : bool := leb (num 0) x.

(** [0.5 <= x]. *)
Definition at_least_half (x : number) : bool := leb (Fin (1 # 2)) x.

(** [0 < x], [Infinity] included. *)
Definition positive (x : number) : bool := ltb (num 0) x.

(** A value that rounding leaves as it is: a double, an infinity or [NaN]. *)
Definition is_double (x : number) : Prop := Double.of_number x = x.

(** A double that is [0], or [b] at least. *)
Definition zero_or_at_least (b : Q) (x : number) : Prop :=
  is_double x /\ (x = num 0 \/ leb (Fin b) x = true).

(** The double nearest to [q], for a bound from below: [0] when it is out
    of range. *)
Definition rounded (q : Q) : Q :=
  match Double.round q with
  | Fin c => c
  | _ => 0%Q
  end.

(** A power function that multiplies, [x * x * x] for the exponent 3 and
    [x * x] otherwise: one the runtime may have. *)
Definition pow_by_products (x n : number) : number :=
  match n with
  | Fin q =>
      if Qeq_bool q 3 then Double.mul (Double.mul x x) x else Double.mul x x
  | _ => NaN
  end.

(** A whole number that is not negative. *)
Definition natural (x : number) : Prop := exists n : nat, x = of_nat n.

(** The corners of the box with half extents [w], [h], [d]. *)
Definition corner (w h d : number) (v : vec) : Prop :=
  (vx v = w \/ vx v = neg w)
  /\ (vy v = h \/ vy v = neg h)
  /\ (vz v = d \/ vz v = neg d).

(** The coordinate a unit normal along an axis fixes, on a box with half
    extents [w], [h], [d]: the triangle [f] lies in that face. *)
Definition in_face_of_normal (w h d : number) (f : facet) : Prop :=
  forall v, In v [f_v1 f; f_v2 f; f_v3 f] ->
    (f_normal f = (num 0, num (-1), num 0) -> vy v = neg h)
    /\ (f_normal f = (num 0, num 1, num 0) -> vy v = h)
    /\ (f_normal f = (num 0, num 0, num 1) -> vz v = d)
    /\ (f_normal f = (num 0, num 0, num (-1)) -> vz v = neg d)
    /\ (f_normal f = (num 1, num 0, num 0) -> vx v = w)
    /\ (f_normal f = (num (-1), num 0, num 0) -> vx v = neg w).

(** The six axis directions. *)
Definition axis_normals : list vec :=
  [ (num 0, num (-1), num 0); (num 0, num 1, num 0); (num 0, num 0, num 1);
    (num 0, num 0, num (-1)); (num 1, num 0, num 0); (num (-1), num 0, num 0) ].

(** How often the loop [for (layer = 0; layer < bound; layer++)] runs for a
    bound that is not [Infinity]. *)
Definition passes (bound : number) : nat :=
  match bound with
  | Fin q => Z.to_nat (Qceiling q)
  | _ => O
  end.

(** A tick in which every request is served: the printer is ready and idle,
    acknowledges the upload and starts the print. *)
Definition ready_net : Net :=
  mkNet Served Served Served
        (Replied (Some "ready"%string)) (Replied (Some "standby"%string))
        (fun name _ => Replied (Some name))
        (fun _ => Replied (Some "ok"%string)).

(** The same tick, but the printer refuses to start the print. *)
Definition refusing_net : Net :=
  mkNet Served Served Served
        (Replied (Some "ready"%string)) (Replied (Some "standby"%string))
        (fun name _ => Replied (Some name))
        (fun _ => Threw "start failed").

(** * Properties *)

(** ** Rounding to the nearest double *)

Lemma Qred_inject_Z z : Qred (inject_Z z) = inject_Z z.
Proof. apply Qcanon.Qred_identity. simpl. apply Z.gcd_1_r. Qed.

Lemma Qred_integer q z : (q == inject_Z z)%Q -> Qred q = inject_Z z.
Proof.
  intros H. rewrite <- (Qred_inject_Z z). now apply Qred_complete.
Qed.

Section Rounding.
Import Double.
Local Open Scope Q_scope.


Lemma two_pos e : 0 < 2 ^ e.
Proof. apply Qpower_0_lt. reflexivity. Qed.

Lemma two_add a b : 2 ^ (a + b) == 2 ^ a * 2 ^ b.
Proof. apply Qpower_plus. discriminate. Qed.

Lemma two_le a b : (a <= b)%Z -> 2 ^ a <= 2 ^ b.
Proof. intros H. apply Qpower_le_compat_l; [exact H|discriminate]. Qed.

Lemma two_Z n : (0 <= n)%Z -> 2 ^ n == inject_Z (2 ^ n).
Proof. intros H. symmetry. now apply (Zpower_Qpower 2). Qed.

Lemma round_even_bounds x :
  (Qfloor x <= round_even x <= Qfloor x + 1)%Z.
Proof.
  unfold round_even.
  destruct (Qcompare (x - inject_Z (Qfloor x)) (1 # 2)); [|lia|lia].
  destruct (Z.even (Qfloor x)); lia.
Qed.

Lemma round_even_Z z : round_even (inject_Z z) = z.
Proof.
  unfold round_even. rewrite Qfloor_Z.
  assert (E : inject_Z z - inject_Z z == 0) by ring.
  rewrite E. reflexivity.
Qed.

Lemma round_even_mono x y : x <= y -> (round_even x <= round_even y)%Z.
Proof.
  intros H. pose proof (Qfloor_resp_le _ _ H) as F.
  destruct (Z.eq_dec (Qfloor x) (Qfloor y)) as [E|N].
  - unfold round_even. rewrite <- E.
    assert (R : x - inject_Z (Qfloor x) <= y - inject_Z (Qfloor x))
      by (apply Qplus_le_l; exact H).
    destruct (Qcompare (x - inject_Z (Qfloor x)) (1 # 2)) eqn:Cx;
      destruct (Qcompare (y - inject_Z (Qfloor x)) (1 # 2)) eqn:Cy;
      try (destruct (Z.even (Qfloor x))); try lia;
      exfalso;
      repeat match goal with
             | C : Qcompare _ _ = Eq |- _ => apply Qeq_alt in C
             | C : Qcompare _ _ = Lt |- _ => apply Qlt_alt in C
             | C : Qcompare _ _ = Gt |- _ => apply Qgt_alt in C
             end;
    first
      [ rewrite Cx in R; exact (Qlt_not_le _ _ Cy R)
      | rewrite Cy in R; exact (Qlt_not_le _ _ Cx R)
      | apply (Qlt_not_le _ _ Cy); apply Qlt_le_weak;
        eapply Qlt_le_trans; [exact Cx|exact R] ].
  - pose proof (round_even_bounds x). pose proof (round_even_bounds y). lia.
Qed.

Lemma round_even_le x z : x <= inject_Z z -> (round_even x <= z)%Z.
Proof. intros H. rewrite <- (round_even_Z z). now apply round_even_mono. Qed.

Lemma round_even_ge x z : inject_Z z <= x -> (z <= round_even x)%Z.
Proof. intros H. rewrite <- (round_even_Z z). now apply round_even_mono. Qed.


Lemma two_succ e : 2 ^ (e + 1) == 2 * 2 ^ e.
Proof. rewrite two_add. change (2 ^ 1) with 2. ring. Qed.

Lemma two_lt a b : (a < b)%Z -> 2 ^ a < 2 ^ b.
Proof. intros H. apply Qpower_lt_compat_l; [exact H|reflexivity]. Qed.

Lemma log2_bounds (n : Z) :
  (0 < n)%Z ->
  2 ^ Z.log2 n <= inject_Z n /\ inject_Z n < 2 ^ (Z.log2 n + 1).
Proof.
  intros H. destruct (Z.log2_spec n H) as [L U].
  pose proof (Z.log2_nonneg n) as P.
  rewrite !two_Z by lia. split.
  - now rewrite <- Zle_Qle.
  - rewrite <- Zlt_Qlt. unfold Z.succ in U. exact U.
Qed.

Lemma ilog2_estimate (a : Q) :
  0 < a ->
  let e := (Z.log2 (Qnum a) - Z.log2 (Zpos (Qden a)))%Z in
  2 ^ (e - 1) < a /\ a < 2 ^ (e + 1).
Proof.
  intros Ha e. destruct a as [n d]. cbn [Qnum Qden] in e.
  assert (Hn : (0 < n)%Z).
  { unfold Qlt in Ha. cbn in Ha. lia. }
  destruct (log2_bounds n Hn) as [Ln Un].
  destruct (log2_bounds (Zpos d) (Pos2Z.is_pos d)) as [Ld Ud].
  set (ln := Z.log2 n) in *. set (ld := Z.log2 (Zpos d)) in *.
  assert (Hd : 0 < inject_Z (Zpos d)) by reflexivity.
  rewrite (Qmake_Qdiv n d). split.
  - apply Qlt_shift_div_l; [exact Hd|].
    apply Qlt_le_trans with (2 ^ ln); [|exact Ln].
    replace ln with ((e - 1) + (ld + 1))%Z by (unfold e; lia).
    rewrite two_add. apply Qmult_lt_l; [apply two_pos|exact Ud].
  - apply Qlt_shift_div_r; [exact Hd|].
    apply Qlt_le_trans with (2 ^ (ln + 1)); [exact Un|].
    replace (ln + 1)%Z with ((e + 1) + ld)%Z by (unfold e; lia).
    rewrite two_add. apply Qmult_le_l; [apply two_pos|exact Ld].
Qed.

Lemma ilog2_spec (a : Q) :
  0 < a -> 2 ^ ilog2 a <= a /\ a < 2 ^ (ilog2 a + 1).
Proof.
  intros Ha. destruct (ilog2_estimate a Ha) as [L U]. unfold ilog2.
  set (e := (Z.log2 (Qnum a) - Z.log2 (Zpos (Qden a)))%Z) in *.
  destruct (Qle_bool (2 ^ e) a) eqn:E.
  - apply Qle_bool_iff in E. split; assumption.
  - split; [now apply Qlt_le_weak|].
    replace (e - 1 + 1)%Z with e by lia.
    apply Qnot_le_lt. intros C. apply Qle_bool_iff in C. congruence.
Qed.

Lemma ilog2_unique (a : Q) (e : Z) :
  2 ^ e <= a -> a < 2 ^ (e + 1) -> ilog2 a = e.
Proof.
  intros L U.
  assert (Ha : 0 < a) by (eapply Qlt_le_trans; [apply two_pos|exact L]).
  destruct (ilog2_spec a Ha) as [L' U'].
  destruct (Z.lt_trichotomy (ilog2 a) e) as [C|[C|C]]; [|exact C|]; exfalso.
  - apply (Qlt_irrefl a). eapply Qlt_le_trans; [exact U'|].
    eapply Qle_trans; [|exact L]. apply two_le. lia.
  - apply (Qlt_irrefl a). eapply Qlt_le_trans; [exact U|].
    eapply Qle_trans; [|exact L']. apply two_le. lia.
Qed.

Lemma ilog2_mono (a b : Q) : 0 < a -> a <= b -> (ilog2 a <= ilog2 b)%Z.
Proof.
  intros Ha H.
  assert (Hb : 0 < b) by (eapply Qlt_le_trans; eassumption).
  destruct (ilog2_spec a Ha) as [La Ua], (ilog2_spec b Hb) as [Lb Ub].
  destruct (Z.le_gt_cases (ilog2 a) (ilog2 b)) as [C|C]; [exact C|].
  exfalso. apply (Qlt_irrefl b). eapply Qlt_le_trans; [exact Ub|].
  eapply Qle_trans; [|exact H]. eapply Qle_trans; [|exact La].
  apply two_le. lia.
Qed.

Lemma quantum_mono (a b : Q) : 0 < a -> a <= b -> (quantum a <= quantum b)%Z.
Proof.
  intros Ha H. pose proof (ilog2_mono a b Ha H). unfold quantum. lia.
Qed.

Lemma nearest_nonneg (a : Q) : 0 <= a -> 0 <= nearest a.
Proof.
  intros Ha. unfold nearest. apply Qmult_le_0_compat.
  - change 0 with (inject_Z 0). rewrite <- Zle_Qle. apply round_even_ge.
    apply Qle_shift_div_l; [apply two_pos|]. now rewrite Qmult_0_l.
  - apply Qlt_le_weak, two_pos.
Qed.

Lemma nearest_mono (a b : Q) : 0 < a -> a <= b -> nearest a <= nearest b.
Proof.
  intros Ha H.
  assert (Hb : 0 < b) by (eapply Qlt_le_trans; eassumption).
  pose proof (quantum_mono a b Ha H) as Q.
  destruct (Z.eq_dec (quantum a) (quantum b)) as [E|N].
  - unfold nearest. rewrite E. apply Qmult_le_compat_r.
    + rewrite <- Zle_Qle. apply round_even_mono.
      apply Qmult_le_compat_r; [exact H|].
      apply Qlt_le_weak, Qinv_lt_0_compat, two_pos.
    + apply Qlt_le_weak, two_pos.
  - assert (Q' : (quantum a + 1 <= quantum b)%Z) by lia.
    destruct (ilog2_spec a Ha) as [_ Ua], (ilog2_spec b Hb) as [Lb _].
    unfold quantum in Q'.
    assert (Eb : (Z.max (ilog2 b) (-1022) = ilog2 b)%Z) by lia.
    apply Qle_trans with (2 ^ (quantum b + 52)).
    + apply Qle_trans with (2 ^ (quantum a + 53)).
      * unfold nearest. set (c := quantum a).
        replace (c + 53)%Z with (53 + c)%Z by lia. rewrite two_add.
        apply Qmult_le_compat_r; [|apply Qlt_le_weak, two_pos].
        rewrite (two_Z 53) by lia. rewrite <- Zle_Qle. apply round_even_le.
        rewrite <- (two_Z 53) by lia.
        apply Qle_shift_div_r; [apply two_pos|].
        rewrite <- two_add. apply Qlt_le_weak.
        eapply Qlt_le_trans; [exact Ua|]. apply two_le.
        unfold c, quantum. lia.
      * apply two_le. unfold quantum. lia.
    + unfold nearest. set (c := quantum b).
      replace (c + 52)%Z with (52 + c)%Z by lia. rewrite two_add.
      apply Qmult_le_compat_r; [|apply Qlt_le_weak, two_pos].
      rewrite (two_Z 52) by lia. rewrite <- Zle_Qle. apply round_even_ge.
      rewrite <- (two_Z 52) by lia.
      apply Qle_shift_div_l; [apply two_pos|].
      rewrite <- two_add. eapply Qle_trans; [|exact Lb]. apply two_le.
      unfold c, quantum. lia.
Qed.


Lemma round_zero (q : Q) : q == 0 -> round q = Fin 0.
Proof.
  destruct q as [n d]. unfold Qeq. cbn. intros H.
  assert (E : n = 0%Z) by lia. subst n. reflexivity.
Qed.

Lemma round_pos (q : Q) :
  0 < q ->
  round q
  = if Qle_bool limit (nearest q) then Infinity else Fin (Qred (nearest q)).
Proof.
  destruct q as [n d]. unfold Qlt. cbn [Qnum Qden]. intros H.
  unfold round. cbn [Qnum]. destruct n; try lia. reflexivity.
Qed.

Lemma round_neg (q : Q) :
  q < 0 ->
  round q
  = if Qle_bool limit (nearest (- q)) then NegInfinity
    else Fin (Qred (- nearest (- q))).
Proof.
  destruct q as [n d]. unfold Qlt. cbn [Qnum Qden]. intros H.
  unfold round. cbn [Qnum]. destruct n; try lia. reflexivity.
Qed.

Lemma leb_Fin (a b : Q) : leb (Fin a) (Fin b) = true <-> a <= b.
Proof. apply Qle_bool_iff. Qed.

(** Rounding to the nearest double never changes the order of two values. *)
Lemma round_mono (a b : Q) : a <= b -> leb (round a) (round b) = true.
Proof.
  intros H.
  destruct (Q_dec a 0) as [[A|A]|A], (Q_dec b 0) as [[B|B]|B].
  - rewrite (round_neg a A), (round_neg b B).
    assert (M : nearest (- b) <= nearest (- a)).
    { apply nearest_mono.
      - change 0 with (- 0). now apply Qopp_lt_compat.
      - now apply Qopp_le_compat. }
    destruct (Qle_bool limit (nearest (- a))) eqn:La;
      [now destruct (Qle_bool limit (nearest (- b)))|].
    destruct (Qle_bool limit (nearest (- b))) eqn:Lb.
    + apply Qle_bool_iff in Lb.
      assert (C : limit <= nearest (- a)) by (eapply Qle_trans; eassumption).
      apply Qle_bool_iff in C. congruence.
    + apply leb_Fin. rewrite !Qred_correct. now apply Qopp_le_compat.
  - rewrite (round_neg a A), (round_pos b B).
    assert (Na : 0 <= nearest (- a)).
    { apply nearest_nonneg, Qlt_le_weak. change 0 with (- 0).
      now apply Qopp_lt_compat. }
    assert (Nb : 0 <= nearest b) by now apply nearest_nonneg, Qlt_le_weak.
    destruct (Qle_bool limit (nearest (- a))); [now destruct (Qle_bool _ _)|].
    destruct (Qle_bool limit (nearest b)); [reflexivity|].
    apply leb_Fin. rewrite !Qred_correct.
    apply Qle_trans with 0; [|exact Nb].
    change 0 with (- 0). now apply Qopp_le_compat.
  - rewrite (round_neg a A), (round_zero b B).
    destruct (Qle_bool limit (nearest (- a))); [reflexivity|].
    apply leb_Fin. rewrite Qred_correct. change 0 with (- 0).
    apply Qopp_le_compat, nearest_nonneg, Qlt_le_weak.
    change 0 with (- 0). now apply Qopp_lt_compat.
  - exfalso. apply (Qlt_irrefl 0). eapply Qlt_le_trans; [exact A|].
    eapply Qle_trans; [exact H|]. now apply Qlt_le_weak.
  - rewrite (round_pos a A), (round_pos b B).
    pose proof (nearest_mono a b A H) as M.
    destruct (Qle_bool limit (nearest a)) eqn:La.
    + apply Qle_bool_iff in La.
      assert (C : limit <= nearest b) by (eapply Qle_trans; eassumption).
      apply Qle_bool_iff in C. rewrite C. reflexivity.
    + destruct (Qle_bool limit (nearest b)); [reflexivity|].
      apply leb_Fin. now rewrite !Qred_correct.
  - exfalso. apply (Qlt_irrefl 0). eapply Qlt_le_trans; [exact A|].
    eapply Qle_trans; [exact H|]. rewrite B. apply Qle_refl.
  - exfalso. apply (Qlt_irrefl 0). eapply Qle_lt_trans; [|exact B].
    rewrite <- A. exact H.
  - rewrite (round_zero a A), (round_pos b B).
    destruct (Qle_bool limit (nearest b)); [reflexivity|].
    apply leb_Fin. rewrite Qred_correct. now apply nearest_nonneg, Qlt_le_weak.
  - rewrite (round_zero a A), (round_zero b B). reflexivity.
Qed.

(** The double nearest to a value that is not negative is not negative. *)
Lemma round_nonneg (a : Q) :
  0 <= a -> round a = Infinity \/ exists q, round a = Fin q /\ 0 <= q.
Proof.
  intros H. destruct (Q_dec a 0) as [[A|A]|A].
  - exfalso. exact (Qlt_not_le _ _ A H).
  - rewrite (round_pos a A).
    destruct (Qle_bool limit (nearest a)); [now left|right].
    eexists. split; [reflexivity|]. rewrite Qred_correct.
    now apply nearest_nonneg.
  - right. exists 0. split; [now apply round_zero|apply Qle_refl].
Qed.


Lemma round_even_comp x y : x == y -> round_even x = round_even y.
Proof.
  intros H. apply Z.le_antisymm; apply round_even_mono; rewrite H;
    apply Qle_refl.
Qed.

Lemma round_even_near x :
  x - (1 # 2) <= inject_Z (round_even x)
  /\ inject_Z (round_even x) <= x + (1 # 2).
Proof.
  pose proof (Qfloor_le x) as L. pose proof (Qlt_floor x) as U.
  rewrite inject_Z_plus in U. unfold round_even.
  set (f := Qfloor x) in *. set (F := inject_Z f) in *.
  assert (Lo : F <= x + (1 # 2)).
  { apply Qle_trans with x; [exact L|].
    rewrite <- (Qplus_0_r x) at 1. apply Qplus_le_r. discriminate. }
  assert (Hi : x - (1 # 2) <= F + 1).
  { apply Qle_trans with x.
    - rewrite <- (Qplus_0_r x) at 2. apply Qplus_le_r. discriminate.
    - now apply Qlt_le_weak. }
  assert (Half : x - F == 1 # 2 ->
                 x - (1 # 2) <= F /\ F + 1 <= x + (1 # 2)).
  { intros E. assert (Ex : x == F + (1 # 2)) by (rewrite <- E; ring).
    split; rewrite Ex; [|ring_simplify]; apply Qle_lteq; right; ring. }
  destruct (Qcompare (x - F) (1 # 2)) eqn:C.
  - apply Qeq_alt in C. destruct (Half C) as [H1 H2].
    destruct (Z.even f); [now split|].
    rewrite inject_Z_plus. now split.
  - apply Qlt_alt in C. split; [|exact Lo].
    apply Qlt_le_weak. apply (Qplus_lt_l _ _ (F + - (1 # 2))) in C.
    ring_simplify in C. ring_simplify. exact C.
  - apply Qgt_alt in C. rewrite inject_Z_plus. split; [exact Hi|].
    apply Qlt_le_weak. apply (Qplus_lt_l _ _ (F + (1 # 2))) in C.
    ring_simplify in C. ring_simplify. exact C.
Qed.


Lemma two_split a c : a == a / 2 ^ c * 2 ^ c.
Proof.
  field. intros E. pose proof (two_pos c) as P. rewrite E in P.
  discriminate.
Qed.

(** [nearest a] is a multiple of the quantum within half a quantum of [a],
    with at most 53 bits. *)
Lemma nearest_near (a : Q) :
  a - 2 ^ (quantum a - 1) <= nearest a
  /\ nearest a <= a + 2 ^ (quantum a - 1).
Proof.
  unfold nearest. set (c := quantum a).
  destruct (round_even_near (a / 2 ^ c)) as [L U].
  assert (P : 0 <= 2 ^ c) by apply Qlt_le_weak, two_pos.
  assert (H : 2 ^ (c - 1) == (1 # 2) * 2 ^ c).
  { replace c with ((c - 1) + 1)%Z at 2 by lia. rewrite two_succ. ring. }
  apply (Qmult_le_compat_r _ _ _ L) in P as L'.
  apply (Qmult_le_compat_r _ _ _ U) in P as U'.
  assert (NZ : ~ 2 ^ c == 0).
  { intros E. pose proof (two_pos c) as P'. rewrite E in P'. discriminate. }
  rewrite H. split.
  - eapply Qle_trans; [|exact L']. apply Qle_lteq. right. now field.
  - eapply Qle_trans; [exact U'|]. apply Qle_lteq. right. now field.
Qed.

Lemma nearest_format (a : Q) :
  0 < a ->
  exists m : Z,
    nearest a = inject_Z m * 2 ^ quantum a
    /\ (0 <= m <= 2 ^ 53)%Z /\ (-1074 <= quantum a)%Z.
Proof.
  intros Ha. exists (round_even (a / 2 ^ quantum a)).
  split; [reflexivity|]. split; [|unfold quantum; lia].
  destruct (ilog2_spec a Ha) as [_ U]. split.
  - apply round_even_ge. apply Qle_shift_div_l; [apply two_pos|].
    rewrite Qmult_0_l. now apply Qlt_le_weak.
  - apply round_even_le. rewrite <- (two_Z 53) by lia.
    apply Qle_shift_div_r; [apply two_pos|]. rewrite <- two_add.
    apply Qlt_le_weak. eapply Qlt_le_trans; [exact U|]. apply two_le.
    unfold quantum. lia.
Qed.

Lemma nearest_comp (a b : Q) : 0 < a -> a == b -> nearest a == nearest b.
Proof.
  intros Ha E. assert (Hb : 0 < b) by now rewrite <- E.
  apply Qle_antisym; apply nearest_mono; try assumption; rewrite E;
    apply Qle_refl.
Qed.

Lemma round_comp (a b : Q) : a == b -> round a = round b.
Proof.
  intros E. destruct (Q_dec a 0) as [[A|A]|A].
  - assert (B : b < 0) by now rewrite <- E.
    rewrite (round_neg a A), (round_neg b B).
    assert (N : nearest (- a) == nearest (- b)).
    { apply nearest_comp; [|now rewrite E].
      change 0 with (- 0). now apply Qopp_lt_compat. }
    rewrite N. destruct (Qle_bool limit (nearest (- b))); [reflexivity|].
    f_equal. apply Qred_complete. now rewrite N.
  - assert (B : 0 < b) by now rewrite <- E.
    rewrite (round_pos a A), (round_pos b B).
    pose proof (nearest_comp a b A E) as N.
    rewrite N. destruct (Qle_bool limit (nearest b)); [reflexivity|].
    f_equal. now apply Qred_complete.
  - rewrite (round_zero a A). symmetry. apply round_zero. now rewrite <- E.
Qed.

(** A value with at most 53 bits and an exponent in range is a double:
    rounding leaves it as it is. *)
Lemma nearest_representable (m c : Z) :
  (0 < m < 2 ^ 53)%Z -> (-1074 <= c)%Z ->
  nearest (inject_Z m * 2 ^ c) == inject_Z m * 2 ^ c.
Proof.
  intros Hm Hc. set (a := inject_Z m * 2 ^ c).
  assert (Ha : 0 < a).
  { apply Qmult_lt_0_compat; [|apply two_pos].
    change 0 with (inject_Z 0). rewrite <- Zlt_Qlt. lia. }
  destruct (ilog2_spec a Ha) as [L _].
  assert (U : a < 2 ^ (53 + c)).
  { unfold a. rewrite two_add. apply Qmult_lt_r; [apply two_pos|].
    rewrite (two_Z 53) by lia. rewrite <- Zlt_Qlt. lia. }
  assert (E : (ilog2 a < 53 + c)%Z).
  { destruct (Z.lt_ge_cases (ilog2 a) (53 + c)) as [C|C]; [exact C|].
    exfalso. apply (Qlt_irrefl a). eapply Qlt_le_trans; [exact U|].
    eapply Qle_trans; [|exact L]. now apply two_le. }
  assert (Q : (quantum a <= c)%Z) by (unfold quantum; lia).
  unfold nearest. set (k := quantum a) in *.
  assert (D : a / 2 ^ k == inject_Z (m * 2 ^ (c - k))).
  { rewrite inject_Z_mult, <- (two_Z (c - k)) by lia. unfold a.
    replace c with ((c - k) + k)%Z at 1 by lia. rewrite two_add.
    field. intros Z. pose proof (two_pos k) as P. rewrite Z in P.
    discriminate. }
  rewrite (round_even_comp _ _ D), round_even_Z, <- D.
  symmetry. apply two_split.
Qed.

Lemma round_representable (m c : Z) :
  (0 < m < 2 ^ 53)%Z -> (-1074 <= c)%Z -> inject_Z m * 2 ^ c < limit ->
  round (inject_Z m * 2 ^ c) = Fin (Qred (inject_Z m * 2 ^ c)).
Proof.
  intros Hm Hc U. set (a := inject_Z m * 2 ^ c) in *.
  assert (Ha : 0 < a).
  { apply Qmult_lt_0_compat; [|apply two_pos].
    change 0 with (inject_Z 0). rewrite <- Zlt_Qlt. lia. }
  pose proof (nearest_representable m c Hm Hc) as N. fold a in N.
  rewrite (round_pos a Ha).
  destruct (Qle_bool limit (nearest a)) eqn:B.
  - apply Qle_bool_iff in B. rewrite N in B. exfalso.
    exact (Qlt_not_le _ _ U B).
  - f_equal. now apply Qred_complete.
Qed.

(** The integers up to [2 ^ 53] are doubles. *)
Lemma round_integer (z : Z) :
  (0 <= z <= 2 ^ 53)%Z -> round (inject_Z z) = num z.
Proof.
  intros Hz. destruct (Z.eq_dec z 0%Z) as [->|N0]; [reflexivity|].
  destruct (Z.eq_dec z (2 ^ 53)%Z) as [->|N]; [reflexivity|].
  assert (E : inject_Z z == inject_Z z * 2 ^ 0) by (change (2 ^ 0) with 1; ring).
  rewrite (round_comp _ _ E), round_representable; [| lia | lia |].
  - unfold num. f_equal. apply Qred_integer. now rewrite <- E.
  - rewrite <- E. unfold limit. rewrite (two_Z 1024) by lia.
    rewrite <- Zlt_Qlt. assert (2 ^ 53 < 2 ^ 1024)%Z by reflexivity. lia.
Qed.


Lemma round_opp (q : Q) : round (- q) = neg (round q).
Proof.
  destruct (Q_dec q 0) as [[A|A]|A].
  - assert (B : 0 < - q) by (change 0 with (- 0); now apply Qopp_lt_compat).
    rewrite (round_pos _ B), (round_neg _ A).
    destruct (Qle_bool limit (nearest (- q))); [reflexivity|].
    cbn [neg]. f_equal. apply Qred_complete.
    rewrite Qred_correct. ring.
  - assert (B : - q < 0) by (change 0 with (- 0); now apply Qopp_lt_compat).
    rewrite (round_neg _ B), (round_pos _ A).
    assert (N : nearest (- - q) == nearest q).
    { apply nearest_comp; [|apply Qopp_involutive].
      now rewrite Qopp_involutive. }
    rewrite N. destruct (Qle_bool limit (nearest q)); [reflexivity|].
    cbn [neg]. f_equal. apply Qred_complete. now rewrite Qred_correct, N.
  - assert (B : - q == 0) by (rewrite A; reflexivity).
    now rewrite (round_zero q A), (round_zero _ B).
Qed.

Lemma of_number_neg (x : number) : of_number (neg x) = neg (of_number x).
Proof.
  destruct x as [q| | |]; try reflexivity. cbn [neg of_number].
  rewrite <- round_opp. apply round_comp, Qred_correct.
Qed.

Lemma neg_neg_round (q : Q) : neg (neg (round q)) = round q.
Proof.
  rewrite <- !round_opp. apply round_comp, Qopp_involutive.
Qed.

(** Rounding a double gives it back. *)
Lemma round_nearest (q : Q) :
  0 < q -> nearest q < limit -> round (nearest q) = Fin (Qred (nearest q)).
Proof.
  intros Hq U. destruct (nearest_format q Hq) as (m & E & Hm & Hc).
  rewrite E in *. set (c := quantum q) in *.
  destruct (Z.eq_dec m 0%Z) as [->|N0].
  - rewrite round_zero by ring.
    replace (Qred (inject_Z 0 * 2 ^ c)) with (Qred 0); [reflexivity|].
    apply Qred_complete. ring.
  - destruct (Z.eq_dec m (2 ^ 53)%Z) as [->|N].
    + assert (D : inject_Z (2 ^ 53) * 2 ^ c == inject_Z (2 ^ 52) * 2 ^ (c + 1)).
      { rewrite two_succ. change (inject_Z (2 ^ 53)) with (2 * inject_Z (2 ^ 52)).
        ring. }
      rewrite (round_comp _ _ D), round_representable.
      * f_equal. apply Qred_complete. now rewrite D.
      * split; reflexivity.
      * lia.
      * now rewrite <- D.
    + apply round_representable; [lia|exact Hc|exact U].
Qed.

Lemma round_idempotent (q : Q) : of_number (round q) = round q.
Proof.
  assert (P : forall a, 0 < a -> of_number (round a) = round a).
  { intros a Ha. rewrite (round_pos a Ha).
    destruct (Qle_bool limit (nearest a)) eqn:B; [reflexivity|].
    cbn [of_number]. rewrite (round_comp _ _ (Qred_correct _)).
    apply round_nearest; [exact Ha|]. apply Qnot_le_lt. intros C.
    apply Qle_bool_iff in C. congruence. }
  destruct (Q_dec q 0) as [[A|A]|A].
  - assert (B : 0 < - q) by (change 0 with (- 0); now apply Qopp_lt_compat).
    rewrite <- (neg_neg_round q), <- round_opp, of_number_neg.
    now rewrite P.
  - now apply P.
  - rewrite (round_zero q A). reflexivity.
Qed.

Lemma of_number_idempotent (x : number) :
  of_number (of_number x) = of_number x.
Proof. destruct x; try reflexivity. apply round_idempotent. Qed.

End Rounding.

(** On the samples, the operations of [Double] are those of the machine's
    binary64 arithmetic: subnormal results, overflow, division by 0 and
    [0 / 0] included. *)
Example double_is_binary64 :
  Binary64.agree Double.mul PrimFloat.mul = true
  /\ Binary64.agree Double.div PrimFloat.div = true
  /\ Binary64.agree Double.add PrimFloat.add = true
  /\ forallb
       (fun me : Z * Z =>
          Binary64.same (Double.round (inject_Z (fst me) * 2 ^ snd me)%Q)
            (Binary64.value (Binary64.make (fst me) (snd me))))
       Binary64.samples = true.
Proof. vm_compute. repeat split. Qed.

(** ** The prompts of the README, run through the model *)

Example parse_cube :
  parsePrompt "A 50mm cube" = mkShape cube (box (num 50) (num 50) (num 50)) mm.
Proof. reflexivity. Qed.

Example parse_box :
  parsePrompt "A box 40x60x30mm"
  = mkShape cube (box (num 40) (num 60) (num 30)) mm.
Proof. reflexivity. Qed.

Example parse_cylinder :
  parsePrompt "A cylinder 25mm radius, 80mm tall"
  = mkShape cylinder (radius_height (num 25) (num 50)) mm.
Proof. reflexivity. Qed.

Example parse_ball :
  parsePrompt "A ball 40mm" = mkShape sphere (only_radius (num 20)) mm.
Proof. reflexivity. Qed.

Example parse_cone :
  parsePrompt "A cone 40mm wide, 60mm tall"
  = mkShape cone (radius_height (num 20) (num 40)) mm.
Proof. reflexivity. Qed.

Example parse_donut :
  parsePrompt "A donut ring 35mm radius"
  = mkShape torus (radius_width (num 35) (num 10)) mm.
Proof. reflexivity. Qed.

Example parse_by :
  Regex.search re_dim "10 mm by 20millimeter x 7"
  = Some {[ 1%nat := "10"; 2%nat := "20"; 3%nat := "7" ]}%string.
Proof. vm_compute. reflexivity. Qed.

Example preview_cube (Math_pow : number -> number -> number) :
  post_preview Math_pow "A 50mm cube"
  = mkPreview (mkShape cube (box (num 50) (num 50) (num 50)) mm)
      (num 125) (num 188).
Proof. reflexivity. Qed.

(** ** Counting the triangles of a loop *)

Lemma flat_map_length_const {A B : Type} (f : A -> list B) (k : nat)
    (l : list A) :
  (forall x, length (f x) = k) ->
  length (flat_map f l) = (length l * k)%nat.
Proof.
  intros Hf. induction l as [|a l IH]; simpl; [reflexivity|].
  rewrite length_app, Hf, IH. reflexivity.
Qed.

Lemma flat_map_length_sum {A B : Type} (f : A -> list B) (g : A -> nat)
    (l : list A) :
  (forall x, length (f x) = g x) ->
  length (flat_map f l) = list_sum (map g l).
Proof.
  intros Hf. induction l as [|a l IH]; simpl; [reflexivity|].
  rewrite length_app, Hf, IH. reflexivity.
Qed.

Section MeshFacts.
Variable Math_cos Math_sin : number -> number.

Lemma cube_mesh_length w h d : length (cube_mesh w h d) = 12%nat.
Proof. reflexivity. Qed.

Lemma cylinder_mesh_length r h :
  length (cylinder_mesh Math_cos Math_sin r h) = 96%nat.
Proof.
  unfold cylinder_mesh.
  rewrite (flat_map_length_const _ 4) by reflexivity.
  rewrite length_seq. reflexivity.
Qed.

Lemma cone_mesh_length r h :
  length (cone_mesh Math_cos Math_sin r h) = 48%nat.
Proof.
  unfold cone_mesh.
  rewrite (flat_map_length_const _ 2) by reflexivity.
  rewrite length_seq. reflexivity.
Qed.

Lemma sphere_cell_length r i j :
  length (sphere_cell Math_cos Math_sin r i j) = cell_triangles i.
Proof.
  unfold sphere_cell, cell_triangles. rewrite length_app.
  destruct (0 <? i)%nat, (i <? sphere_rings - 1)%nat; reflexivity.
Qed.

Lemma sphere_ring_length r i :
  length (sphere_ring Math_cos Math_sin r i)
  = (sphere_segments * cell_triangles i)%nat.
Proof.
  unfold sphere_ring.
  rewrite (flat_map_length_const _ (cell_triangles i))
    by (intros; apply sphere_cell_length).
  rewrite length_seq. reflexivity.
Qed.

Lemma sphere_mesh_length r :
  length (sphere_mesh Math_cos Math_sin r) = 352%nat.
Proof.
  unfold sphere_mesh.
  rewrite (flat_map_length_sum _
             (fun i => (sphere_segments * cell_triangles i)%nat))
    by (intros; apply sphere_ring_length).
  reflexivity.
Qed.

Lemma torus_ring_length R r i :
  length (torus_ring Math_cos Math_sin R r i) = 48%nat.
Proof.
  unfold torus_ring.
  rewrite (flat_map_length_const _ 2) by reflexivity.
  rewrite length_seq. reflexivity.
Qed.

Lemma torus_mesh_length R r :
  length (torus_mesh Math_cos Math_sin R r) = 768%nat.
Proof.
  unfold torus_mesh.
  rewrite (flat_map_length_const _ 48) by (intros; apply torus_ring_length).
  rewrite length_seq. reflexivity.
Qed.

Lemma triangles_length (s : ShapeConfig) :
  length (triangles Math_cos Math_sin s) = facet_count (type s).
Proof.
  unfold triangles.
  destruct (type s); simpl;
    unfold cube_facets, cylinder_facets, sphere_facets, cone_facets,
      torus_facets;
    auto using cube_mesh_length, cylinder_mesh_length, sphere_mesh_length,
      cone_mesh_length, torus_mesh_length.
Qed.

Lemma triangles_mesh_with (s : ShapeConfig) :
  triangles Math_cos Math_sin s
  = mesh_with Math_cos Math_sin (type s)
      (fun k => used (type s) k (dimensions s)).
Proof. unfold triangles, mesh_with. destruct (type s); reflexivity. Qed.

End MeshFacts.

Lemma or_default_truthy v d : truthy v = true -> or_default (Some v) d = v.
Proof. intros H. unfold or_default. rewrite H. reflexivity. Qed.

(** ** C5: triangle counts of cube, cylinder and cone *)

(** C5. Whatever the dimensions, the mesh of a cube has exactly 12 triangles,
    that of a cylinder 96 (each of the 24 segments pushes 2 side triangles,
    then 1 top and 1 bottom cap triangle, told apart by their normals) and
    that of a cone 48 (each of the 24 segments pushes 1 side and 1 base
    triangle). *)
Theorem triangle_counts (Math_cos Math_sin : number -> number) :
  (forall dims,
      length (triangles Math_cos Math_sin (mkShape cube dims mm)) = 12%nat)
  /\ (forall dims,
      length (triangles Math_cos Math_sin (mkShape cylinder dims mm)) = 96%nat)
  /\ (forall dims,
      length (triangles Math_cos Math_sin (mkShape cone dims mm)) = 48%nat)
  /\ cylinder_segments = 24%nat
  /\ cone_segments = 24%nat
  /\ (forall r h i,
        let side := (Math_cos (turn i 24), num 0, Math_sin (turn i 24)) in
        map f_normal (cylinder_step Math_cos Math_sin r h i)
        = [side; side; (num 0, num 1, num 0); (num 0, num (-1), num 0)])
  /\ (forall r h i,
        let side := (Math_cos (turn i 24), Fin (1 # 2), Math_sin (turn i 24)) in
        map f_normal (cone_step Math_cos Math_sin r h i)
        = [side; (num 0, num (-1), num 0)])
  /\ (forall dims,
      triangles Math_cos Math_sin (mkShape cylinder dims mm)
      = flat_map (cylinder_step Math_cos Math_sin
                    (or_default (radius dims) (num 25))
                    (or_default (height dims) (num 50) / num 2))
          (seq 0 24))
  /\ (forall dims,
      triangles Math_cos Math_sin (mkShape cone dims mm)
      = flat_map (cone_step Math_cos Math_sin
                    (or_default (radius dims) (num 25))
                    (or_default (height dims) (num 50)))
          (seq 0 24)).
Proof.
  repeat split; intros;
    try (rewrite triangles_length; reflexivity);
    reflexivity.
Qed.

(** ** C8: the tessellation of the sphere and of the torus *)

Lemma cell_triangles_pole : cell_triangles 0 = 1%nat /\ cell_triangles 11 = 1%nat.
Proof. split; reflexivity. Qed.

Lemma cell_triangles_interior i :
  (0 < i < 11)%nat -> cell_triangles i = 2%nat.
Proof.
  intros [Hlo Hhi]. unfold cell_triangles, sphere_rings.
  destruct (Nat.ltb_spec 0 i); [|lia].
  destruct (Nat.ltb_spec i (12 - 1)); [reflexivity|lia].
Qed.

Lemma angles_increase :
  (forall i, (i < 12)%nat ->
     ltb (half_turn i 12) (half_turn (i + 1) 12) = true)
  /\ (forall j, (j < 16)%nat -> ltb (turn j 16) (turn (j + 1) 16) = true)
  /\ (forall j, (j < 24)%nat -> ltb (turn j 24) (turn (j + 1) 24) = true).
Proof.
  split; [|split].
  - intros i Hi.
    do 12 (destruct i as [|i]; [vm_compute; reflexivity|]). lia.
  - intros j Hj.
    do 16 (destruct j as [|j]; [vm_compute; reflexivity|]). lia.
  - intros j Hj.
    do 24 (destruct j as [|j]; [vm_compute; reflexivity|]). lia.
Qed.

(** C8. A sphere is built as a UV-sphere: 12 latitude rings of 16 cells,
    ring [i] between the latitudes [(i / 12) pi] and [((i + 1) / 12) pi],
    which rise from 0 to pi, cell [j] between the longitudes [(j / 16) 2 pi]
    and [((j + 1) / 16) 2 pi], which rise from 0 to 2 pi.  The corners of a
    cell are the surface points
    (r sin phi cos theta, r cos phi, r sin phi sin theta) at its two latitudes
    and two longitudes.  A cell of the first ring pushes exactly 1 triangle
    (first, third and fourth corner), a cell of the last ring exactly 1
    (first, second and third), and a cell of any ring between them both.
    A torus is built as 16 rings around the major circle, at the angles
    [(i / 16) 2 pi], of 24 cells around the tube, at the angles
    [(j / 24) 2 pi], both rising from 0 to 2 pi; every cell pushes 2
    triangles whose corners are the surface points
    ((R + r cos v) cos u, r sin v, (R + r cos v) sin u) at the four corners of
    the cell, with R the radius of the shape and r half its width. *)
Theorem sphere_and_torus_tessellation (Math_cos Math_sin : number -> number) :
  (sphere_rings = 12%nat /\ sphere_segments = 16%nat)
  /\ (forall dims,
        triangles Math_cos Math_sin (mkShape sphere dims mm)
        = flat_map
            (fun i =>
               flat_map
                 (sphere_cell Math_cos Math_sin
                    (or_default (radius dims) (num 25)) i)
                 (seq 0 16))
            (seq 0 12))
  /\ (forall r j,
        length (sphere_cell Math_cos Math_sin r 0 j) = 1%nat
        /\ length (sphere_cell Math_cos Math_sin r 11 j) = 1%nat)
  /\ (forall r i j,
        (0 < i < 11)%nat ->
        length (sphere_cell Math_cos Math_sin r i j) = 2%nat)
  /\ (torus_rings = 16%nat /\ torus_segments = 24%nat)
  /\ (forall dims,
        triangles Math_cos Math_sin (mkShape torus dims mm)
        = flat_map
            (fun i =>
               flat_map
                 (torus_cell Math_cos Math_sin
                    (or_default (radius dims) (num 30))
                    (or_default (width dims) (num 10) / num 2) i)
                 (seq 0 24))
            (seq 0 16))
  /\ (forall dims R w,
        radius dims = Some R -> truthy R = true ->
        width dims = Some w -> truthy w = true ->
        triangles Math_cos Math_sin (mkShape torus dims mm)
        = torus_mesh Math_cos Math_sin R (w / num 2))
  /\ (forall R r i j,
        let p := fun a b =>
          getPoint Math_cos Math_sin R r (turn a 16) (turn b 24) in
        let n := (Math_cos (turn i 16), num 0, Math_sin (turn i 16)) in
        torus_cell Math_cos Math_sin R r i j
        = [ addTriangle (p i j) (p (i + 1)%nat j) (p (i + 1)%nat (j + 1)%nat) n;
            addTriangle (p i j) (p (i + 1)%nat (j + 1)%nat) (p i (j + 1)%nat) n ])
  /\ (forall R r u v,
        getPoint Math_cos Math_sin R r u v
        = ((R + r * Math_cos v) * Math_cos u,
           r * Math_sin v,
           (R + r * Math_cos v) * Math_sin u)%num)
  /\ (forall i n,
        turn i n = ((of_nat i / of_nat n) * Math_PI * num 2)%num
        /\ half_turn i n = ((of_nat i / of_nat n) * Math_PI)%num)
  /\ (half_turn 0 12 = num 0 /\ half_turn 12 12 = Math_PI
      /\ turn 0 16 = num 0 /\ turn 16 16 = (Math_PI * num 2)%num
      /\ turn 0 24 = num 0 /\ turn 24 24 = (Math_PI * num 2)%num)
  /\ (forall i, (i < 12)%nat ->
        ltb (half_turn i 12) (half_turn (i + 1) 12) = true)
  /\ (forall j, (j < 16)%nat -> ltb (turn j 16) (turn (j + 1) 16) = true)
  /\ (forall j, (j < 24)%nat -> ltb (turn j 24) (turn (j + 1) 24) = true)
  /\ (forall r phi theta,
        sphere_point Math_cos Math_sin r phi theta
        = (Math_sin phi * Math_cos theta * r,
           Math_cos phi * r,
           Math_sin phi * Math_sin theta * r)%num)
  /\ (forall r i j,
        let p := fun a b =>
          sphere_point Math_cos Math_sin r (half_turn a 12) (turn b 16) in
        let n := (vx (p i j) / r, vy (p i j) / r, vz (p i j) / r)%num in
        sphere_cell Math_cos Math_sin r i j
        = (if (0 <? i)%nat
           then [addTriangle (p i j) (p i (j + 1)%nat)
                   (p (i + 1)%nat (j + 1)%nat) n]
           else [])
          ++ (if (i <? 11)%nat
              then [addTriangle (p i j) (p (i + 1)%nat (j + 1)%nat)
                      (p (i + 1)%nat j) n]
              else [])).
Proof.
  split; [split; reflexivity|].
  split; [reflexivity|].
  split; [intros r j; rewrite !sphere_cell_length; apply cell_triangles_pole|].
  split.
  { intros r i j Hi. rewrite sphere_cell_length.
    now apply cell_triangles_interior. }
  split; [split; reflexivity|].
  split; [reflexivity|].
  split.
  { intros dims R w HR HRt Hw Hwt. unfold triangles; simpl.
    unfold torus_facets. rewrite HR, Hw.
    rewrite !or_default_truthy by assumption. reflexivity. }
  split; [reflexivity|].
  split; [reflexivity|].
  split; [intros i n; split; reflexivity|].
  split; [repeat split; vm_compute; reflexivity|].
  destruct angles_increase as (A1 & A2 & A3).
  split; [exact A1|]. split; [exact A2|]. split; [exact A3|].
  split; reflexivity.
Qed.

(** ** C3: dimensions are never rejected *)

(** C3, as stated, fails: the cylinder with radius [-5] carries an explicitly
    supplied non-positive dimension, and the builder returns the mesh of 96
    triangles computed with that radius. *)
Lemma negative_radius_is_built :
  explicitly_invalid negative_cylinder = true
  /\ (forall Math_cos Math_sin Number_toString,
        build Math_cos Math_sin Number_toString negative_cylinder
        <> Raises InvalidDimension
        /\ triangles Math_cos Math_sin negative_cylinder
           = cylinder_mesh Math_cos Math_sin (num (-5)) (num 25)
        /\ length (triangles Math_cos Math_sin negative_cylinder) = 96%nat).
Proof.
  split; [reflexivity|]. intros c s t. split; [discriminate|].
  split; [reflexivity|]. rewrite triangles_length. reflexivity.
Qed.

(** C3, amended. The builder never fails, whatever the shape: it returns the
    framed text of the triangles it pushed.  For a supported kind these are
    as many as the kind prescribes, so a valid shape has a mesh with
    triangles; and a supplied dimension that is neither [0] nor [NaN] -- a
    negative or an infinite one too -- is the value the mesh is computed
    with. *)
Theorem generateSTL_never_fails (Math_cos Math_sin : number -> number)
    (Number_toString : number -> string) (s : ShapeConfig) :
  build Math_cos Math_sin Number_toString s
  = Returns (generateSTL Math_cos Math_sin Number_toString s)
  /\ length (triangles Math_cos Math_sin s) = facet_count (type s)
  /\ (supported (type s) = true -> (12 <= facet_count (type s))%nat)
  /\ (valid s = true -> triangles Math_cos Math_sin s <> [])
  /\ triangles Math_cos Math_sin s
     = mesh_with Math_cos Math_sin (type s)
         (fun k => used (type s) k (dimensions s))
  /\ (forall k v,
        In k (required (type s)) ->
        dim k (dimensions s) = Some v ->
        truthy v = true ->
        used (type s) k (dimensions s) = v)
  /\ (forall q, (q < 0)%Q -> truthy (Fin q) = true)
  /\ truthy Infinity = true /\ truthy NegInfinity = true.
Proof.
  split; [reflexivity|].
  split; [apply triangles_length|].
  split; [destruct (type s); simpl; (lia || discriminate)|].
  split.
  { unfold valid. intros Hv. apply andb_true_iff in Hv. destruct Hv as [Hv _].
    intros E. pose proof (triangles_length Math_cos Math_sin s) as L.
    rewrite E in L. destruct (type s); simpl in *; discriminate. }
  split; [apply triangles_mesh_with|].
  split.
  - intros k v _ Hk Hv. unfold used. rewrite Hk.
    now apply or_default_truthy.
  - split; [|split; reflexivity].
    intros q Hq. simpl. destruct (Qeq_bool q 0) eqn:E; [|reflexivity].
    apply Qeq_bool_eq in E. rewrite E in Hq. discriminate.
Qed.

(** ** C7: the defaults *)

Lemma fallback_required t k : is_Some (fallback t k) <-> In k (required t).
Proof.
  destruct t, k; simpl; split; intros H;
    solve [ eexists; reflexivity
          | intuition discriminate
          | destruct H as [x H]; discriminate ].
Qed.

(** C7, as stated, fails: the torus falls back to radius 30 and width 10, not
    to 25 and 50, and a cube whose width is supplied as [0] is built with the
    default width 50. *)
Lemma defaults_differ_from_claim :
  (used torus Radius no_dimensions = num 30
   /\ num 30 <> spec_default Radius)
  /\ (used torus Width no_dimensions = num 10
      /\ num 10 <> spec_default Width)
  /\ (forall Math_cos Math_sin,
        triangles Math_cos Math_sin (mkShape torus no_dimensions mm)
        = torus_mesh Math_cos Math_sin (num 30) (num 5))
  /\ (forall Math_cos Math_sin,
        triangles Math_cos Math_sin
          (mkShape cube (box (num 0) (num 50) (num 50)) mm)
        = triangles Math_cos Math_sin
            (mkShape cube (box (num 50) (num 50) (num 50)) mm)).
Proof.
  repeat split; try reflexivity; discriminate.
Qed.

(** C7, amended. The mesh of a shape is computed from one value per dimension
    its kind reads.  That value is the default when the dimension is absent,
    and also when it is supplied as [0] or [NaN]; otherwise it is the supplied
    value.  The default is 50 for width, height and depth and 25 for the
    radius of cube, cylinder, sphere and cone, and 30 for the radius and 10
    for the width of a torus. *)
Theorem dimension_defaults (Math_cos Math_sin : number -> number)
    (s : ShapeConfig) :
  triangles Math_cos Math_sin s
  = mesh_with Math_cos Math_sin (type s)
      (fun k => used (type s) k (dimensions s))
  /\ (forall k, In k (required (type s)) ->
        exists d,
          fallback (type s) k = Some d
          /\ d = match type s, k with
                 | torus, Radius => num 30
                 | torus, Width => num 10
                 | _, _ => spec_default k
                 end
          /\ (dim k (dimensions s) = None ->
              used (type s) k (dimensions s) = d)
          /\ (forall v, dim k (dimensions s) = Some v ->
                used (type s) k (dimensions s) = if truthy v then v else d)).
Proof.
  split; [apply triangles_mesh_with|].
  intros k Hk. apply fallback_required in Hk. destruct Hk as [d Hd].
  exists d. split; [assumption|]. split.
  - destruct (type s), k; simpl in Hd; inversion Hd; reflexivity.
  - unfold used. rewrite Hd. simpl. split.
    + intros ->. reflexivity.
    + intros v ->. reflexivity.
Qed.

(** ** C6: the print-time estimate *)

Lemma Qle_bool_inject_Z a b : Qle_bool (inject_Z a) (inject_Z b) = (a <=? b)%Z.
Proof.
  destruct (Z.leb_spec a b) as [H|H].
  - apply Qle_bool_iff. now rewrite <- Zle_Qle.
  - destruct (Qle_bool (inject_Z a) (inject_Z b)) eqn:E; [|reflexivity].
    apply Qle_bool_iff in E. rewrite <- Zle_Qle in E. lia.
Qed.

Lemma leb_num a b : leb (num a) (num b) = (a <=? b)%Z.
Proof. apply Qle_bool_inject_Z. Qed.

Lemma Math_round_mono x y :
  leb x y = true -> leb (Math_round x) (Math_round y) = true.
Proof.
  destruct x as [a| | |], y as [b| | |]; try discriminate; try reflexivity.
  intros H. apply Qle_bool_iff in H. cbn [Math_round].
  apply Qle_bool_iff. rewrite <- Zle_Qle. apply Qfloor_resp_le.
  now apply Qplus_le_l.
Qed.

Lemma Math_max_mono k x y :
  leb x y = true -> leb (Math_max (Fin k) x) (Math_max (Fin k) y) = true.
Proof.
  destruct x as [a| | |], y as [b| | |]; try discriminate; try reflexivity;
    cbn [Math_max].
  - intros H. apply Qle_bool_iff in H.
    destruct (Qle_bool k a) eqn:A, (Qle_bool k b) eqn:B; apply Qle_bool_iff.
    + exact H.
    + apply Qle_bool_iff in A. exfalso.
      assert (C : (k <= b)%Q) by (eapply Qle_trans; eassumption).
      apply Qle_bool_iff in C. congruence.
    + now apply Qle_bool_iff.
    + apply Qle_refl.
  - intros _. destruct (Qle_bool k a); reflexivity.
  - intros _. destruct (Qle_bool k b) eqn:B.
    + exact B.
    + apply Qle_bool_iff, Qle_refl.
  - intros _. apply Qle_bool_iff, Qle_refl.
Qed.

Lemma Math_max_num z : Math_max (num 5) (num z) = num (Z.max 5 z).
Proof.
  unfold num. cbn [Math_max]. rewrite Qle_bool_inject_Z.
  destruct (Z.leb_spec 5 z).
  - now rewrite Z.max_r.
  - rewrite Z.max_l by lia. reflexivity.
Qed.

(** The product of a volume that is not negative and 1.5 is the double
    nearest to the exact product: a number that is not negative, or
    [Infinity]. *)
Lemma product_of_volume q :
  (0 <= q)%Q ->
  Double.mul (Fin q) (Fin (3 # 2)) = Double.round (q * (3 # 2))
  /\ (Double.round (q * (3 # 2)) = Infinity
      \/ exists p, Double.round (q * (3 # 2)) = Fin p /\ (0 <= p)%Q).
Proof.
  intros H. split.
  - unfold Double.mul. cbn [mul Double.of_number].
    apply round_comp, Qred_correct.
  - apply round_nonneg. apply Qmult_le_0_compat; [exact H|discriminate].
Qed.

Lemma product_mono v v' :
  leb (num 0) v = true -> leb v v' = true ->
  leb (Double.mul v (Fin (3 # 2))) (Double.mul v' (Fin (3 # 2))) = true.
Proof.
  intros H0 H.
  destruct v as [q| | |], v' as [q'| | |]; try discriminate; try reflexivity.
  - apply Qle_bool_iff in H. unfold Double.mul. cbn [mul Double.of_number].
    apply round_mono. rewrite !Qred_correct.
    apply Qmult_le_compat_r; [exact H|discriminate].
  - apply Qle_bool_iff in H0.
    destruct (product_of_volume q H0) as [-> [-> |(p & -> & _)]]; reflexivity.
Qed.

(** The volume 4.333333333333333 is a double whose exact product with 1.5
    lies below 6.5; the product the handler computes is the double 6.5,
    which [Math.round] takes up to 7. *)
Example estimate_at_a_tie :
  let v := Double.round (4333333333333333 # 1000000000000000) in
  v = Fin (4878899596318037 # 1125899906842624)
  /\ Double.mul v (Fin (3 # 2)) = Fin (13 # 2)
  /\ estimatedMinutes v = num 7
  /\ Qfloor ((4878899596318037 # 1125899906842624) * (3 # 2) + (1 # 2)) = 6.
Proof. vm_compute. repeat split. Qed.



(** ** C10: what the prompt parser can return *)

Lemma extract_sizes_none lower :
  Regex.search re_dim lower = None ->
  Regex.search re_radius lower = None ->
  Regex.search re_size lower = None ->
  extract_sizes lower = mkSizes (num 50) (num 50) (num 50) (num 25).
Proof. intros H1 H2 H3. unfold extract_sizes. now rewrite H1, H2, H3. Qed.

Lemma bool_decide_is_Some_false {A : Type} (o : option A) :
  bool_decide (is_Some o) = false -> o = None.
Proof.
  intros H. apply bool_decide_eq_false in H.
  destruct o; [|reflexivity]. exfalso. apply H. eauto.
Qed.

Lemma parseLower_supported lower : supported (type (parseLower lower)) = true.
Proof.
  unfold parseLower. destruct (extract_sizes lower).
  repeat match goal with
         | |- context [if ?b then _ else _] => destruct b
         end; reflexivity.
Qed.

Ltac split_orb :=
  repeat match goal with
         | H : (_ || _) = false |- _ =>
             apply orb_false_elim in H; destruct H
         end.

Lemma parseLower_default lower :
  recognized lower = false -> parseLower lower = default_cube.
Proof.
  unfold recognized, any_includes, shape_keywords. cbn [existsb].
  intros H. split_orb. unfold parseLower.
  rewrite extract_sizes_none by now apply bool_decide_is_Some_false.
  unfold any_includes. cbn [existsb].
  repeat match goal with
         | E : includes lower ?k = false |- _ => rewrite E; clear E
         end.
  reflexivity.
Qed.

(** C10. For every prompt the parser returns one of the five kinds the mesh
    builder has a branch for, never [text] or [custom], in millimetres; where
    the prompt has no shape keyword and matches none of the three patterns it
    returns the cube of 50 x 50 x 50.  So the mesh built for a parsed prompt
    always has triangles. *)
Theorem parsePrompt_supported (Math_cos Math_sin : number -> number)
    (prompt : string) :
  let s := parsePrompt prompt in
  supported (type s) = true
  /\ type s <> text /\ type s <> custom
  /\ units s = mm
  /\ (recognized (toLowerCase prompt) = false -> s = default_cube)
  /\ triangles Math_cos Math_sin s <> []
  /\ (12 <= length (triangles Math_cos Math_sin s))%nat.
Proof.
  intros s.
  assert (Hs : supported (type s) = true) by apply parseLower_supported.
  assert (Hn : (12 <= length (triangles Math_cos Math_sin s))%nat).
  { rewrite triangles_length. destruct (type s); simpl in *;
      (lia || discriminate). }
  split; [exact Hs|].
  split; [intros E; rewrite E in Hs; discriminate|].
  split; [intros E; rewrite E in Hs; discriminate|].
  split; [destruct (units s); reflexivity|].
  split; [apply parseLower_default|].
  split; [|exact Hn].
  intros E. rewrite E in Hn. simpl in Hn. lia.
Qed.

(** ** The store *)

Lemma get_job_put_job kv i job ttl j :
  get_job (put_job kv i job ttl) j
  = if decide (i = j) then Some job else get_job kv j.
Proof.
  unfold get_job, put_job. simpl. rewrite lookup_insert.
  destruct (decide (i = j)); reflexivity.
Qed.

Lemma get_job_put_queue kv q j : get_job (put_queue kv q) j = get_job kv j.
Proof. reflexivity. Qed.

Lemma get_queue_put_job kv i job ttl :
  get_queue (put_job kv i job ttl) = get_queue kv.
Proof. reflexivity. Qed.

Lemma get_queue_put_queue kv q : get_queue (put_queue kv q) = q.
Proof. reflexivity. Qed.

Lemma job_ttl_put_job kv i job ttl : job_ttl (put_job kv i job ttl) i = Some ttl.
Proof. unfold job_ttl, put_job. simpl. now rewrite lookup_insert_eq. Qed.

Lemma job_ttl_put_queue kv q i : job_ttl (put_queue kv q) i = job_ttl kv i.
Proof. reflexivity. Qed.

Lemma elem_of_remove_id i j q : j ∈ remove_id i q <-> j <> i /\ j ∈ q.
Proof. unfold remove_id. rewrite list_elem_of_filter. reflexivity. Qed.

(** ** C4: the kinds without a branch *)



(** ** C1: confirming a job that is already paid *)

Lemma post_confirm_found kv orderId txId now job :
  get_job kv orderId = Some job ->
  post_confirm kv orderId txId now
  = (put_queue (put_job kv orderId (set_paid job txId now) None)
       (get_queue kv ++ [orderId]),
     mkResponse 200
       (ConfirmBody true paid (length (get_queue kv ++ [orderId])))).
Proof. intros H. unfold post_confirm. rewrite H. reflexivity. Qed.

(** C1, as stated, fails: confirming the paid job of [paid_kv] a second time
    is answered with success, replaces [paymentTxId] and [paidAt], and leaves
    the id twice in the queue. *)
Lemma confirm_on_paid_succeeds :
  status_of paid_kv "ab12cd34" = Some paid
  /\ get_queue paid_kv = ["ab12cd34"%string]
  /\ is_error
       (snd (post_confirm paid_kv "ab12cd34" "tx2" "2026-01-01T00:09:00.000Z"))
     = false
  /\ snd (post_confirm paid_kv "ab12cd34" "tx2" "2026-01-01T00:09:00.000Z")
     = mkResponse 200 (ConfirmBody true paid 2)
  /\ get_job
       (fst (post_confirm paid_kv "ab12cd34" "tx2" "2026-01-01T00:09:00.000Z"))
       "ab12cd34"
     = Some (set_paid paid_job "tx2" "2026-01-01T00:09:00.000Z")
  /\ paymentTxId (set_paid paid_job "tx2" "2026-01-01T00:09:00.000Z")
     <> paymentTxId paid_job
  /\ paidAt (set_paid paid_job "tx2" "2026-01-01T00:09:00.000Z")
     <> paidAt paid_job
  /\ get_queue
       (fst (post_confirm paid_kv "ab12cd34" "tx2" "2026-01-01T00:09:00.000Z"))
     = ["ab12cd34"; "ab12cd34"]%string
  /\ (forall Math_cos Math_sin Number_toString SBTC_PRICE_SATS PAYMENT_ADDRESS,
        let kv :=
          run Math_cos Math_sin Number_toString SBTC_PRICE_SATS PAYMENT_ADDRESS
            empty_kv
            [ CreateOrder "cube 50mm" "ab12cd34" "2026-01-01T00:00:00.000Z";
              ConfirmPayment "ab12cd34" "tx1" "2026-01-01T00:05:00.000Z" ] in
        status_of kv "ab12cd34" = Some paid
        /\ get_queue kv = ["ab12cd34"%string]
        /\ is_error
             (snd (post_confirm kv "ab12cd34" "tx2" "2026-01-01T00:09:00.000Z"))
           = false
        /\ (paymentTxId <$> get_job kv "ab12cd34") = Some (Some "tx1"%string)
        /\ (paymentTxId <$>
              get_job
                (fst (post_confirm kv "ab12cd34" "tx2"
                        "2026-01-01T00:09:00.000Z")) "ab12cd34")
           = Some (Some "tx2"%string)
        /\ get_queue
             (fst (post_confirm kv "ab12cd34" "tx2"
                     "2026-01-01T00:09:00.000Z"))
           = ["ab12cd34"; "ab12cd34"]%string).
Proof.
  assert (Hj : get_job paid_kv "ab12cd34" = Some paid_job).
  { unfold get_job, paid_kv. simpl. now rewrite lookup_singleton_eq. }
  repeat apply conj;
    try rewrite (post_confirm_found _ _ _ _ _ Hj); cbn [fst snd].
  - unfold status_of. now rewrite Hj.
  - reflexivity.
  - reflexivity.
  - reflexivity.
  - rewrite get_job_put_queue, get_job_put_job. now destruct (decide _).
  - discriminate.
  - discriminate.
  - reflexivity.
  - intros c sn t price addr.
    set (kv0 := fst (post_order c sn t price addr empty_kv "cube 50mm"
                       "ab12cd34" "2026-01-01T00:00:00.000Z")).
    assert (H0 : exists job, get_job kv0 "ab12cd34" = Some job).
    { unfold kv0. simpl. rewrite get_job_put_job.
      destruct (decide _); [eauto|congruence]. }
    destruct H0 as (job0 & H0).
    change (run c sn t price addr empty_kv _)
      with (fst (post_confirm kv0 "ab12cd34" "tx1"
                   "2026-01-01T00:05:00.000Z")).
    rewrite (post_confirm_found _ _ _ _ _ H0). cbn [fst snd].
    set (job1 := set_paid job0 "tx1" "2026-01-01T00:05:00.000Z").
    set (kv1 := put_queue _ _).
    assert (H1 : get_job kv1 "ab12cd34" = Some job1).
    { unfold kv1. rewrite get_job_put_queue, get_job_put_job.
      now destruct (decide _). }
    split; [unfold status_of; now rewrite H1|].
    split; [reflexivity|].
    rewrite (post_confirm_found _ _ _ _ _ H1). cbn [fst snd].
    split; [reflexivity|]. split; [now rewrite H1|].
    split; [|reflexivity].
    rewrite get_job_put_queue, get_job_put_job. now destruct (decide _).
Qed.

(** C1, amended. The handler does not look at the status.  Confirming a
    stored job that is already paid is answered with success and the status
    [paid]; the job keeps its id, prompt, shape, mesh text, creation time and
    status, its [paymentTxId] and [paidAt] become those of this call, and its
    id is appended to the queue once more.  No other job changes. *)
Theorem confirm_paid_again kv orderId txId now job :
  get_job kv orderId = Some job ->
  status job = paid ->
  let kv' := fst (post_confirm kv orderId txId now) in
  let resp := snd (post_confirm kv orderId txId now) in
  resp = mkResponse 200 (ConfirmBody true paid (S (length (get_queue kv))))
  /\ is_error resp = false
  /\ (exists job',
        get_job kv' orderId = Some job'
        /\ status job' = status job
        /\ id job' = id job /\ prompt job' = prompt job
        /\ shape job' = shape job /\ stlData job' = stlData job
        /\ createdAt job' = createdAt job /\ printedAt job' = printedAt job
        /\ paymentTxId job' = Some txId
        /\ paidAt job' = Some now)
  /\ get_queue kv' = get_queue kv ++ [orderId]
  /\ (forall other, other <> orderId -> get_job kv' other = get_job kv other).
Proof.
  intros Hj Hs kv' resp. subst kv' resp.
  rewrite (post_confirm_found _ _ _ _ _ Hj). simpl.
  split; [rewrite length_app; simpl; f_equal; f_equal; lia|].
  split; [reflexivity|].
  split.
  - exists (set_paid job txId now).
    rewrite get_job_put_queue, get_job_put_job.
    destruct (decide (orderId = orderId)); [|congruence].
    rewrite Hs. repeat split.
  - split; [reflexivity|].
    intros other Hne. rewrite get_job_put_queue, get_job_put_job.
    destruct (decide (orderId = other)); congruence.
Qed.

Lemma confirm_paid_again_witness :
  get_job paid_kv "ab12cd34" = Some paid_job
  /\ status paid_job = paid
  /\ get_queue (fst (post_confirm paid_kv "ab12cd34" "tx2" "t2"))
     = get_queue paid_kv ++ ["ab12cd34"%string].
Proof.
  assert (Hj : get_job paid_kv "ab12cd34" = Some paid_job).
  { unfold get_job, paid_kv. simpl. now rewrite lookup_singleton_eq. }
  split; [exact Hj|]. split; [reflexivity|].
  exact (proj1 (proj2 (proj2 (proj2
    (confirm_paid_again paid_kv "ab12cd34" "tx2" "t2" paid_job Hj eq_refl))))).
Defined.

(** ** C2: the queue and the statuses *)

Lemma status_of_put_job kv i job ttl j :
  status_of (put_job kv i job ttl) j
  = if decide (i = j) then Some (status job) else status_of kv j.
Proof.
  unfold status_of. rewrite get_job_put_job.
  destruct (decide (i = j)); reflexivity.
Qed.

Lemma status_of_put_queue kv q j : status_of (put_queue kv q) j = status_of kv j.
Proof. reflexivity. Qed.

Lemma status_of_None kv i : get_job kv i = None -> status_of kv i = None.
Proof. unfold status_of. now intros ->. Qed.

Lemma status_of_Some kv i job :
  get_job kv i = Some job -> status_of kv i = Some (status job).
Proof. unfold status_of. now intros ->. Qed.

Lemma in_flight_paid : in_flight paid.
Proof. now left. Qed.

Lemma in_flight_printing : in_flight printing.
Proof. now right. Qed.

Lemma not_in_flight_pending : ~ in_flight pending_payment.
Proof. intros [H|H]; discriminate. Qed.

Lemma not_in_flight_completed : ~ in_flight completed.
Proof. intros [H|H]; discriminate. Qed.

#[local] Hint Resolve in_flight_paid in_flight_printing : core.

Section Lifecycle.
Variable Math_cos Math_sin : number -> number.
Variable Number_toString : number -> string.
Variable SBTC_PRICE_SATS PAYMENT_ADDRESS : string.

Local Abbreviation step' :=
  (step Math_cos Math_sin Number_toString SBTC_PRICE_SATS PAYMENT_ADDRESS).
Local Abbreviation run' :=
  (run Math_cos Math_sin Number_toString SBTC_PRICE_SATS PAYMENT_ADDRESS).
Local Abbreviation each' :=
  (each Math_cos Math_sin Number_toString SBTC_PRICE_SATS PAYMENT_ADDRESS).

(** What a request does to the statuses and to the queue. *)
Lemma step_create kv p i now :
  (forall j, status_of (step' kv (CreateOrder p i now)) j
             = if decide (i = j) then Some pending_payment
               else status_of kv j)
  /\ get_queue (step' kv (CreateOrder p i now)) = get_queue kv.
Proof.
  split; [|reflexivity]. intros j. unfold step. simpl.
  now rewrite status_of_put_job.
Qed.

Lemma step_missing kv i txId now :
  get_job kv i = None ->
  step' kv (ConfirmPayment i txId now) = kv
  /\ step' kv (BeginPrinting i) = kv
  /\ step' kv (Complete i now) = kv.
Proof.
  intros H. unfold step. simpl.
  unfold post_confirm, post_printing, post_complete. rewrite H.
  repeat split.
Qed.

Lemma step_confirm kv i txId now job :
  get_job kv i = Some job ->
  (forall j, status_of (step' kv (ConfirmPayment i txId now)) j
             = if decide (i = j) then Some paid else status_of kv j)
  /\ get_queue (step' kv (ConfirmPayment i txId now)) = get_queue kv ++ [i].
Proof.
  intros H. unfold step. simpl. rewrite (post_confirm_found _ _ _ _ _ H).
  simpl. split; [|reflexivity]. intros j.
  now rewrite status_of_put_queue, status_of_put_job.
Qed.

Lemma step_printing kv i job :
  get_job kv i = Some job ->
  (forall j, status_of (step' kv (BeginPrinting i)) j
             = if decide (i = j) then Some printing else status_of kv j)
  /\ get_queue (step' kv (BeginPrinting i)) = get_queue kv.
Proof.
  intros H. unfold step. simpl. unfold post_printing. rewrite H. simpl.
  split; [|reflexivity]. intros j. now rewrite status_of_put_job.
Qed.

Lemma step_complete kv i now job :
  get_job kv i = Some job ->
  (forall j, status_of (step' kv (Complete i now)) j
             = if decide (i = j) then Some completed else status_of kv j)
  /\ get_queue (step' kv (Complete i now)) = remove_id i (get_queue kv).
Proof.
  intros H. unfold step. simpl. unfold post_complete. rewrite H. simpl.
  split; [|reflexivity]. intros j.
  now rewrite status_of_put_queue, status_of_put_job.
Qed.

(** Every queued id names a job that is paid or printing: kept by every
    request, provided orders are created under fresh ids. *)
Lemma step_queued_in_flight kv r :
  queued_in_flight kv -> fresh kv r -> queued_in_flight (step' kv r).
Proof.
  intros I Hr j. destruct r as [p i now|i txId now|i|i now].
  - destruct (step_create kv p i now) as [Hs ->]. rewrite Hs.
    intros Hj. destruct (I j Hj) as (s & Hst & Hfl).
    destruct (decide (i = j)) as [->|]; [|eauto].
    simpl in Hr. rewrite (status_of_None _ _ Hr) in Hst. discriminate.
  - destruct (get_job kv i) as [job|] eqn:E.
    + destruct (step_confirm kv i txId now job E) as [Hs ->]. rewrite Hs.
      intros Hj. destruct (decide (i = j)) as [->|Hne]; [eauto|].
      apply elem_of_app in Hj. destruct Hj as [Hj|Hj]; [now apply I|].
      apply list_elem_of_singleton in Hj. congruence.
    + destruct (step_missing kv i txId now E) as (-> & _). apply I.
  - destruct (get_job kv i) as [job|] eqn:E.
    + destruct (step_printing kv i job E) as [Hs ->]. rewrite Hs.
      intros Hj. destruct (decide (i = j)); [eauto|now apply I].
    + destruct (step_missing kv i "" "" E) as (_ & -> & _). apply I.
  - destruct (get_job kv i) as [job|] eqn:E.
    + destruct (step_complete kv i now job E) as [Hs ->]. rewrite Hs.
      intros Hj. apply elem_of_remove_id in Hj. destruct Hj as [Hne Hj].
      destruct (decide (i = j)); [congruence|now apply I].
    + destruct (step_missing kv i "" now E) as (_ & _ & ->). apply I.
Qed.

(** The whole invariant, and a queue without repetition: kept by every
    request made in the status the lifecycle table names. *)
Lemma step_queue_invariant kv r :
  queue_invariant kv /\ NoDup (get_queue kv) ->
  allowed kv r ->
  queue_invariant (step' kv r) /\ NoDup (get_queue (step' kv r)).
Proof.
  intros [I ND] Hr. unfold queue_invariant in *.
  destruct r as [p i now|i txId now|i|i now]; simpl in Hr.
  - destruct (step_create kv p i now) as [Hs ->].
    split; [|exact ND]. intros j. rewrite Hs, I.
    destruct (decide (i = j)) as [->|]; [|reflexivity].
    rewrite (status_of_None _ _ Hr).
    split; intros (s & Hst & Hfl); [discriminate|].
    inversion Hst; subst. now apply not_in_flight_pending in Hfl.
  - destruct (get_job kv i) as [job|] eqn:E; [|discriminate].
    destruct (step_confirm kv i txId now job E) as [Hs ->].
    assert (Hni : i ∉ get_queue kv).
    { intros Hi. apply I in Hi. destruct Hi as (s & Hst & Hfl).
      rewrite (status_of_Some _ _ _ E) in Hst. simpl in Hr.
      assert (s = pending_payment) by congruence. subst.
      now apply not_in_flight_pending in Hfl. }
    split.
    + intros j. rewrite Hs, elem_of_app, list_elem_of_singleton, I.
      destruct (decide (i = j)) as [->|Hne].
      * split; eauto.
      * split; [intros [H|H]; [exact H|congruence]|now left].
    + apply NoDup_app. split; [exact ND|]. split.
      * intros x Hx Hx'. apply list_elem_of_singleton in Hx'. congruence.
      * apply NoDup_singleton.
  - destruct (get_job kv i) as [job|] eqn:E; [|discriminate].
    destruct (step_printing kv i job E) as [Hs ->].
    split; [|exact ND]. intros j. rewrite Hs, I.
    destruct (decide (i = j)) as [->|]; [|reflexivity].
    unfold status_of. rewrite E. simpl in *.
    split; intros _; [exists printing|exists paid]; split; auto.
  - destruct (get_job kv i) as [job|] eqn:E; [|discriminate].
    destruct (step_complete kv i now job E) as [Hs ->].
    split; [|now apply NoDup_filter].
    intros j. rewrite Hs, elem_of_remove_id, I.
    destruct (decide (i = j)) as [->|Hne].
    + split; [intros [H _]; congruence|].
      intros (s & Hst & Hfl). inversion Hst; subst.
      now apply not_in_flight_completed in Hfl.
    + split; [now intros [_ H]|]. intros H. split; [congruence|exact H].
Qed.

Lemma run_queued_in_flight rs : forall kv,
  queued_in_flight kv -> each' fresh kv rs -> queued_in_flight (run' kv rs).
Proof.
  induction rs as [|r rs IH]; intros kv I H; simpl in *; [exact I|].
  destruct H as [Hr Hrs]. apply IH; [|exact Hrs].
  now apply step_queued_in_flight.
Qed.

Lemma run_queue_invariant rs : forall kv,
  queue_invariant kv /\ NoDup (get_queue kv) ->
  each' allowed kv rs ->
  queue_invariant (run' kv rs) /\ NoDup (get_queue (run' kv rs)).
Proof.
  induction rs as [|r rs IH]; intros kv I H; simpl in *; [exact I|].
  destruct H as [Hr Hrs]. apply IH; [|exact Hrs].
  now apply step_queue_invariant.
Qed.

Lemma empty_queue_invariant :
  queue_invariant empty_kv /\ NoDup (get_queue empty_kv).
Proof.
  split; [|apply NoDup_nil_2]. intros j. simpl. split.
  - intros H. now apply not_elem_of_nil in H.
  - intros (s & Hs & _). discriminate.
Qed.

Lemma empty_queued_in_flight : queued_in_flight empty_kv.
Proof. intros j H. now apply not_elem_of_nil in H. Qed.

End Lifecycle.

Section LifecycleClaims.
Variable Math_cos Math_sin : number -> number.
Variable Number_toString : number -> string.
Variable SBTC_PRICE_SATS PAYMENT_ADDRESS : string.

Local Abbreviation step' :=
  (step Math_cos Math_sin Number_toString SBTC_PRICE_SATS PAYMENT_ADDRESS).
Local Abbreviation run' :=
  (run Math_cos Math_sin Number_toString SBTC_PRICE_SATS PAYMENT_ADDRESS).

Lemma get_job_created kv p i now :
  exists job,
    get_job (step' kv (CreateOrder p i now)) i = Some job
    /\ status job = pending_payment.
Proof.
  unfold step. simpl. rewrite get_job_put_job.
  destruct (decide (i = i)); [|congruence]. eauto.
Qed.

(** A new order marked as printing without having been paid is printing
    and not queued. *)
Lemma printing_unpaid p i now :
  let kv := run' empty_kv [CreateOrder p i now; BeginPrinting i] in
  status_of kv i = Some printing /\ get_queue kv = [].
Proof.
  simpl. destruct (get_job_created empty_kv p i now) as (job & Hj & _).
  destruct (step_printing Math_cos Math_sin Number_toString SBTC_PRICE_SATS
              PAYMENT_ADDRESS _ i job Hj) as [Hs Hq].
  rewrite Hs, Hq. destruct (decide (i = i)); [|congruence].
  split; reflexivity.
Qed.

(** An order confirmed twice is queued twice. *)
Lemma confirmed_twice p i now tx1 t1 tx2 t2 :
  get_queue (run' empty_kv [CreateOrder p i now; ConfirmPayment i tx1 t1;
                            ConfirmPayment i tx2 t2])
  = [i; i].
Proof.
  simpl. destruct (get_job_created empty_kv p i now) as (job & Hj & _).
  destruct (step_confirm Math_cos Math_sin Number_toString SBTC_PRICE_SATS
              PAYMENT_ADDRESS _ i tx1 t1 job Hj) as [Hs Hq].
  assert (Hj' : exists job', get_job
                  (step' (step' empty_kv (CreateOrder p i now))
                     (ConfirmPayment i tx1 t1)) i = Some job').
  { unfold step at 1. simpl. rewrite (post_confirm_found _ _ _ _ _ Hj).
    simpl. rewrite get_job_put_queue, get_job_put_job.
    destruct (decide (i = i)); [eauto|congruence]. }
  destruct Hj' as [job' Hj'].
  destruct (step_confirm Math_cos Math_sin Number_toString SBTC_PRICE_SATS
              PAYMENT_ADDRESS _ i tx2 t2 job' Hj') as [_ Hq'].
  rewrite Hq', Hq. reflexivity.
Qed.

End LifecycleClaims.

(** C2, as stated, fails on both counts: an order marked as printing before
    it was paid is printing and not queued, and an order confirmed twice is
    queued twice. *)
Lemma queue_invariant_broken :
  (forall Math_cos Math_sin Number_toString SBTC_PRICE_SATS PAYMENT_ADDRESS,
     let kv :=
       run Math_cos Math_sin Number_toString SBTC_PRICE_SATS PAYMENT_ADDRESS
         empty_kv
         [ CreateOrder "cube 50mm" "ab12cd34" "2026-01-01T00:00:00.000Z";
           BeginPrinting "ab12cd34" ] in
     status_of kv "ab12cd34" = Some printing
     /\ get_queue kv = []
     /\ ~ queue_invariant kv)
  /\ (forall Math_cos Math_sin Number_toString SBTC_PRICE_SATS PAYMENT_ADDRESS,
        let kv :=
          run Math_cos Math_sin Number_toString SBTC_PRICE_SATS PAYMENT_ADDRESS
            empty_kv
            [ CreateOrder "cube 50mm" "ab12cd34" "2026-01-01T00:00:00.000Z";
              ConfirmPayment "ab12cd34" "tx1" "2026-01-01T00:05:00.000Z";
              ConfirmPayment "ab12cd34" "tx1" "2026-01-01T00:05:01.000Z" ] in
        get_queue kv = ["ab12cd34"; "ab12cd34"]%string
        /\ ~ NoDup (get_queue kv)).
Proof.
  split.
  - intros c s t price addr kv.
    destruct (printing_unpaid c s t price addr "cube 50mm" "ab12cd34"
                "2026-01-01T00:00:00.000Z") as [Hs Hq].
    fold kv in Hs, Hq. split; [exact Hs|]. split; [exact Hq|].
    intros I. assert (H : "ab12cd34"%string ∈ get_queue kv).
    { apply I. exists printing. split; [exact Hs|now right]. }
    rewrite Hq in H. now apply not_elem_of_nil in H.
  - intros c s t price addr kv. subst kv. rewrite confirmed_twice.
    split; [reflexivity|]. intros H. apply NoDup_cons in H.
    destruct H as [H _]. apply H. now left.
Qed.

(** C2, amended. The handlers are create, confirm, mark printing and
    complete; there is none for failure, and none checks the status.  After
    any sequence of them from the empty store in which orders are created
    under fresh ids, every queued id names a stored job that is paid or
    printing.  If moreover every request finds its job in the status the
    lifecycle table names (confirm on [pending_payment], printing on [paid],
    complete on [printing]), then conversely every paid or printing job is
    queued, and no id occurs twice in the queue. *)
Theorem queue_after_requests (Math_cos Math_sin : number -> number)
    (Number_toString : number -> string)
    (SBTC_PRICE_SATS PAYMENT_ADDRESS : string) (rs : list Request) :
  each Math_cos Math_sin Number_toString SBTC_PRICE_SATS PAYMENT_ADDRESS
    fresh empty_kv rs ->
  let kv :=
    run Math_cos Math_sin Number_toString SBTC_PRICE_SATS PAYMENT_ADDRESS
      empty_kv rs in
  queued_in_flight kv
  /\ (each Math_cos Math_sin Number_toString SBTC_PRICE_SATS PAYMENT_ADDRESS
        allowed empty_kv rs ->
      queue_invariant kv /\ NoDup (get_queue kv)).
Proof.
  intros Hf kv. split.
  - apply run_queued_in_flight; [apply empty_queued_in_flight|exact Hf].
  - intros Ha. apply run_queue_invariant; [apply empty_queue_invariant|exact Ha].
Qed.

Lemma queue_after_requests_witness :
  each (fun x => x) (fun x => x) (fun _ => EmptyString) "100000" "SP2Q"
    fresh empty_kv one_order
  /\ each (fun x => x) (fun x => x) (fun _ => EmptyString) "100000" "SP2Q"
       allowed empty_kv one_order
  /\ queue_invariant
       (run (fun x => x) (fun x => x) (fun _ => EmptyString) "100000" "SP2Q"
          empty_kv one_order).
Proof.
  assert (Hf : each (fun x => x) (fun x => x) (fun _ => EmptyString)
                 "100000" "SP2Q" fresh empty_kv one_order).
  { simpl. repeat split. }
  assert (Ha : each (fun x => x) (fun x => x) (fun _ => EmptyString)
                 "100000" "SP2Q" allowed empty_kv one_order).
  { vm_compute. repeat split. }
  split; [exact Hf|]. split; [exact Ha|].
  exact (proj1 (proj2 (queue_after_requests (fun x => x) (fun x => x)
                         (fun _ => EmptyString) "100000" "SP2Q" one_order Hf)
                  Ha)).
Defined.

(** ** C9: the expiration of job documents *)

(** C9. Only the creation of an order stores the job document with a time to
    live, of 7 days; the handlers of payment confirmation, printing and
    completion store it again without one. *)
Theorem job_ttl_by_handler (Math_cos Math_sin : number -> number)
    (Number_toString : number -> string)
    (SBTC_PRICE_SATS PAYMENT_ADDRESS : string) (kv : KV)
    (prompt orderId txId now : string) :
  job_ttl
    (fst (post_order Math_cos Math_sin Number_toString SBTC_PRICE_SATS
            PAYMENT_ADDRESS kv prompt orderId now)) orderId
  = Some (Some seven_days)
  /\ (is_Some (get_job kv orderId) ->
      job_ttl (fst (post_confirm kv orderId txId now)) orderId = Some None
      /\ job_ttl (fst (post_printing kv orderId)) orderId = Some None
      /\ job_ttl (fst (post_complete kv orderId now)) orderId = Some None)
  /\ job_ttl
       (run Math_cos Math_sin Number_toString SBTC_PRICE_SATS PAYMENT_ADDRESS
          kv [CreateOrder prompt orderId now; ConfirmPayment orderId txId now])
       orderId
     = Some None.
Proof.
  split; [simpl; apply job_ttl_put_job|]. split.
  - intros [job Hj].
    unfold post_confirm, post_printing, post_complete. rewrite Hj. simpl.
    rewrite !job_ttl_put_queue, !job_ttl_put_job. repeat split.
  - simpl.
    destruct (get_job_created Math_cos Math_sin Number_toString
                SBTC_PRICE_SATS PAYMENT_ADDRESS kv prompt orderId now)
      as (job & Hj & _).
    unfold step at 1. simpl. rewrite (post_confirm_found _ _ _ _ _ Hj). simpl.
    now rewrite job_ttl_put_queue, job_ttl_put_job.
Qed.

(** * Further properties of the handlers of [index.ts] *)

(** ** Unknown orders *)

(** X1. For an id under which no job is stored, the confirm, printing and
    complete handlers answer 404 "Order not found" and leave the store as it
    is, and so do the two read handlers. *)
Theorem unknown_order_not_found (kv : KV) (orderId txId now : string) :
  get_job kv orderId = None ->
  post_confirm kv orderId txId now = (kv, not_found)
  /\ post_printing kv orderId = (kv, not_found)
  /\ post_complete kv orderId now = (kv, not_found)
  /\ get_order kv orderId = inl not_found
  /\ get_stl kv orderId = inl not_found
  /\ code not_found = 404%nat
  /\ is_error not_found = true.
Proof.
  intros H.
  unfold post_confirm, post_printing, post_complete, get_order, get_stl.
  rewrite H. repeat split.
Qed.

Lemma unknown_order_not_found_witness :
  get_job empty_kv "ab12cd34" = None
  /\ post_confirm empty_kv "ab12cd34" "tx1" "t1" = (empty_kv, not_found).
Proof.
  split; [reflexivity|].
  exact (proj1 (unknown_order_not_found empty_kv "ab12cd34" "tx1" "t1"
                  eq_refl)).
Defined.

(** ** What the requests keep of a job *)

Section Frames.
Variable Math_cos Math_sin : number -> number.
Variable Number_toString : number -> string.
Variable SBTC_PRICE_SATS PAYMENT_ADDRESS : string.

Local Abbreviation step' :=
  (step Math_cos Math_sin Number_toString SBTC_PRICE_SATS PAYMENT_ADDRESS).
Local Abbreviation run' :=
  (run Math_cos Math_sin Number_toString SBTC_PRICE_SATS PAYMENT_ADDRESS).

(** The job stored under [i] after one request. *)
Lemma get_job_step kv r i :
  get_job (step' kv r) i
  = if decide (request_id r = i) then
      match r with
      | CreateOrder p o now =>
          Some (mkJob o p (parsePrompt p)
                  (generateSTL Math_cos Math_sin Number_toString
                     (parsePrompt p))
                  pending_payment None now None None)
      | ConfirmPayment _ txId now =>
          (fun job => set_paid job txId now) <$> get_job kv i
      | BeginPrinting _ => set_printing <$> get_job kv i
      | Complete _ now => (fun job => set_completed job now) <$> get_job kv i
      end
    else get_job kv i.
Proof.
  unfold step. destruct r as [p o now|o txId now|o|o now]; simpl.
  - rewrite get_job_put_job. reflexivity.
  - unfold post_confirm. destruct (get_job kv o) as [job|] eqn:E; simpl.
    + rewrite get_job_put_queue, get_job_put_job.
      destruct (decide (o = i)) as [<-|]; [now rewrite E|reflexivity].
    + destruct (decide (o = i)) as [<-|]; [now rewrite E|reflexivity].
  - unfold post_printing. destruct (get_job kv o) as [job|] eqn:E; simpl.
    + rewrite get_job_put_job.
      destruct (decide (o = i)) as [<-|]; [now rewrite E|reflexivity].
    + destruct (decide (o = i)) as [<-|]; [now rewrite E|reflexivity].
  - unfold post_complete. destruct (get_job kv o) as [job|] eqn:E; simpl.
    + rewrite get_job_put_queue, get_job_put_job.
      destruct (decide (o = i)) as [<-|]; [now rewrite E|reflexivity].
    + destruct (decide (o = i)) as [<-|]; [now rewrite E|reflexivity].
Qed.

(** The queue after one request. *)
Lemma get_queue_step kv r :
  get_queue (step' kv r)
  = match r with
    | CreateOrder _ _ _ | BeginPrinting _ => get_queue kv
    | ConfirmPayment o _ _ =>
        match get_job kv o with
        | Some _ => get_queue kv ++ [o]
        | None => get_queue kv
        end
    | Complete o _ =>
        match get_job kv o with
        | Some _ => remove_id o (get_queue kv)
        | None => get_queue kv
        end
    end.
Proof.
  unfold step. destruct r as [p o now|o txId now|o|o now]; simpl.
  - reflexivity.
  - unfold post_confirm. destruct (get_job kv o); reflexivity.
  - unfold post_printing. destruct (get_job kv o); reflexivity.
  - unfold post_complete. destruct (get_job kv o); reflexivity.
Qed.

Lemma step_keyed_by_id kv r : keyed_by_id kv -> keyed_by_id (step' kv r).
Proof.
  intros K k job. rewrite get_job_step.
  destruct (decide (request_id r = k)) as [E|]; [|apply K].
  destruct r as [p o now|o txId now|o|o now]; simpl in E; subst.
  - intros H. inversion H. reflexivity.
  - destruct (get_job kv k) as [j|] eqn:Ej; simpl; intros H; inversion H.
    apply (K _ _ Ej).
  - destruct (get_job kv k) as [j|] eqn:Ej; simpl; intros H; inversion H.
    apply (K _ _ Ej).
  - destruct (get_job kv k) as [j|] eqn:Ej; simpl; intros H; inversion H.
    apply (K _ _ Ej).
Qed.

Lemma run_keyed_by_id rs : forall kv,
  keyed_by_id kv -> keyed_by_id (run' kv rs).
Proof.
  induction rs as [|r rs IH]; intros kv K; simpl; [exact K|].
  apply IH. now apply step_keyed_by_id.
Qed.

End Frames.

(** X2. Whatever requests are served, starting from the empty store, every
    job document is stored under the key of its own [id] field. *)
Theorem stored_under_own_id (Math_cos Math_sin : number -> number)
    (Number_toString : number -> string)
    (SBTC_PRICE_SATS PAYMENT_ADDRESS : string) (rs : list Request) :
  keyed_by_id
    (run Math_cos Math_sin Number_toString SBTC_PRICE_SATS PAYMENT_ADDRESS
       empty_kv rs).
Proof.
  apply run_keyed_by_id. intros k job H. discriminate.
Qed.

Section Keeping.
Variable Math_cos Math_sin : number -> number.
Variable Number_toString : number -> string.
Variable SBTC_PRICE_SATS PAYMENT_ADDRESS : string.

Local Abbreviation step' :=
  (step Math_cos Math_sin Number_toString SBTC_PRICE_SATS PAYMENT_ADDRESS).
Local Abbreviation run' :=
  (run Math_cos Math_sin Number_toString SBTC_PRICE_SATS PAYMENT_ADDRESS).
Local Abbreviation get_job_step' :=
  (get_job_step Math_cos Math_sin Number_toString SBTC_PRICE_SATS
     PAYMENT_ADDRESS).
Local Abbreviation get_queue_step' :=
  (get_queue_step Math_cos Math_sin Number_toString SBTC_PRICE_SATS
     PAYMENT_ADDRESS).

Lemma same_order_refl a : same_order a a.
Proof. repeat split. Qed.

Lemma same_order_trans a b c : same_order a b -> same_order b c -> same_order a c.
Proof.
  unfold same_order. intros (?&?&?&?&?) (?&?&?&?&?).
  repeat split; congruence.
Qed.

Lemma step_same_order kv r i job :
  (is_create r = true -> request_id r <> i) ->
  get_job kv i = Some job ->
  exists job', get_job (step' kv r) i = Some job' /\ same_order job job'.
Proof.
  intros Hc Hj. rewrite get_job_step'.
  destruct (decide (request_id r = i)) as [E|];
    [|exists job; split; [exact Hj|apply same_order_refl]].
  destruct r as [p o now|o txId now|o|o now]; simpl in *.
  - exfalso. now apply Hc.
  - rewrite Hj. simpl. eexists. split; [reflexivity|repeat split].
  - rewrite Hj. simpl. eexists. split; [reflexivity|repeat split].
  - rewrite Hj. simpl. eexists. split; [reflexivity|repeat split].
Qed.

Lemma run_same_order rs : forall kv i job,
  Forall (fun r => is_create r = true -> request_id r <> i) rs ->
  get_job kv i = Some job ->
  exists job', get_job (run' kv rs) i = Some job' /\ same_order job job'.
Proof.
  induction rs as [|r rs IH]; intros kv i job HF Hj; simpl.
  - exists job. split; [exact Hj|apply same_order_refl].
  - apply Forall_cons in HF. destruct HF as [Hr HF].
    destruct (step_same_order kv r i job Hr Hj) as (job1 & H1 & S1).
    destruct (IH _ _ _ HF H1) as (job2 & H2 & S2).
    exists job2. split; [exact H2|]. eapply same_order_trans; eassumption.
Qed.

Lemma run_other_ids rs : forall kv i,
  Forall (fun r => request_id r <> i) rs ->
  get_job (run' kv rs) i = get_job kv i
  /\ (i ∈ get_queue (run' kv rs) <-> i ∈ get_queue kv).
Proof.
  induction rs as [|r rs IH]; intros kv i HF; simpl; [split; reflexivity|].
  apply Forall_cons in HF. destruct HF as [Hr HF].
  destruct (IH (step' kv r) i HF) as [IHj IHq]. rewrite IHj, IHq.
  rewrite get_job_step'. destruct (decide (request_id r = i)); [contradiction|].
  split; [reflexivity|]. rewrite get_queue_step'.
  destruct r as [p o now|o txId now|o|o now]; simpl in Hr;
    try reflexivity; destruct (get_job kv o); try reflexivity.
  - rewrite elem_of_app, list_elem_of_singleton. split; [|now left].
    intros [H|H]; [exact H|congruence].
  - rewrite elem_of_remove_id. split; [now intros [_ H]|].
    intros H. split; [congruence|exact H].
Qed.

End Keeping.

(** X3. Once an order is stored, no sequence of requests that does not create
    an order under the same id again removes its document or changes its
    [id], [prompt], [shape], [stlData] or [createdAt]: the mesh text
    [GET /api/order/:id/stl] serves stays the one stored at creation. *)
Theorem order_fields_kept (Math_cos Math_sin : number -> number)
    (Number_toString : number -> string)
    (SBTC_PRICE_SATS PAYMENT_ADDRESS : string)
    (kv : KV) (rs : list Request) (i : string) (job : PrintJob) :
  get_job kv i = Some job ->
  Forall (fun r => is_create r = true -> request_id r <> i) rs ->
  let kv' :=
    run Math_cos Math_sin Number_toString SBTC_PRICE_SATS PAYMENT_ADDRESS
      kv rs in
  (exists job',
      get_job kv' i = Some job'
      /\ id job' = id job /\ prompt job' = prompt job
      /\ shape job' = shape job /\ stlData job' = stlData job
      /\ createdAt job' = createdAt job)
  /\ (exists r, get_stl kv' i = inr r /\ stl_body r = stlData job).
Proof.
  intros Hj HF kv'. subst kv'.
  destruct (run_same_order Math_cos Math_sin Number_toString SBTC_PRICE_SATS
              PAYMENT_ADDRESS rs kv i job HF Hj) as (job' & H' & S).
  destruct S as (S1 & S2 & S3 & S4 & S5). split.
  - exists job'. repeat split; congruence.
  - unfold get_stl. rewrite H'. eexists. split; [reflexivity|].
    simpl. congruence.
Qed.

Lemma order_fields_kept_witness :
  get_job paid_kv "ab12cd34" = Some paid_job
  /\ Forall (fun r => is_create r = true -> request_id r <> "ab12cd34"%string)
       [BeginPrinting "ab12cd34"; Complete "ab12cd34" "2026-01-01T01:00:00.000Z"]
  /\ exists r,
       get_stl
         (run (fun x => x) (fun x => x) (fun _ => EmptyString) "100000" "SP2Q"
            paid_kv
            [ BeginPrinting "ab12cd34";
              Complete "ab12cd34" "2026-01-01T01:00:00.000Z" ])
         "ab12cd34" = inr r
       /\ stl_body r = stlData paid_job.
Proof.
  assert (Hj : get_job paid_kv "ab12cd34" = Some paid_job).
  { unfold get_job, paid_kv. simpl. now rewrite lookup_singleton_eq. }
  assert (HF : Forall (fun r => is_create r = true ->
                                request_id r <> "ab12cd34"%string)
                 [ BeginPrinting "ab12cd34";
                   Complete "ab12cd34" "2026-01-01T01:00:00.000Z" ]).
  { repeat constructor; discriminate. }
  split; [exact Hj|]. split; [exact HF|].
  exact (proj2 (order_fields_kept (fun x => x) (fun x => x)
                  (fun _ => EmptyString) "100000" "SP2Q" paid_kv _
                  "ab12cd34" paid_job Hj HF)).
Defined.

(** X4. Requests about other ids leave an order alone: its document is the
    same afterwards, and it is in the queue afterwards exactly if it was
    before. *)
Theorem other_orders_untouched (Math_cos Math_sin : number -> number)
    (Number_toString : number -> string)
    (SBTC_PRICE_SATS PAYMENT_ADDRESS : string)
    (kv : KV) (rs : list Request) (i : string) :
  Forall (fun r => request_id r <> i) rs ->
  let kv' :=
    run Math_cos Math_sin Number_toString SBTC_PRICE_SATS PAYMENT_ADDRESS
      kv rs in
  get_job kv' i = get_job kv i
  /\ get_order kv' i = get_order kv i
  /\ get_stl kv' i = get_stl kv i
  /\ (i ∈ get_queue kv' <-> i ∈ get_queue kv).
Proof.
  intros HF kv'. subst kv'.
  destruct (run_other_ids Math_cos Math_sin Number_toString SBTC_PRICE_SATS
              PAYMENT_ADDRESS rs kv i HF) as [Hj Hq].
  unfold get_order, get_stl. rewrite Hj. repeat split; apply Hq.
Qed.

Lemma other_orders_untouched_witness :
  Forall (fun r => request_id r <> "ab12cd34"%string)
    [ CreateOrder "a ball 40mm" "ffff0000" "2026-01-02T00:00:00.000Z";
      ConfirmPayment "ffff0000" "tx9" "2026-01-02T00:01:00.000Z" ]
  /\ get_job
       (run (fun x => x) (fun x => x) (fun _ => EmptyString) "100000" "SP2Q"
          paid_kv
          [ CreateOrder "a ball 40mm" "ffff0000" "2026-01-02T00:00:00.000Z";
            ConfirmPayment "ffff0000" "tx9" "2026-01-02T00:01:00.000Z" ])
       "ab12cd34"
     = get_job paid_kv "ab12cd34".
Proof.
  assert (HF : Forall (fun r => request_id r <> "ab12cd34"%string)
                 [ CreateOrder "a ball 40mm" "ffff0000"
                     "2026-01-02T00:00:00.000Z";
                   ConfirmPayment "ffff0000" "tx9"
                     "2026-01-02T00:01:00.000Z" ]).
  { repeat constructor; discriminate. }
  split; [exact HF|].
  exact (proj1 (other_orders_untouched (fun x => x) (fun x => x)
                  (fun _ => EmptyString) "100000" "SP2Q" paid_kv _
                  "ab12cd34" HF)).
Defined.

(** ** Completion and the queue *)

Lemma remove_id_idem i q : remove_id i (remove_id i q) = remove_id i q.
Proof.
  unfold remove_id. induction q as [|x q IH]; [reflexivity|].
  rewrite (filter_cons _ x q). destruct (decide (x <> i)) as [H|H].
  - rewrite filter_cons. destruct (decide (x <> i)); [|contradiction].
    now rewrite IH.
  - exact IH.
Qed.

Lemma remove_id_absent i q : i ∉ q -> remove_id i q = q.
Proof.
  unfold remove_id. induction q as [|x q IH]; intros H; [reflexivity|].
  rewrite filter_cons. apply not_elem_of_cons in H. destruct H as [Hx Hq].
  destruct (decide (x <> i)) as [|n]; [now rewrite IH|].
  exfalso. apply n. congruence.
Qed.

Lemma remove_id_app i q1 q2 :
  remove_id i (q1 ++ q2) = remove_id i q1 ++ remove_id i q2.
Proof. unfold remove_id. apply filter_app. Qed.

Lemma remove_id_self i : remove_id i [i] = [].
Proof.
  unfold remove_id. rewrite filter_cons.
  destruct (decide (i <> i)); [contradiction|reflexivity].
Qed.

Lemma post_complete_found kv i now job :
  get_job kv i = Some job ->
  post_complete kv i now
  = (put_queue (put_job kv i (set_completed job now) None)
       (remove_id i (get_queue kv)),
     mkResponse 200 (SuccessBody true)).
Proof. intros H. unfold post_complete. rewrite H. reflexivity. Qed.

Lemma post_printing_found kv i job :
  get_job kv i = Some job ->
  post_printing kv i
  = (put_job kv i (set_printing job) None, mkResponse 200 (SuccessBody true)).
Proof. intros H. unfold post_printing. rewrite H. reflexivity. Qed.

(** X5. Completing a stored order sets its status to [completed] and its
    [printedAt], and removes every occurrence of its id from the queue while
    the other ids stay, in their order; completing it once more changes the
    queue no further. *)
Theorem complete_clears_queue (kv : KV) (i now now' : string) (job : PrintJob) :
  get_job kv i = Some job ->
  let kv' := fst (post_complete kv i now) in
  get_job kv' i = Some (set_completed job now)
  /\ status (set_completed job now) = completed
  /\ printedAt (set_completed job now) = Some now
  /\ (i ∉ get_queue kv')
  /\ get_queue kv' = filter (fun j => j <> i) (get_queue kv)
  /\ (forall j, j <> i -> (j ∈ get_queue kv' <-> j ∈ get_queue kv))
  /\ sublist (get_queue kv') (get_queue kv)
  /\ get_queue (fst (post_complete kv' i now')) = get_queue kv'.
Proof.
  intros Hj kv'. subst kv'.
  rewrite (post_complete_found _ _ now _ Hj). cbn [fst].
  rewrite !get_queue_put_queue.
  assert (Hj' : get_job (put_queue (put_job kv i (set_completed job now) None)
                           (remove_id i (get_queue kv))) i
                = Some (set_completed job now)).
  { rewrite get_job_put_queue, get_job_put_job. now destruct (decide _). }
  split; [exact Hj'|]. split; [reflexivity|]. split; [reflexivity|].
  split.
  { intros H. apply elem_of_remove_id in H. destruct H as [H _]. congruence. }
  split; [reflexivity|]. split.
  { intros j Hne. rewrite elem_of_remove_id. split; [now intros [_ H]|].
    intros H. split; assumption. }
  split; [apply sublist_filter|].
  rewrite (post_complete_found _ _ now' _ Hj'). cbn [fst].
  rewrite !get_queue_put_queue. apply remove_id_idem.
Qed.

Lemma complete_clears_queue_witness :
  get_job paid_kv "ab12cd34" = Some paid_job
  /\ get_queue (fst (post_complete paid_kv "ab12cd34" "t3")) = [].
Proof.
  assert (Hj : get_job paid_kv "ab12cd34" = Some paid_job).
  { unfold get_job, paid_kv. simpl. now rewrite lookup_singleton_eq. }
  split; [exact Hj|].
  exact (proj1 (proj2 (proj2 (proj2 (proj2
    (complete_clears_queue paid_kv "ab12cd34" "t3" "t4" paid_job Hj)))))).
Defined.

(** ** One order from creation to completion *)



(** ** What [GET /api/queue] lists *)

Lemma keyed_by_id_put_job kv i job ttl :
  keyed_by_id kv -> id job = i -> keyed_by_id (put_job kv i job ttl).
Proof.
  intros K Hi k j. rewrite get_job_put_job.
  destruct (decide (i = k)) as [<-|]; [|apply K].
  intros H. inversion H. now subst.
Qed.

Lemma listed_ids kv (l : list string) :
  keyed_by_id kv ->
  map qi_id
    (map queue_item
       (omap (fun i =>
                match get_job kv i with
                | Some job =>
                    if decide (status job = paid) then Some job else None
                | None => None
                end) l))
  = filter (fun i => status_of kv i = Some paid) l.
Proof.
  intros K. induction l as [|x l IH]; [reflexivity|].
  rewrite filter_cons. cbn [omap list_omap]. unfold status_of.
  destruct (get_job kv x) as [job|] eqn:E; simpl.
  - destruct (decide (status job = paid)) as [Hs|Hs].
    + destruct (decide (Some (status job) = Some paid)); [|congruence].
      simpl. rewrite (K _ _ E). f_equal. exact IH.
    + destruct (decide (Some (status job) = Some paid)); [congruence|].
      exact IH.
  - destruct (decide (None = Some paid)); [discriminate|]. exact IH.
Qed.

Lemma listed_paid kv (l : list string) :
  Forall (fun item => qi_status item = paid)
    (map queue_item
       (omap (fun i =>
                match get_job kv i with
                | Some job =>
                    if decide (status job = paid) then Some job else None
                | None => None
                end) l)).
Proof.
  induction l as [|x l IH]; [constructor|]. cbn [omap list_omap].
  destruct (get_job kv x) as [job|]; [|exact IH].
  destruct (decide (status job = paid)); [|exact IH].
  simpl. constructor; assumption.
Qed.

Lemma listing_ids kv :
  keyed_by_id kv ->
  map qi_id (get_api_queue kv)
  = filter (fun i => status_of kv i = Some paid) (get_queue kv).
Proof. intros K. unfold get_api_queue, api_queue. now apply listed_ids. Qed.

(** X7. [GET /api/queue] lists paid jobs only.  In a store that keeps every
    job under its own id, the ids it lists are the queued ids whose job is
    stored with status [paid], in the order of the queue (an id queued twice
    is listed twice). *)
Theorem queue_listing (kv : KV) :
  keyed_by_id kv ->
  map qi_id (get_api_queue kv)
  = filter (fun i => status_of kv i = Some paid) (get_queue kv)
  /\ Forall (fun item => qi_status item = paid) (get_api_queue kv)
  /\ (length (get_api_queue kv) <= length (get_queue kv))%nat.
Proof.
  intros K. split; [now apply listing_ids|].
  split; [unfold get_api_queue, api_queue; apply listed_paid|].
  rewrite <- (length_map qi_id), listing_ids by exact K.
  apply length_filter.
Qed.

Lemma keyed_by_id_paid_kv : keyed_by_id paid_kv.
Proof.
  intros k job. unfold get_job, paid_kv. simpl. intros H.
  destruct (decide (k = "ab12cd34"%string)) as [->|Hne].
  - rewrite lookup_singleton_eq in H. inversion H. reflexivity.
  - rewrite lookup_singleton_ne in H by congruence. discriminate.
Qed.

Lemma queue_listing_witness :
  keyed_by_id paid_kv
  /\ map qi_id (get_api_queue paid_kv)
     = filter (fun i => status_of paid_kv i = Some paid) (get_queue paid_kv).
Proof.
  split; [exact keyed_by_id_paid_kv|].
  exact (proj1 (queue_listing paid_kv keyed_by_id_paid_kv)).
Defined.

Lemma listing_after_printing kv i job :
  keyed_by_id kv ->
  get_job kv i = Some job ->
  map qi_id (get_api_queue (put_job kv i (set_printing job) None))
  = filter (fun j => j <> i) (map qi_id (get_api_queue kv)).
Proof.
  intros K Hj.
  assert (K' : keyed_by_id (put_job kv i (set_printing job) None)).
  { apply keyed_by_id_put_job; [exact K|]. simpl. now apply K. }
  rewrite (listing_ids _ K'), (listing_ids _ K).
  rewrite get_queue_put_job, list_filter_filter.
  apply list_filter_iff. intros j. rewrite status_of_put_job.
  destruct (decide (i = j)) as [<-|Hne]; simpl.
  - split; [discriminate|]. intros [H _]. congruence.
  - split; [intros H; split; [congruence|exact H]|now intros [_ H]].
Qed.

(** X8. Marking a stored order as printing takes it out of the listing of
    [GET /api/queue] and leaves the rest of the listing, and the stored
    queue, as they were. *)
Theorem printing_leaves_listing (kv : KV) (i : string) (job : PrintJob) :
  keyed_by_id kv ->
  get_job kv i = Some job ->
  let kv' := fst (post_printing kv i) in
  map qi_id (get_api_queue kv')
  = filter (fun j => j <> i) (map qi_id (get_api_queue kv))
  /\ get_queue kv' = get_queue kv
  /\ status_of kv' i = Some printing.
Proof.
  intros K Hj kv'. subst kv'. rewrite (post_printing_found _ _ _ Hj).
  cbn [fst]. split; [|split].
  - now apply listing_after_printing.
  - reflexivity.
  - rewrite status_of_put_job. now destruct (decide (i = i)).
Qed.

Lemma printing_leaves_listing_witness :
  keyed_by_id paid_kv
  /\ get_job paid_kv "ab12cd34" = Some paid_job
  /\ status_of (fst (post_printing paid_kv "ab12cd34")) "ab12cd34"
     = Some printing.
Proof.
  assert (Hj : get_job paid_kv "ab12cd34" = Some paid_job).
  { unfold get_job, paid_kv. simpl. now rewrite lookup_singleton_eq. }
  split; [exact keyed_by_id_paid_kv|]. split; [exact Hj|].
  exact (proj2 (proj2 (printing_leaves_listing paid_kv "ab12cd34" paid_job
                         keyed_by_id_paid_kv Hj))).
Defined.

(** * Properties of the print server *)

Lemma listing_head kv job rest :
  keyed_by_id kv ->
  get_api_queue kv = job :: rest ->
  (exists j, get_job kv (qi_id job) = Some j /\ status j = paid)
  /\ qi_id job ∈ get_queue kv.
Proof.
  intros K H. pose proof (listing_ids kv K) as L.
  rewrite H in L. simpl in L.
  assert (M : qi_id job ∈ filter (fun i => status_of kv i = Some paid)
                           (get_queue kv)).
  { rewrite <- L. apply list_elem_of_here. }
  apply list_elem_of_filter in M. destruct M as [Hs Hq]. split; [|exact Hq].
  unfold status_of in Hs. destruct (get_job kv (qi_id job)) as [j|];
    [|discriminate].
  exists j. split; [reflexivity|]. simpl in Hs. congruence.
Qed.

Section ServerFacts.
Variable toFixed : number -> nat -> string.
Variable Number_toString : number -> string.

Local Abbreviation pollQueue' := (pollQueue toFixed Number_toString).
Local Abbreviation processJob' := (processJob toFixed Number_toString).
Local Abbreviation stlToGcode' := (stlToGcode toFixed Number_toString).

(** The store after [processJob]: as before, or with the job marked. *)
Lemma processJob_store net kv job now :
  let r := processJob' net kv job now in
  (fst r = kv /\ snd r = false)
  \/ (stl_call net = Served
      /\ upload net (gcode_filename (qi_id job))
           (stlToGcode' (stl_text kv (qi_id job)) (qi_shape job) now)
         = Replied (Some (gcode_filename (qi_id job)))
      /\ mark_call net <> NotSent
      /\ fst r = fst (post_printing kv (qi_id job))
      /\ snd r = match mark_call net with
                 | Served => startPrint net (qi_id job)
                 | _ => false
                 end).
Proof.
  unfold processJob. destruct (stl_call net); simpl; [|now left|now left].
  unfold uploadGcode.
  destruct (upload net _ _) as [[path|]|m] eqn:U; simpl;
    [|now left|now left].
  destruct (String.eqb_spec path (gcode_filename (qi_id job))) as [->|];
    [|now left].
  destruct (mark_call net) eqn:M; simpl.
  - right. repeat split. discriminate.
  - now left.
  - right. repeat split. discriminate.
Qed.

Lemma pollQueue_store net kv now :
  fst (pollQueue' net kv now) = kv
  \/ (exists job rest,
        get_api_queue kv = job :: rest
        /\ fst (pollQueue' net kv now) = fst (post_printing kv (qi_id job))).
Proof.
  unfold pollQueue. destruct (queue_call net); [|now left|now left].
  destruct (get_api_queue kv) as [|job rest] eqn:L; [now left|].
  destruct (ps_error _) as [m|]; [destruct (truthy_string m); now left|].
  destruct (ps_printing _); [now left|].
  destruct (negb _); [now left|]. cbn [fst].
  destruct (processJob_store net kv job now) as [[H _]|(_ & _ & _ & H & _)].
  - now left.
  - right. eauto.
Qed.

(** X9. A tick of [pollQueue] changes the store of the cloud in one way only:
    the first job listed by [GET /api/queue] is marked as printing.  It does
    so only when the queue was fetched, the printer answered with state
    "ready" and a print state other than "printing", the mesh was fetched,
    the printer acknowledged the upload under the job's file name, and the
    request to mark the job was sent. *)
Theorem pollQueue_effect (net : Net) (kv : KV) (now : string) :
  fst (pollQueue' net kv now) = kv
  \/ (exists job rest stats,
        queue_call net = Served
        /\ get_api_queue kv = job :: rest
        /\ printer_info net = Replied (Some "ready"%string)
        /\ print_stats net = Replied stats
        /\ printState stats <> "printing"%string
        /\ stl_call net = Served
        /\ upload net (gcode_filename (qi_id job))
             (stlToGcode' (stl_text kv (qi_id job)) (qi_shape job) now)
           = Replied (Some (gcode_filename (qi_id job)))
        /\ mark_call net <> NotSent
        /\ fst (pollQueue' net kv now) = fst (post_printing kv (qi_id job))
        /\ exists ok, snd (pollQueue' net kv now) = Processed (qi_id job) ok).
Proof.
  unfold pollQueue. destruct (queue_call net) eqn:Q; [|now left|now left].
  destruct (get_api_queue kv) as [|job rest] eqn:L; [now left|].
  unfold getPrinterStatus.
  destruct (printer_info net) as [state|m] eqn:I; simpl;
    [|destruct (truthy_string m); now left].
  destruct (print_stats net) as [stats|m] eqn:S; simpl;
    [|destruct (truthy_string m); now left].
  destruct (String.eqb_spec (printState stats) "printing") as [|Hp];
    [now left|].
  destruct (bool_decide_reflect (state = Some "ready"%string)) as [->|];
    simpl; [|now left].
  destruct (processJob_store net kv job now) as [[H _]|(A & B & C & D & E)].
  - now left.
  - right. exists job, rest, stats. repeat split; try assumption. eauto.
Qed.

(** One tick keeps the queue and the documents; a status changes only from
    [paid] to [printing]. *)
Lemma pollQueue_keeps net kv now :
  keyed_by_id kv ->
  let kv' := fst (pollQueue' net kv now) in
  keyed_by_id kv'
  /\ get_queue kv' = get_queue kv
  /\ (forall i, status_of kv' i = status_of kv i
                \/ (status_of kv i = Some paid
                    /\ status_of kv' i = Some printing)).
Proof.
  intros K kv'. subst kv'.
  destruct (pollQueue_store net kv now) as [->|(job & rest & L & ->)].
  - split; [exact K|]. split; [reflexivity|]. now left.
  - destruct (listing_head kv job rest K L) as [(j & Hj & Hs) _].
    rewrite (post_printing_found _ _ _ Hj). cbn [fst].
    split; [apply keyed_by_id_put_job; [exact K|simpl; now apply K]|].
    split; [reflexivity|]. intros i. rewrite status_of_put_job.
    destruct (decide (qi_id job = i)) as [<-|]; [|now left].
    right. split; [|reflexivity]. rewrite (status_of_Some _ _ _ Hj).
    now rewrite Hs.
Qed.

Lemma poll_all_keeps ticks : forall kv,
  keyed_by_id kv ->
  let kv' := poll_all toFixed Number_toString kv ticks in
  keyed_by_id kv'
  /\ get_queue kv' = get_queue kv
  /\ (forall i, status_of kv' i = status_of kv i
                \/ (status_of kv i = Some paid
                    /\ status_of kv' i = Some printing)).
Proof.
  induction ticks as [|t ticks IH]; intros kv K; simpl.
  - split; [exact K|]. split; [reflexivity|]. now left.
  - destruct (pollQueue_keeps (fst t) kv (snd t) K) as (K1 & Q1 & S1).
    destruct (IH _ K1) as (K2 & Q2 & S2).
    split; [exact K2|]. split; [now rewrite Q2|].
    intros i. destruct (S2 i) as [E2|[E2 P2]]; destruct (S1 i) as [E1|[E1 P1]].
    + left. congruence.
    + right. split; [exact E1|congruence].
    + right. split; congruence.
    + rewrite P1 in E2. discriminate.
Qed.

End ServerFacts.

(** X10. When a tick takes a job, in a store that keeps every job under its
    own id, the job was paid and queued.  Either the store is left as it was
    and the attempt has failed (the job is listed again at the next tick), or
    the job is now printing: it stays in the stored queue but is no longer
    listed, whether or not the print could be started.  The attempt succeeds
    only if the printer answered "ok" to the start. *)
Theorem taken_job (toFixed : number -> nat -> string)
    (Number_toString : number -> string)
    (net : Net) (kv kv' : KV) (now i : string) (ok : bool) :
  keyed_by_id kv ->
  pollQueue toFixed Number_toString net kv now = (kv', Processed i ok) ->
  status_of kv i = Some paid
  /\ i ∈ get_queue kv
  /\ (exists rest, map qi_id (get_api_queue kv) = i :: rest)
  /\ ((kv' = kv /\ ok = false)
      \/ (status_of kv' i = Some printing
          /\ i ∈ get_queue kv'
          /\ (i ∉ map qi_id (get_api_queue kv'))
          /\ (ok = true ->
              mark_call net = Served
              /\ start net (gcode_filename i) = Replied (Some "ok"%string)))).
Proof.
  intros K H.
  assert (L : exists job rest,
             get_api_queue kv = job :: rest /\ qi_id job = i
             /\ processJob toFixed Number_toString net kv job now = (kv', ok)).
  { unfold pollQueue in H. destruct (queue_call net); try discriminate.
    destruct (get_api_queue kv) as [|job rest]; [discriminate|].
    destruct (ps_error _) as [m|]; [destruct (truthy_string m); discriminate|].
    destruct (ps_printing _); [discriminate|].
    destruct (negb _); [discriminate|].
    inversion H; subst. exists job, rest. repeat split.
    now destruct (processJob _ _ _ _ _ _). }
  destruct L as (job & rest & L & <- & P).
  destruct (listing_head kv job rest K L) as [(j & Hj & Hs) Hq].
  split; [rewrite (status_of_Some _ _ _ Hj); now rewrite Hs|].
  split; [exact Hq|].
  split; [exists (map qi_id rest); now rewrite L|].
  destruct (processJob_store toFixed Number_toString net kv job now)
    as [[A B]|(_ & _ & M & A & B)]; rewrite P in A, B; simpl in A, B.
  - left. split; assumption.
  - right. subst kv'. rewrite (post_printing_found _ _ _ Hj). cbn [fst].
    split; [rewrite status_of_put_job; now destruct (decide _)|].
    split; [exact Hq|]. split.
    + rewrite (listing_after_printing _ _ _ K Hj). intros X.
      apply list_elem_of_filter in X. now destruct X.
    + intros ->. destruct (mark_call net); try discriminate.
      split; [reflexivity|]. unfold startPrint in B.
      destruct (start net _) as [[r|]|]; try discriminate.
      symmetry in B. apply String.eqb_eq in B. now subst.
Qed.

Lemma taken_job_witness :
  keyed_by_id paid_kv
  /\ pollQueue (fun _ _ => EmptyString) (fun _ => EmptyString) refusing_net
       paid_kv "2026-01-01T00:10:00.000Z"
     = (fst (post_printing paid_kv "ab12cd34"), Processed "ab12cd34" false)
  /\ status_of paid_kv "ab12cd34" = Some paid.
Proof.
  assert (H : pollQueue (fun _ _ => EmptyString) (fun _ => EmptyString)
                refusing_net paid_kv "2026-01-01T00:10:00.000Z"
              = (fst (post_printing paid_kv "ab12cd34"),
                 Processed "ab12cd34" false)).
  { vm_compute. reflexivity. }
  split; [exact keyed_by_id_paid_kv|]. split; [exact H|].
  exact (proj1 (taken_job _ _ _ _ _ _ _ _ keyed_by_id_paid_kv H)).
Defined.

(** X11. However many ticks the print server runs, in a store that keeps
    every job under its own id: the stored queue is never changed, and the
    status of a job is either what it was or has gone from [paid] to
    [printing].  The server never completes a job and never takes one back
    that is printing. *)
Theorem print_server_only_marks (toFixed : number -> nat -> string)
    (Number_toString : number -> string)
    (kv : KV) (ticks : list (Net * string)) :
  keyed_by_id kv ->
  let kv' := poll_all toFixed Number_toString kv ticks in
  get_queue kv' = get_queue kv
  /\ (forall i, status_of kv' i = status_of kv i
                \/ (status_of kv i = Some paid
                    /\ status_of kv' i = Some printing))
  /\ (forall i, status_of kv i = Some printing ->
                status_of kv' i = Some printing)
  /\ (forall i, status_of kv' i = Some completed ->
                status_of kv i = Some completed).
Proof.
  intros K kv'. subst kv'.
  destruct (poll_all_keeps toFixed Number_toString ticks kv K) as (_ & Q & S).
  split; [exact Q|]. split; [exact S|]. split.
  - intros i Hi. destruct (S i) as [E|[E _]]; congruence.
  - intros i Hi. destruct (S i) as [E|[_ E]]; congruence.
Qed.

Lemma print_server_only_marks_witness :
  keyed_by_id paid_kv
  /\ get_queue
       (poll_all (fun _ _ => EmptyString) (fun _ => EmptyString) paid_kv
          [(ready_net, "t1"%string); (refusing_net, "t2"%string)])
     = get_queue paid_kv.
Proof.
  split; [exact keyed_by_id_paid_kv|].
  exact (proj1 (print_server_only_marks (fun _ _ => EmptyString)
                  (fun _ => EmptyString) paid_kv
                  [(ready_net, "t1"%string); (refusing_net, "t2"%string)]
                  keyed_by_id_paid_kv)).
Defined.

(** * Properties of [stlToGcode] *)

Lemma num_add a b : add (num a) (num b) = num (a + b).
Proof.
  unfold num. simpl. f_equal. apply Qred_integer.
  now rewrite inject_Z_plus.
Qed.

Lemma num_mul a b : mul (num a) (num b) = num (a * b).
Proof.
  unfold num. simpl. f_equal. apply Qred_integer.
  now rewrite inject_Z_mult.
Qed.

Lemma lt_ceiling z q : (inject_Z z < q)%Q <-> z < Qceiling q.
Proof.
  split; intros H.
  - rewrite Zlt_Qlt. eapply Qlt_le_trans; [exact H|apply Qle_ceiling].
  - eapply Qle_lt_trans; [|apply Qceiling_lt].
    rewrite <- Zle_Qle. lia.
Qed.

Lemma ltb_of_nat layer q :
  ltb (of_nat layer) (Fin q) = (Z.of_nat layer <? Qceiling q).
Proof.
  unfold of_nat, num. simpl.
  destruct (Z.ltb_spec (Z.of_nat layer) (Qceiling q)) as [H|H].
  - apply lt_ceiling in H. apply negb_true_iff.
    destruct (Qle_bool q (inject_Z (Z.of_nat layer))) eqn:E; [|reflexivity].
    apply Qle_bool_iff in E. exfalso. now apply (Qlt_not_le _ _ H).
  - apply negb_false_iff. apply Qle_bool_iff. apply Qnot_lt_le.
    intros L. apply lt_ceiling in L. lia.
Qed.

(** The loop over a finite bound: the passes [layer], [layer + 1], ... below
    the bound, as far as the fuel goes. *)
Lemma layer_loop_fin fuel : forall offset q layer,
  layer_loop fuel offset (Fin q) layer
  = map (layer_pass offset)
      (seq layer (Nat.min fuel (passes (Fin q) - layer))).
Proof.
  induction fuel as [|fuel IH]; intros offset q layer; [reflexivity|].
  cbn [layer_loop]. rewrite ltb_of_nat. unfold passes in *.
  destruct (Z.ltb_spec (Z.of_nat layer) (Qceiling q)) as [H|H].
  - rewrite IH.
    replace (Z.to_nat (Qceiling q) - layer)%nat
      with (S (Z.to_nat (Qceiling q) - S layer)) by lia.
    reflexivity.
  - replace (Z.to_nat (Qceiling q) - layer)%nat with O by lia.
    rewrite Nat.min_0_r. reflexivity.
Qed.

Lemma layer_loop_stops fuel offset bound layer :
  bound = NaN \/ bound = NegInfinity ->
  layer_loop fuel offset bound layer = [].
Proof. intros [->| ->]; destruct fuel; reflexivity. Qed.

(** The bound of the loop is a number up to 50, [NaN] or [-Infinity]. *)
Lemma bound_at_most_50 (layers : number) :
  (exists q, Math_min layers (num 50) = Fin q /\ (Qceiling q <= 50))
  \/ Math_min layers (num 50) = NaN
  \/ Math_min layers (num 50) = NegInfinity.
Proof.
  destruct layers as [q| | |]; simpl; auto.
  - left. destruct (Qle_bool q (inject_Z 50)) eqn:E.
    + exists q. split; [reflexivity|]. apply Qle_bool_iff in E.
      apply Qceiling_resp_le in E. rewrite Qceiling_Z in E. exact E.
    + exists (inject_Z 50). split; [reflexivity|]. discriminate.
  - left. exists (inject_Z 50). split; [reflexivity|]. discriminate.
Qed.

Lemma passes_at_most_50 layers :
  (passes (Math_min layers (num 50)) <= 50)%nat.
Proof.
  destruct (bound_at_most_50 layers) as [(q & -> & H)|[-> | ->]]; simpl; lia.
Qed.

Lemma gcode_loop fuel offset layers :
  (50 <= fuel)%nat ->
  layer_loop fuel offset (Math_min layers (num 50)) 0
  = map (layer_pass offset) (seq 0 (passes (Math_min layers (num 50)))).
Proof.
  intros Hf.
  destruct (bound_at_most_50 layers) as [(q & E & H)|H].
  - rewrite E. rewrite layer_loop_fin. rewrite Nat.sub_0_r.
    rewrite Nat.min_r; [reflexivity|]. simpl. lia.
  - rewrite layer_loop_stops by exact H. destruct H as [-> | ->]; reflexivity.
Qed.

(** The size and the height the placeholder works with are never [0] nor
    [NaN]. *)
Lemma gcode_size_truthy dims : truthy (gcode_size dims) = true.
Proof.
  unfold gcode_size, or_num.
  destruct (truthy (or_default _ _)) eqn:E; [exact E|reflexivity].
Qed.

Lemma gcode_height_truthy dims : truthy (gcode_height dims) = true.
Proof.
  unfold gcode_height, or_default. destruct (height dims) as [v|].
  - destruct (truthy v) eqn:E; [exact E|apply gcode_size_truthy].
  - apply gcode_size_truthy.
Qed.


Lemma layer_pass_extrusion offset layer :
  omap m_e (l_moves (layer_pass offset layer))
  = map (fun k => num (Z.of_nat k)) (seq (1 + 4 * layer) 4).
Proof.
  unfold layer_pass, of_nat. cbn [l_moves omap list_omap m_e seq map].
  rewrite !num_mul, !num_add.
  repeat (f_equal; try lia).
Qed.

Lemma extrusion_of_passes offset n :
  flat_map (fun b => omap m_e (l_moves b))
    (map (layer_pass offset) (seq 0 n))
  = map (fun k => num (Z.of_nat k)) (seq 1 (4 * n)).
Proof.
  induction n as [|n IH]; [reflexivity|].
  rewrite seq_S, map_app, flat_map_app, IH. cbn [map flat_map].
  rewrite app_nil_r, layer_pass_extrusion.
  replace (4 * S n)%nat with (4 * n + 4)%nat by lia.
  rewrite seq_app, map_app. reflexivity.
Qed.


(** * Further properties of the mesh builder *)

(** X14. The cube is two triangles for each of the six axis directions; the
    three corners of every triangle are corners of the box, and they all lie
    on the face of the box its normal points out of. *)
Theorem cube_faces (w h d : number) :
  map f_normal (cube_mesh w h d) = flat_map (fun n => [n; n]) axis_normals
  /\ Forall (fun f => Forall (corner w h d) [f_v1 f; f_v2 f; f_v3 f])
       (cube_mesh w h d)
  /\ Forall (in_face_of_normal w h d) (cube_mesh w h d).
Proof.
  split; [reflexivity|]. split.
  - unfold cube_mesh, corner.
    repeat (apply Forall_cons; split; [|]); try apply Forall_nil_2;
      cbn [f_v1 f_v2 f_v3 addTriangle vx vy vz fst snd];
      repeat split; solve [now left | now right].
  - unfold cube_mesh.
    repeat (apply Forall_cons; split; [|]); try apply Forall_nil_2;
      intros v Hv; cbn [f_v1 f_v2 f_v3 addTriangle In] in Hv;
      destruct Hv as [<-|[<-|[<-|[]]]];
      cbn [f_normal addTriangle vx vy vz fst snd];
      repeat split; intros Hn;
      first [reflexivity | (vm_compute in Hn; discriminate Hn)].
Qed.

(** ** The text of the mesh, line by line *)

Lemma split_lines_nonempty s : split_lines s <> [].
Proof.
  destruct s as [|c s]; simpl; [discriminate|].
  destruct (Ascii.eqb c (ascii_of_nat 10)); [discriminate|].
  destruct (split_lines s); discriminate.
Qed.

Lemma split_lines_line l rest :
  no_newline l = true ->
  split_lines (l ++ newline ++ rest) = l :: split_lines rest.
Proof.
  induction l as [|c l IH]; intros H; [reflexivity|].
  simpl in H. apply andb_true_iff in H. destruct H as [Hc Hl].
  apply negb_true_iff in Hc. simpl. rewrite Hc, (IH Hl). reflexivity.
Qed.

Lemma split_lines_last l : no_newline l = true -> split_lines l = [l].
Proof.
  induction l as [|c l IH]; intros H; [reflexivity|].
  simpl in H. apply andb_true_iff in H. destruct H as [Hc Hl].
  apply negb_true_iff in Hc. simpl. rewrite Hc, (IH Hl). reflexivity.
Qed.

Lemma string_app_assoc (a b c : string) :
  ((a ++ b) ++ c = a ++ (b ++ c))%string.
Proof.
  induction a as [|x a IH]; [reflexivity|].
  change (String x ((a ++ b) ++ c) = String x (a ++ (b ++ c)))%string.
  now f_equal.
Qed.

Lemma split_lines_join ls tail :
  Forall (fun l => no_newline l = true) ls ->
  ls <> [] ->
  split_lines (join newline ls ++ newline ++ tail) = ls ++ split_lines tail.
Proof.
  induction ls as [|l ls IH]; intros HF Hne; [congruence|].
  apply Forall_cons in HF. destruct HF as [Hl HF].
  destruct ls as [|l' ls].
  - simpl. now apply split_lines_line.
  - change (join newline (l :: l' :: ls))
      with (l ++ newline ++ join newline (l' :: ls))%string.
    rewrite !string_app_assoc. rewrite split_lines_line by exact Hl.
    rewrite IH; [reflexivity|exact HF|discriminate].
Qed.

Lemma no_newline_app a b :
  no_newline (a ++ b) = no_newline a && no_newline b.
Proof.
  induction a as [|c a IH]; simpl; [reflexivity|].
  now rewrite IH, andb_assoc.
Qed.

Section MeshText.
Variable Math_cos Math_sin : number -> number.
Variable Number_toString : number -> string.
Hypothesis one_line : forall x, no_newline (Number_toString x) = true.

Lemma facet_lines_one_line f :
  Forall (fun l => no_newline l = true) (facet_lines Number_toString f).
Proof.
  unfold facet_lines, show_vec.
  repeat (apply Forall_cons; split; [|]); try apply Forall_nil_2;
    rewrite ?no_newline_app, ?one_line; reflexivity.
Qed.

Lemma all_facet_lines_one_line fs :
  Forall (fun l => no_newline l = true)
    (flat_map (facet_lines Number_toString) fs).
Proof.
  induction fs as [|f fs IH]; [constructor|].
  cbn [flat_map]. apply Forall_app.
  split; [apply facet_lines_one_line|exact IH].
Qed.

Lemma endfacet_count fs :
  length (filter (fun l => l = "  endfacet"%string)
            (flat_map (facet_lines Number_toString) fs))
  = length fs.
Proof.
  induction fs as [|f fs IH]; [reflexivity|].
  cbn [flat_map]. rewrite filter_app, length_app, IH.
  change (length (f :: fs)) with (1 + length fs)%nat.
  assert (E : length (filter (fun l => l = "  endfacet"%string)
                        (facet_lines Number_toString f)) = 1%nat)
    by reflexivity.
  now rewrite E.
Qed.

Lemma generateSTL_lines (s : ShapeConfig) :
  split_lines (generateSTL Math_cos Math_sin Number_toString s)
  = "solid model"%string
    :: match triangles Math_cos Math_sin s with
       | [] => [EmptyString]
       | f :: fs => flat_map (facet_lines Number_toString) (f :: fs)
       end
    ++ ["endsolid model"%string].
Proof.
  unfold generateSTL. rewrite split_lines_line by reflexivity. f_equal.
  destruct (triangles Math_cos Math_sin s) as [|f fs].
  - reflexivity.
  - rewrite split_lines_join.
    + reflexivity.
    + apply all_facet_lines_one_line.
    + simpl. discriminate.
Qed.

End MeshText.

(** X15. Provided numbers are written without a line feed, the text of a mesh
    splits at its line feeds into the line [solid model], the seven lines of
    each triangle in order, and the line [endsolid model]: 7 n + 2 lines for
    the n triangles of a supported kind, of which exactly n are the closing
    line of a facet.  Reading the text back gives the number of triangles
    that were written. *)
Theorem mesh_text_lines (Math_cos Math_sin : number -> number)
    (Number_toString : number -> string) (s : ShapeConfig) :
  (forall x, no_newline (Number_toString x) = true) ->
  supported (type s) = true ->
  let lines := split_lines (generateSTL Math_cos Math_sin Number_toString s) in
  lines
  = ["solid model"%string]
    ++ flat_map (facet_lines Number_toString) (triangles Math_cos Math_sin s)
    ++ ["endsolid model"%string]
  /\ length lines = (7 * facet_count (type s) + 2)%nat
  /\ length (filter (fun l => l = "  endfacet"%string) lines)
     = length (triangles Math_cos Math_sin s).
Proof.
  intros H1 Hs lines.
  assert (E : lines
              = ["solid model"%string]
                ++ flat_map (facet_lines Number_toString)
                     (triangles Math_cos Math_sin s)
                ++ ["endsolid model"%string]).
  { unfold lines. rewrite generateSTL_lines by exact H1.
    pose proof (triangles_length Math_cos Math_sin s) as L.
    destruct (triangles Math_cos Math_sin s); [|reflexivity].
    destruct (type s); simpl in *; discriminate. }
  split; [exact E|]. rewrite E. split.
  - rewrite !length_app. simpl.
    rewrite (flat_map_length_const _ 7) by reflexivity.
    rewrite triangles_length. lia.
  - rewrite !filter_app, !length_app, endfacet_count. simpl. lia.
Qed.

Lemma mesh_text_lines_witness :
  (forall x : number, no_newline ((fun _ => "0"%string) x) = true)
  /\ supported (type default_cube) = true
  /\ length (split_lines
               (generateSTL (fun x => x) (fun x => x) (fun _ => "0"%string)
                  default_cube))
     = 86%nat.
Proof.
  split; [reflexivity|]. split; [reflexivity|].
  exact (proj1 (proj2 (mesh_text_lines (fun x => x) (fun x => x)
                         (fun _ => "0"%string) default_cube
                         (fun _ => eq_refl) eq_refl))).
Defined.

(** * Further properties of the prompt parser *)

(** ** The matcher *)

Lemma app_String c a b : (String c a ++ b)%string = String c (a ++ b)%string.
Proof. reflexivity. Qed.

Lemma length_string_app a b :
  String.length (a ++ b) = (String.length a + String.length b)%nat.
Proof.
  induction a as [|c a IH]; [reflexivity|].
  rewrite app_String. simpl. now rewrite IH.
Qed.

Lemma substring_prefix pre s :
  substring 0 (String.length pre) (pre ++ s) = pre.
Proof.
  induction pre as [|c pre IH].
  - simpl. now destruct s.
  - rewrite app_String. simpl. now rewrite IH.
Qed.

Lemma consumed_app pre s : Regex.consumed (pre ++ s) s = pre.
Proof.
  unfold Regex.consumed. rewrite length_string_app.
  replace (String.length pre + String.length s - String.length s)%nat
    with (String.length pre) by lia.
  apply substring_prefix.
Qed.

Section Matcher.
Context {A : Type}.

Lemma star_some p s (k : string -> option A) x :
  Regex.star p s k = Some x -> exists s', k s' = Some x.
Proof.
  revert x. induction s as [|c s IH]; intros x H; simpl in H; [eauto|].
  destruct (p c); [|eauto].
  destruct (Regex.star p s k) as [y|] eqn:E; [|eauto].
  inversion H; subst. now apply IH.
Qed.

Lemma plus_some p s (k : string -> option A) x :
  Regex.plus p s k = Some x -> exists s', k s' = Some x.
Proof.
  unfold Regex.plus. destruct s as [|c s]; [discriminate|].
  destruct (p c); [|discriminate]. apply star_some.
Qed.

Lemma star_digits s (k : string -> option A) x :
  Regex.star is_digit s k = Some x ->
  exists pre s',
    s = (pre ++ s')%string /\ all_digits pre = true /\ k s' = Some x.
Proof.
  revert x. induction s as [|c s IH]; intros x H; simpl in H.
  - exists EmptyString, EmptyString. repeat split. exact H.
  - destruct (is_digit c) eqn:D;
      [|exists EmptyString, (String c s); repeat split; exact H].
    destruct (Regex.star is_digit s k) as [y|] eqn:E;
      [|exists EmptyString, (String c s); repeat split; exact H].
    inversion H; subst.
    destruct (IH x eq_refl) as (pre & s' & -> & Hd & Hk).
    exists (String c pre), s'. repeat split; [|exact Hk].
    simpl. now rewrite D.
Qed.

Lemma plus_digits s (k : string -> option A) x :
  Regex.plus is_digit s k = Some x ->
  exists pre s',
    s = (pre ++ s')%string /\ digit_string pre = true /\ k s' = Some x.
Proof.
  unfold Regex.plus. destruct s as [|c s]; [discriminate|].
  destruct (is_digit c) eqn:D; [|discriminate]. intros H.
  destruct (star_digits s k x H) as (pre & s' & -> & Hd & Hk).
  exists (String c pre), s'. repeat split; [|exact Hk].
  unfold digit_string. simpl. now rewrite D.
Qed.

(** A match runs the rest of the pattern with captures that are runs of
    digits and that hold every group the pattern must go through. *)
Lemma exec_spec r :
  digit_groups r ->
  forall s caps (k : string -> Regex.captures -> option A) x,
    Regex.exec r s caps k = Some x ->
    exists s' caps',
      k s' caps' = Some x
      /\ (digit_captures caps -> digit_captures caps')
      /\ (forall n, is_Some (caps !! n) \/ binds n r = true ->
                    is_Some (caps' !! n)).
Proof.
  induction r as [lit|p|p|r1 IH1 r2 IH2|r1 IH1 r2 IH2|r1 IH1|m r1 IH1];
    intros G s caps k x H; simpl in H.
  - destruct (Regex.literal lit s) as [s'|]; [|discriminate].
    exists s', caps. split; [exact H|]. split; [auto|].
    intros n [Hn|Hn]; [exact Hn|discriminate].
  - apply plus_some in H. destruct H as [s' H].
    exists s', caps. split; [exact H|]. split; [auto|].
    intros n [Hn|Hn]; [exact Hn|discriminate].
  - apply star_some in H. destruct H as [s' H].
    exists s', caps. split; [exact H|]. split; [auto|].
    intros n [Hn|Hn]; [exact Hn|discriminate].
  - destruct G as [G1 G2].
    destruct (IH1 G1 _ _ _ _ H) as (s1 & c1 & H1 & D1 & B1).
    destruct (IH2 G2 _ _ _ _ H1) as (s2 & c2 & H2 & D2 & B2).
    exists s2, c2. split; [exact H2|]. split; [auto|].
    intros n [Hn|Hn]; [apply B2; left; apply B1; now left|].
    simpl in Hn. apply orb_true_iff in Hn. destruct Hn as [Hn|Hn].
    + apply B2. left. apply B1. now right.
    + apply B2. now right.
  - destruct G as [G1 G2].
    destruct (Regex.exec r1 s caps k) as [y|] eqn:E.
    + inversion H; subst.
      destruct (IH1 G1 _ _ _ _ E) as (s1 & c1 & H1 & D1 & B1).
      exists s1, c1. split; [exact H1|]. split; [exact D1|].
      intros n [Hn|Hn]; [apply B1; now left|].
      simpl in Hn. apply andb_true_iff in Hn. apply B1. right. tauto.
    + destruct (IH2 G2 _ _ _ _ H) as (s1 & c1 & H1 & D1 & B1).
      exists s1, c1. split; [exact H1|]. split; [exact D1|].
      intros n [Hn|Hn]; [apply B1; now left|].
      simpl in Hn. apply andb_true_iff in Hn. apply B1. right. tauto.
  - simpl in G. destruct (Regex.exec r1 s caps k) as [y|] eqn:E.
    + inversion H; subst.
      destruct (IH1 G _ _ _ _ E) as (s1 & c1 & H1 & D1 & B1).
      exists s1, c1. split; [exact H1|]. split; [exact D1|].
      intros n [Hn|Hn]; [apply B1; now left|discriminate].
    + exists s, caps. split; [exact H|]. split; [auto|].
      intros n [Hn|Hn]; [exact Hn|discriminate].
  - simpl in G. subst r1. simpl in H. apply plus_digits in H.
    destruct H as (pre & s' & -> & Hd & Hk). rewrite consumed_app in Hk.
    exists s', (<[m := pre]> caps). split; [exact Hk|].
    unfold digit_captures, Regex.captures in *. split.
    + intros D n g. rewrite lookup_insert.
      destruct (decide (m = n)); [|apply D]. intros E.
      injection E as <-. exact Hd.
    + intros n [Hn|Hn]; rewrite lookup_insert; destruct (decide (m = n));
        eauto.
      simpl in Hn. rewrite orb_false_r in Hn. apply Nat.eqb_eq in Hn.
      contradiction.
Qed.

End Matcher.

Lemma search_spec r : forall s c,
  digit_groups r ->
  Regex.search r s = Some c ->
  digit_captures c /\ (forall n, binds n r = true -> is_Some (c !! n)).
Proof.
  assert (Base : forall s c,
             digit_groups r ->
             Regex.exec r s ∅ (fun _ c => Some c) = Some c ->
             digit_captures c
             /\ (forall n, binds n r = true -> is_Some (c !! n))).
  { intros s c G H. destruct (exec_spec r G _ _ _ _ H) as (s' & c' & E & D & B).
    inversion E; subst. split.
    - apply D. intros n g Hn. unfold Regex.captures in *.
      rewrite lookup_empty in Hn. discriminate.
    - intros n Hn. apply B. now right. }
  induction s as [|ch s IH]; intros c G H; simpl in H.
  - destruct (Regex.exec r "" ∅ _) as [y|] eqn:E; [|discriminate].
    inversion H; subst. now apply (Base ""%string).
  - destruct (Regex.exec r (String ch s) ∅ _) as [y|] eqn:E.
    + inversion H; subst. now apply (Base (String ch s)).
    + now apply IH.
Qed.

Lemma digit_groups_patterns :
  digit_groups re_dim /\ digit_groups re_radius /\ digit_groups re_size.
Proof. repeat split. Qed.

(** X16. Whenever one of the three patterns of [parsePrompt] matches, every
    group of the result that is defined holds a non-empty run of decimal
    digits; group 1 is always defined, and for the dimension pattern group 2
    as well (group 3 only where a third number follows). *)
Theorem pattern_groups (lower : string) (c : Regex.captures) :
  (Regex.search re_dim lower = Some c ->
   digit_captures c /\ is_Some (c !! 1%nat) /\ is_Some (c !! 2%nat))
  /\ (Regex.search re_radius lower = Some c ->
      digit_captures c /\ is_Some (c !! 1%nat))
  /\ (Regex.search re_size lower = Some c ->
      digit_captures c /\ is_Some (c !! 1%nat)).
Proof.
  destruct digit_groups_patterns as (G1 & G2 & G3).
  split; [|split]; intros H.
  - destruct (search_spec _ _ _ G1 H) as [D B].
    split; [exact D|]. split; apply B; reflexivity.
  - destruct (search_spec _ _ _ G2 H) as [D B].
    split; [exact D|]. apply B; reflexivity.
  - destruct (search_spec _ _ _ G3 H) as [D B].
    split; [exact D|]. apply B; reflexivity.
Qed.

(** ** The numbers the parser returns *)

Lemma leb_trans x y z : leb x y = true -> leb y z = true -> leb x z = true.
Proof.
  destruct x as [a| | |], y as [b| | |], z as [c| | |];
    try discriminate; try reflexivity.
  intros H1 H2. apply Qle_bool_iff in H1, H2. apply Qle_bool_iff.
  eapply Qle_trans; eassumption.
Qed.

Lemma leb_Fin_inv b x :
  leb (Fin b) x = true -> x = Infinity \/ exists q, x = Fin q /\ (b <= q)%Q.
Proof.
  destruct x as [q| | |]; try discriminate; [|now left].
  intros H. right. exists q. split; [reflexivity|]. now apply Qle_bool_iff.
Qed.

Lemma is_double_of_number x : is_double (Double.of_number x).
Proof. apply of_number_idempotent. Qed.

Lemma digit_value_nonneg c : is_digit c = true -> 0 <= digit_value c.
Proof.
  unfold is_digit, digit_value. intros H. apply andb_true_iff in H.
  destruct H as [H _]. apply Nat.leb_le in H. lia.
Qed.

Lemma digits_nonneg s : forall a,
  all_digits s = true -> 0 <= a ->
  exists z, digits (Some a) s = Some z /\ 0 <= z.
Proof.
  induction s as [|c s IH]; intros a H Ha; simpl in *; [eauto|].
  apply andb_true_iff in H. destruct H as [Hc Hs]. rewrite Hc.
  apply IH; [exact Hs|]. pose proof (digit_value_nonneg c Hc). lia.
Qed.

(** On a run of digits [parseInt] is the double nearest to the integer the
    digits write. *)
Lemma parseInt_digits g :
  digit_string g = true ->
  exists z, 0 <= z /\ parseInt (Some g) = Double.round (inject_Z z).
Proof.
  unfold digit_string, parseInt. destruct g as [|c g]; [discriminate|].
  simpl. intros H. apply andb_true_iff in H. destruct H as [Hc Hg].
  rewrite Hc.
  destruct (digits_nonneg g (10 * 0 + digit_value c) Hg) as (z & -> & Hz).
  { pose proof (digit_value_nonneg c Hc). lia. }
  eauto.
Qed.

(** The integers beyond [2 ^ 53] are rounded, and a run of 309 digits can
    lie beyond every double: 2 followed by 308 zeros does. *)
Example parseInt_rounds :
  parseInt (Some "9007199254740993"%string) = num 9007199254740992.
Proof. vm_compute. reflexivity. Qed.

Example parseInt_overflows :
  parseInt (Some (String "2" (string_of_list_ascii (repeat "0"%char 308))))
  = Infinity.
Proof. vm_compute. reflexivity. Qed.

(** Such a size reaches the shape: the ball of 2 followed by 308 zeros
    millimetres has the radius [Infinity]. *)
Example parse_overflow :
  parsePrompt
    (String "2" (string_of_list_ascii (repeat "0"%char 308)) ++ "mm ball")
  = mkShape sphere (only_radius Infinity) mm.
Proof. vm_compute. reflexivity. Qed.

Lemma round_natural z :
  0 <= z -> zero_or_at_least 1 (Double.round (inject_Z z)).
Proof.
  intros Hz. split; [apply round_idempotent|].
  destruct (Z.eq_dec z 0) as [->|N]; [now left|right].
  change (Fin 1) with (Double.round (inject_Z 1)). apply round_mono.
  rewrite <- Zle_Qle. lia.
Qed.

Lemma parseInt_group (c : Regex.captures) n :
  digit_captures c -> is_Some (c !! n) ->
  zero_or_at_least 1 (parseInt (c !! n)).
Proof.
  intros D [g Hg]. rewrite Hg.
  destruct (parseInt_digits g (D _ _ Hg)) as (z & Hz & ->).
  now apply round_natural.
Qed.

Lemma zero_or_at_least_weaken a b x :
  (a <= b)%Q -> zero_or_at_least b x -> zero_or_at_least a x.
Proof.
  intros Hab [D [Z|L]]; split; auto. right.
  apply (leb_trans _ (Fin b)); [now apply Qle_bool_iff|exact L].
Qed.

Lemma zero_or_at_least_twice x :
  zero_or_at_least 1 x -> zero_or_at_least 1 (Double.mul x (num 2)).
Proof.
  intros [_ H]. split; [apply is_double_of_number|].
  destruct H as [->|H]; [now left|right].
  destruct (leb_Fin_inv _ _ H) as [->|(q & -> & Hq)]; [reflexivity|].
  unfold Double.mul. cbn [mul num Double.of_number].
  change (Fin 1) with (Double.round 1). apply round_mono.
  rewrite Qred_correct. apply Qle_trans with (1 * inject_Z 2)%Q.
  - discriminate.
  - apply Qmult_le_compat_r; [exact Hq|discriminate].
Qed.

Lemma zero_or_at_least_half x :
  zero_or_at_least 1 x -> zero_or_at_least (1 # 2) (Double.div x (num 2)).
Proof.
  intros [_ H]. split; [apply is_double_of_number|].
  destruct H as [->|H]; [now left|right].
  destruct (leb_Fin_inv _ _ H) as [->|(q & -> & Hq)]; [reflexivity|].
  unfold Double.div, num. cbn [div Double.of_number].
  replace (Qeq_bool (inject_Z 2) 0) with false by reflexivity.
  change (Fin (1 # 2)) with (Double.round (1 # 2)). apply round_mono.
  rewrite Qred_correct. apply Qle_shift_div_l; [reflexivity|].
  eapply Qle_trans; [|exact Hq]. discriminate.
Qed.

Lemma zero_or_at_least_or_num b x d :
  zero_or_at_least b x -> zero_or_at_least b d ->
  zero_or_at_least b (or_num x d).
Proof. intros Hx Hd. unfold or_num. now destruct (truthy x). Qed.

Lemma zero_or_at_least_num b z :
  (b <= inject_Z z)%Q -> (0 <= z <= 2 ^ 53) ->
  zero_or_at_least b (num z).
Proof.
  intros Hb Hz. split.
  - unfold is_double, num. cbn [Double.of_number]. now apply round_integer.
  - right. now apply Qle_bool_iff.
Qed.

(** The four sizes drawn from the prompt: doubles that are 0 or at least 1,
    the radius 0 or at least 0.5. *)
Lemma extract_sizes_sizes lower :
  zero_or_at_least 1 (s_width (extract_sizes lower))
  /\ zero_or_at_least 1 (s_height (extract_sizes lower))
  /\ zero_or_at_least 1 (s_depth (extract_sizes lower))
  /\ zero_or_at_least (1 # 2) (s_radius (extract_sizes lower)).
Proof.
  assert (D50 : zero_or_at_least 1 (num 50))
    by (apply zero_or_at_least_num; [discriminate|split; discriminate]).
  assert (D25 : zero_or_at_least (1 # 2) (num 25))
    by (apply zero_or_at_least_num; [discriminate|split; discriminate]).
  unfold extract_sizes.
  destruct (Regex.search re_dim lower) as [c|] eqn:E1.
  { destruct (search_spec _ _ _ (proj1 digit_groups_patterns) E1) as [D B].
    assert (H1 : is_Some (c !! 1%nat)) by (apply B; reflexivity).
    assert (H2 : is_Some (c !! 2%nat)) by (apply B; reflexivity).
    pose proof (parseInt_group c 1 D H1) as W.
    cbn [s_width s_height s_depth s_radius].
    split; [exact W|]. split; [now apply parseInt_group|].
    split; [|exact D25].
    destruct (c !! 3%nat) as [g|] eqn:E3; [|exact W].
    destruct (String.eqb g ""); [exact W|].
    rewrite <- E3. apply parseInt_group; [exact D|]. rewrite E3. eauto. }
  destruct (Regex.search re_radius lower) as [c|] eqn:E2.
  { destruct (search_spec _ _ _ (proj1 (proj2 digit_groups_patterns)) E2)
      as [D B].
    assert (H1 : is_Some (c !! 1%nat)) by (apply B; reflexivity).
    pose proof (parseInt_group c 1 D H1) as R.
    cbn [s_width s_height s_depth s_radius].
    pose proof (zero_or_at_least_twice _ R) as S.
    repeat split; try apply S.
    - apply (zero_or_at_least_weaken (1 # 2) 1); [discriminate|exact R].
    - apply (zero_or_at_least_weaken (1 # 2) 1); [discriminate|exact R]. }
  destruct (Regex.search re_size lower) as [c|] eqn:E3.
  { destruct (search_spec _ _ _ (proj2 (proj2 digit_groups_patterns)) E3)
      as [D B].
    assert (H1 : is_Some (c !! 1%nat)) by (apply B; reflexivity).
    pose proof (parseInt_group c 1 D H1) as W.
    cbn [s_width s_height s_depth s_radius].
    pose proof (zero_or_at_least_half _ W) as S.
    repeat split; try apply W; apply S. }
  cbn [s_width s_height s_depth s_radius]. tauto.
Qed.

Lemma parseLower_sizes (lower : string) (k : DimKey) (v : number) :
  dim k (dimensions (parseLower lower)) = Some v ->
  zero_or_at_least (1 # 2) v.
Proof.
  unfold parseLower.
  destruct (extract_sizes_sizes lower) as (W & H & D & R).
  destruct (extract_sizes lower) as [w h d r].
  cbn [s_width s_height s_depth s_radius] in *.
  assert (Half : (1 # 2 <= 1)%Q) by discriminate.
  pose proof (zero_or_at_least_weaken _ _ _ Half W) as W'.
  pose proof (zero_or_at_least_weaken _ _ _ Half H) as H'.
  pose proof (zero_or_at_least_weaken _ _ _ Half D) as D'.
  assert (R2 : zero_or_at_least (1 # 2) (or_num r (Double.div w (num 2))))
    by (apply zero_or_at_least_or_num;
        [exact R|now apply zero_or_at_least_half]).
  assert (R3 : zero_or_at_least (1 # 2) (or_num r (num 30))).
  { apply zero_or_at_least_or_num; [exact R|].
    apply zero_or_at_least_num; [discriminate|split; discriminate]. }
  assert (T : zero_or_at_least (1 # 2) (num 10))
    by (apply zero_or_at_least_num; [discriminate|split; discriminate]).
  repeat match goal with
         | |- context [if ?b then _ else _] => destruct b
         end;
    destruct k; cbn; intros E; inversion E; subst; assumption.
Qed.

Lemma zero_or_at_least_nonnegative b x :
  (0 <= b)%Q -> zero_or_at_least b x -> nonnegative x = true.
Proof.
  intros Hb [_ [->|H]]; [reflexivity|]. unfold nonnegative.
  apply (leb_trans _ (Fin b)); [now apply Qle_bool_iff|exact H].
Qed.

(** X17. Every dimension of the shape the parser returns, for any prompt, is
    a double that is not negative: it is 0, or at least 0.5, [Infinity]
    included (which a run of 309 digits gives); no [NaN] and no negative size
    leaves [parsePrompt]. *)
Theorem parsed_dimensions_nonnegative (prompt : string) (k : DimKey)
    (v : number) :
  dim k (dimensions (parsePrompt prompt)) = Some v ->
  nonnegative v = true
  /\ is_double v
  /\ (v = num 0 \/ at_least_half v = true).
Proof.
  unfold parsePrompt. intros H.
  pose proof (parseLower_sizes (toLowerCase prompt) k v H) as S.
  split; [|exact S].
  apply (zero_or_at_least_nonnegative (1 # 2)); [discriminate|exact S].
Qed.

Lemma parsed_dimensions_nonnegative_witness :
  dim Radius (dimensions (parsePrompt "A ball 40mm")) = Some (num 20)
  /\ nonnegative (num 20) = true.
Proof.
  split; [reflexivity|].
  exact (proj1 (parsed_dimensions_nonnegative "A ball 40mm" Radius (num 20)
                  eq_refl)).
Defined.

(** ** From the parser to the mesh builder and the preview *)

Lemma zero_is_falsy x : truthy x = true -> x <> num 0.
Proof. intros T ->. discriminate. Qed.

Lemma fallback_at_least_half t k d :
  fallback t k = Some d -> at_least_half d = true.
Proof.
  destruct t, k; simpl; intros H; inversion H; reflexivity.
Qed.

Lemma used_at_least_half t k dims :
  In k (required t) ->
  (forall v, dim k dims = Some v -> zero_or_at_least (1 # 2) v) ->
  at_least_half (used t k dims) = true.
Proof.
  intros Hk Hn. apply fallback_required in Hk. destruct Hk as [d Hd].
  unfold used, or_default. rewrite Hd. simpl.
  pose proof (fallback_at_least_half _ _ _ Hd) as Pd.
  destruct (dim k dims) as [v|] eqn:E; [|exact Pd].
  destruct (truthy v) eqn:T; [|exact Pd].
  destruct (Hn v eq_refl) as [_ [Z|L]]; [|exact L].
  now apply zero_is_falsy in T.
Qed.

Lemma parsed_keys lower k :
  is_Some (dim k (dimensions (parseLower lower)))
  <-> In k (required (type (parseLower lower))).
Proof.
  unfold parseLower. destruct (extract_sizes lower) as [w h d r].
  repeat match goal with
         | |- context [if ?b then _ else _] => destruct b
         end;
    destruct k; cbn; split; intros H;
    solve [ eauto | intuition discriminate
          | destruct H as [x H]; discriminate ].
Qed.

(** X18. The shape parsed from any prompt carries exactly the dimensions the
    branch of its kind reads, and every value the mesh builder then works
    with is at least 0.5, [Infinity] included: through the parser, the
    builder never meets a size that is 0, negative or [NaN]. *)
Theorem parsed_shape_is_buildable (prompt : string) (k : DimKey) :
  let s := parsePrompt prompt in
  (is_Some (dim k (dimensions s)) <-> In k (required (type s)))
  /\ (In k (required (type s)) ->
      at_least_half (used (type s) k (dimensions s)) = true).
Proof.
  intros s. split; [apply parsed_keys|].
  intros Hk. apply used_at_least_half; [exact Hk|].
  intros v Hv. exact (parseLower_sizes _ k v Hv).
Qed.

Lemma sgn_positive q : (0 < q)%Q -> sgn (Fin q) = 1.
Proof.
  destruct q as [n d]. unfold Qlt. cbn. intros H.
  destruct n; try lia; reflexivity.
Qed.

Lemma Qeq_bool_positive q : (0 < q)%Q -> Qeq_bool q 0 = false.
Proof.
  intros H. destruct (Qeq_bool q 0) eqn:E; [|reflexivity].
  apply Qeq_bool_iff in E. rewrite E in H. discriminate.
Qed.

(** A bound from below on a rounded result: the rounded bound. *)
Lemma round_lower a q :
  (0 <= a)%Q -> (a <= q)%Q -> leb (Fin (rounded a)) (Double.round q) = true.
Proof.
  intros Ha H. pose proof (round_mono a q H) as M. unfold rounded.
  destruct (Double.round a) as [c| | |] eqn:E; try exact M;
    destruct (round_nonneg q) as [-> |(p & -> & Hp)];
    try reflexivity; try (eapply Qle_trans; eassumption);
    now apply Qle_bool_iff.
Qed.

Lemma mul_lower a b x y :
  leb (Fin a) x = true -> leb (Fin b) y = true ->
  (0 < a)%Q -> (0 < b)%Q ->
  leb (Fin (rounded (a * b))) (Double.mul x y) = true.
Proof.
  intros Hx Hy Ha Hb.
  destruct (leb_Fin_inv _ _ Hx) as [->|(p & -> & Hp)],
           (leb_Fin_inv _ _ Hy) as [->|(r & -> & Hr)].
  - reflexivity.
  - unfold Double.mul. cbn [mul]. rewrite sgn_positive; [reflexivity|].
    now apply Qlt_le_trans with b.
  - unfold Double.mul. cbn [mul]. rewrite sgn_positive; [reflexivity|].
    now apply Qlt_le_trans with a.
  - unfold Double.mul. cbn [mul Double.of_number]. apply round_lower.
    + apply Qlt_le_weak. now apply Qmult_lt_0_compat.
    + rewrite Qred_correct. apply Qle_trans with (p * b)%Q.
      * apply Qmult_le_compat_r; [exact Hp|now apply Qlt_le_weak].
      * apply Qmult_le_l; [|exact Hr]. now apply Qlt_le_trans with a.
Qed.

Lemma div_lower a d x :
  leb (Fin a) x = true -> (0 < a)%Q -> (0 < d)%Q ->
  leb (Fin (rounded (a / d))) (Double.div x (Fin d)) = true.
Proof.
  intros Hx Ha Hd. pose proof (Qeq_bool_positive d Hd) as Z.
  destruct (leb_Fin_inv _ _ Hx) as [->|(p & -> & Hp)].
  - unfold Double.div. cbn [div]. rewrite Z.
    rewrite sgn_positive by exact Hd. reflexivity.
  - unfold Double.div. cbn [div]. rewrite Z. cbn [Double.of_number].
    apply round_lower.
    + apply Qlt_le_weak. apply Qlt_shift_div_l; [exact Hd|].
      now rewrite Qmult_0_l.
    + rewrite Qred_correct. apply Qmult_le_compat_r; [exact Hp|].
      now apply Qlt_le_weak, Qinv_lt_0_compat.
Qed.

Ltac closed_order := vm_compute; reflexivity.

Ltac times H1 H2 H :=
  pose proof (mul_lower _ _ _ _ H1 H2 ltac:(closed_order) ltac:(closed_order))
    as H.

Ltac over H1 d H :=
  pose proof (div_lower _ (inject_Z d) _ H1 ltac:(closed_order)
                ltac:(closed_order))
    as H.

Lemma pow_by_products_lower x :
  leb (Fin (1 # 4)) x = true ->
  leb (Fin (1 # 128)) (pow_by_products x (num 2)) = true
  /\ leb (Fin (1 # 128)) (pow_by_products x (num 3)) = true.
Proof.
  intros H. times H H H2. times H2 H H3. split.
  - eapply leb_trans; [|exact H2]. closed_order.
  - eapply leb_trans; [|exact H3]. closed_order.
Qed.

Lemma estimatedMinutes_whole v :
  leb (num 0) v = true ->
  estimatedMinutes v = Infinity
  \/ exists minutes : Z, estimatedMinutes v = num minutes /\ 5 <= minutes.
Proof.
  intros Hv. unfold estimatedMinutes.
  destruct v as [q| | |]; try discriminate; [|now left].
  apply Qle_bool_iff in Hv.
  destruct (product_of_volume q Hv) as [-> [-> |(p & -> & _)]]; [now left|].
  right. cbn [Math_round]. eexists. split; [apply Math_max_num|].
  apply Z.le_max_l.
Qed.

Section PreviewFacts.
Variable Math_pow : number -> number -> number.
Hypothesis pow_lower : forall x,
  leb (Fin (1 # 4)) x = true ->
  leb (Fin (1 # 128)) (Math_pow x (num 2)) = true
  /\ leb (Fin (1 # 128)) (Math_pow x (num 3)) = true.

Lemma pow_of_half x :
  at_least_half x = true ->
  leb (Fin (1 # 128)) (Math_pow x (num 2)) = true
  /\ leb (Fin (1 # 128)) (Math_pow x (num 3)) = true.
Proof.
  intros H. apply pow_lower. eapply leb_trans; [|exact H]. closed_order.
Qed.

(** The volume of a shape whose sizes are at least 0.5 is bounded from below
    by a positive number: no product underflows to 0. *)
Lemma volume_lower s :
  supported (type s) = true ->
  (forall k, In k (required (type s)) ->
             at_least_half (used (type s) k (dimensions s)) = true) ->
  exists c, (0 < c)%Q /\ leb (Fin c) (volumeCm3 Math_pow s) = true.
Proof.
  intros Hs Hu. unfold volumeCm3.
  assert (Pi : leb (Fin 2) Math_PI = true) by reflexivity.
  destruct (type s); try discriminate.
  - assert (W : at_least_half (or_default (width (dimensions s)) (num 50))
                = true) by (apply (Hu Width); simpl; tauto).
    assert (H : at_least_half (or_default (height (dimensions s)) (num 50))
                = true) by (apply (Hu Height); simpl; tauto).
    assert (D : at_least_half (or_default (depth (dimensions s)) (num 50))
                = true) by (apply (Hu Depth); simpl; tauto).
    times W H B1. times B1 D B2. over B2 1000 B3.
    eexists. split; [|exact B3]. closed_order.
  - assert (R : at_least_half (or_default (radius (dimensions s)) (num 25))
                = true) by (apply (Hu Radius); simpl; tauto).
    assert (H : at_least_half (or_default (height (dimensions s)) (num 50))
                = true) by (apply (Hu Height); simpl; tauto).
    destruct (pow_of_half _ R) as [P _].
    times Pi P B1. times B1 H B2. over B2 1000 B3.
    eexists. split; [|exact B3]. closed_order.
  - assert (R : at_least_half (or_default (radius (dimensions s)) (num 25))
                = true) by (apply (Hu Radius); simpl; tauto).
    destruct (pow_of_half _ R) as [_ P].
    assert (F : leb (Fin 1) (Double.div (num 4) (num 3)) = true)
      by closed_order.
    times F Pi B1. times B1 P B2. over B2 1000 B3.
    eexists. split; [|exact B3]. closed_order.
  - assert (R : at_least_half (or_default (radius (dimensions s)) (num 25))
                = true) by (apply (Hu Radius); simpl; tauto).
    assert (H : at_least_half (or_default (height (dimensions s)) (num 50))
                = true) by (apply (Hu Height); simpl; tauto).
    destruct (pow_of_half _ R) as [P _].
    assert (F : leb (Fin (1 # 4)) (Double.div (num 1) (num 3)) = true)
      by closed_order.
    times F Pi B1. times B1 P B2. times B2 H B3. over B3 1000 B4.
    eexists. split; [|exact B4]. closed_order.
  - assert (R : at_least_half (or_default (radius (dimensions s)) (num 30))
                = true) by (apply (Hu Radius); simpl; tauto).
    assert (W : at_least_half (or_default (width (dimensions s)) (num 10))
                = true) by (apply (Hu Width); simpl; tauto).
    over W 2 W2.
    destruct (pow_lower _ W2) as [P _].
    assert (T : leb (Fin 2) (num 2) = true) by reflexivity.
    times T Pi B1. times B1 Pi B2. times B2 R B3. times B3 P B4. over B4 1000 B5.
    eexists. split; [|exact B5]. closed_order.
Qed.

End PreviewFacts.

Lemma positive_above c x :
  (0 < c)%Q -> leb (Fin c) x = true ->
  positive x = true /\ leb (num 0) x = true.
Proof.
  intros Hc H. destruct (leb_Fin_inv _ _ H) as [->|(q & -> & Hq)];
    [split; reflexivity|].
  assert (P : (0 < q)%Q) by (eapply Qlt_le_trans; eassumption). split.
  - unfold positive, num. cbn [ltb]. apply negb_true_iff.
    destruct (Qle_bool q (inject_Z 0)) eqn:E; [|reflexivity].
    apply Qle_bool_iff in E. exfalso. exact (Qlt_not_le _ _ P E).
  - apply Qle_bool_iff. now apply Qlt_le_weak.
Qed.

(** X19. For every prompt, and a [Math.pow] that returns at least 1/128 on
    the squares and cubes of arguments of at least 0.25, the preview reports
    a volume above 0 and an estimate that is a whole number of minutes, at
    least 5; either may be [Infinity] (the sizes may be), neither is ever
    [NaN], [0] or negative. *)
Theorem preview_is_positive (Math_pow : number -> number -> number)
    (prompt : string) :
  (forall x, leb (Fin (1 # 4)) x = true ->
     leb (Fin (1 # 128)) (Math_pow x (num 2)) = true
     /\ leb (Fin (1 # 128)) (Math_pow x (num 3)) = true) ->
  let body := post_preview Math_pow prompt in
  positive (pv_volumeCm3 body) = true
  /\ (pv_estimatedMinutes body = Infinity
      \/ exists minutes : Z,
           pv_estimatedMinutes body = num minutes /\ 5 <= minutes).
Proof.
  intros Hp body.
  destruct (volume_lower Math_pow Hp (parsePrompt prompt)) as (c & Hc & L).
  { apply parseLower_supported. }
  { intros k Hk. apply used_at_least_half; [exact Hk|].
    intros x Hx. exact (parseLower_sizes _ k x Hx). }
  destruct (positive_above c _ Hc L) as [P N].
  split; [exact P|]. now apply estimatedMinutes_whole.
Qed.

Lemma preview_is_positive_witness :
  positive (pv_volumeCm3 (post_preview pow_by_products "A ball 40mm")) = true.
Proof.
  exact (proj1 (preview_is_positive pow_by_products "A ball 40mm"
                  pow_by_products_lower)).
Defined.

(** ** Prompts without a digit, and the case of letters *)

Lemma exec_needs_digit {A : Type} r s caps
    (k : string -> Regex.captures -> option A) :
  starts_with_digit r ->
  match s with
  | EmptyString => True
  | String c _ => is_digit c = false
  end ->
  Regex.exec r s caps k = None.
Proof.
  intros (n & rest & ->) H. simpl. unfold Regex.plus.
  destruct s as [|c s]; [reflexivity|]. now rewrite H.
Qed.

Lemma search_needs_digit r s :
  starts_with_digit r -> has_digit s = false -> Regex.search r s = None.
Proof.
  intros Hr. induction s as [|c s IH]; intros H; simpl.
  - now rewrite exec_needs_digit.
  - simpl in H. apply orb_false_elim in H. destruct H as [Hc Hs].
    rewrite exec_needs_digit by assumption. now apply IH.
Qed.

Lemma patterns_start_with_digit :
  starts_with_digit re_dim /\ starts_with_digit re_radius
  /\ starts_with_digit re_size.
Proof. repeat split; eexists _, _; reflexivity. Qed.

Lemma is_digit_lower c : is_digit (lower_ascii c) = is_digit c.
Proof. destruct c as [[] [] [] [] [] [] [] []]; reflexivity. Qed.

Lemma lower_ascii_idem c : lower_ascii (lower_ascii c) = lower_ascii c.
Proof. destruct c as [[] [] [] [] [] [] [] []]; reflexivity. Qed.

Lemma has_digit_lower s : has_digit (toLowerCase s) = has_digit s.
Proof.
  induction s as [|c s IH]; [reflexivity|].
  simpl. now rewrite is_digit_lower, IH.
Qed.

Lemma toLowerCase_idem s : toLowerCase (toLowerCase s) = toLowerCase s.
Proof.
  induction s as [|c s IH]; [reflexivity|].
  simpl. now rewrite lower_ascii_idem, IH.
Qed.

(** X20. A prompt without any decimal digit matches none of the three
    patterns, so its shape has the default sizes: radius 25 for a sphere,
    radius 25 and height 50 for a cylinder or a cone, width 50, height 50 and
    depth 50 for a cube, and radius 25 (not the 30 of the builder) with width
    10 for a torus. *)
Theorem prompt_without_digits (prompt : string) :
  has_digit prompt = false ->
  let s := parsePrompt prompt in
  extract_sizes (toLowerCase prompt)
  = mkSizes (num 50) (num 50) (num 50) (num 25)
  /\ dimensions s
     = match type s with
       | sphere => only_radius (num 25)
       | cylinder | cone => radius_height (num 25) (num 50)
       | torus => radius_width (num 25) (num 10)
       | _ => box (num 50) (num 50) (num 50)
       end.
Proof.
  intros H s. rewrite <- has_digit_lower in H.
  destruct patterns_start_with_digit as (P1 & P2 & P3).
  assert (E : extract_sizes (toLowerCase prompt)
              = mkSizes (num 50) (num 50) (num 50) (num 25)).
  { apply extract_sizes_none; now apply search_needs_digit. }
  split; [exact E|]. subst s. unfold parsePrompt, parseLower. rewrite E.
  repeat match goal with
         | |- context [if ?b then _ else _] => destruct b
         end; reflexivity.
Qed.

Lemma prompt_without_digits_witness :
  has_digit "a donut" = false
  /\ dimensions (parsePrompt "a donut") = radius_width (num 25) (num 10).
Proof.
  split; [reflexivity|].
  exact (proj2 (prompt_without_digits "a donut" eq_refl)).
Defined.

